(** * Chat-room persistence layer: a shallow embedding

    The storage service of the chat-room application keeps a collection of
    room records either in the browser's local storage (as one JSON text
    under a fixed key) or in a realtime database (one child per room).
    Rooms are plain JavaScript objects that travel through [JSON.stringify]
    and [JSON.parse], and the import path accepts whatever a file parses
    to, so values are modelled dynamically: [JsVal] is the universe of
    JSON-shaped JavaScript values and the service's functions are written
    over it with the coercions the source relies on (truthiness, [===],
    [String(x)], [Object.values]).

    Conventions of the model.
    - Numbers are integers ([Z]); the program only stores millisecond
      timestamps.  A JavaScript number holds and prints exactly the
      integers up to 2^53 in magnitude ([exact]).
    - Strings are byte strings (UTF-8).
    - [JSON_parse] reads the JSON texts whose numbers are integer
      literals and whose escapes denote no UTF-16 surrogate.  The whole
      grammar is [is_JSON]: a text it refuses makes [JSON.parse] throw; a
      text that is JSON and that [JSON_parse] does not read lies outside
      the model, and so does a value read with a number that is not
      [exact].  What is stated about a stored or loaded text is stated
      for texts that are not JSON and for texts that are read.
    - Objects are association lists kept in JavaScript's own-property
      order: integer-like keys first in ascending order, then the other
      keys in insertion order.
    - A promise is represented by its settled outcome; the effect of a
      remote operation is applied where the operation is started. *)

From Stdlib Require Import ZArith NArith List String Ascii Bool Lia.
From Stdlib Require Import DecimalString DecimalN Sorting.Sorted.
From stdpp Require Import gmap strings list.

Open Scope string_scope.
Open Scope Z_scope.

(** ** JavaScript values *)

Unset Elimination Schemes.
Inductive JsVal : Type :=
| JUndefined
| JNull
| JBool (b : bool)
| JNum (n : Z)
| JStr (s : string)
| JArr (items : list JsVal)
| JObj (props : list (string * JsVal)).
Set Elimination Schemes.

Abbreviation Props := (list (string * JsVal)).

(** Induction principle that reaches the values nested in arrays and
    objects. *)
Definition JsVal_nested_ind (P : JsVal -> Prop)
    (Hundef : P JUndefined) (Hnull : P JNull)
    (Hbool : forall b, P (JBool b)) (Hnum : forall n, P (JNum n))
    (Hstr : forall s, P (JStr s))
    (Harr : forall l, Forall P l -> P (JArr l))
    (Hobj : forall o, Forall (fun kx => P (snd kx)) o -> P (JObj o)) :
  forall v, P v :=
  fix go (v : JsVal) : P v :=
    match v with
    | JUndefined => Hundef
    | JNull => Hnull
    | JBool b => Hbool b
    | JNum n => Hnum n
    | JStr s => Hstr s
    | JArr l =>
        Harr l ((fix all (l : list JsVal) : Forall P l :=
                   match l with
                   | [] => @List.Forall_nil _ P
                   | x :: l' => @List.Forall_cons _ P x l' (go x) (all l')
                   end) l)
    | JObj o =>
        Hobj o ((fix all (o : Props) : Forall (fun kx => P (snd kx)) o :=
                   match o with
                   | [] => @List.Forall_nil _ _
                   | kx :: o' =>
                       @List.Forall_cons _ (fun kx => P (snd kx)) kx o'
                         (go (snd kx)) (all o')
                   end) o)
    end.

(** Exceptions a JavaScript computation can raise. *)
Inductive JsError : Type :=
| TypeError (msg : string)
| SyntaxError (msg : string)
| Error (msg : string).

(** Outcome of a synchronous computation: a value or a thrown exception. *)
Inductive Res (A : Type) : Type :=
| Ok (a : A)
| Throw (e : JsError).
Arguments Ok {A} a.
Arguments Throw {A} e.

(** ** Decimal numerals *)

Definition chars (s : string) : list ascii := list_ascii_of_string s.

Fixpoint uint_chars (d : Decimal.uint) : list ascii :=
  match d with
  | Decimal.Nil => []
  | Decimal.D0 d => "0"%char :: uint_chars d
  | Decimal.D1 d => "1"%char :: uint_chars d
  | Decimal.D2 d => "2"%char :: uint_chars d
  | Decimal.D3 d => "3"%char :: uint_chars d
  | Decimal.D4 d => "4"%char :: uint_chars d
  | Decimal.D5 d => "5"%char :: uint_chars d
  | Decimal.D6 d => "6"%char :: uint_chars d
  | Decimal.D7 d => "7"%char :: uint_chars d
  | Decimal.D8 d => "8"%char :: uint_chars d
  | Decimal.D9 d => "9"%char :: uint_chars d
  end.

Definition digit_of (c : ascii) : option (Decimal.uint -> Decimal.uint) :=
  if Ascii.eqb c "0" then Some Decimal.D0
  else if Ascii.eqb c "1" then Some Decimal.D1
  else if Ascii.eqb c "2" then Some Decimal.D2
  else if Ascii.eqb c "3" then Some Decimal.D3
  else if Ascii.eqb c "4" then Some Decimal.D4
  else if Ascii.eqb c "5" then Some Decimal.D5
  else if Ascii.eqb c "6" then Some Decimal.D6
  else if Ascii.eqb c "7" then Some Decimal.D7
  else if Ascii.eqb c "8" then Some Decimal.D8
  else if Ascii.eqb c "9" then Some Decimal.D9
  else None.

(** The longest prefix of decimal digits, as a numeral, and what follows. *)
Fixpoint take_digits (cs : list ascii) : Decimal.uint * list ascii :=
  match cs with
  | [] => (Decimal.Nil, [])
  | c :: r =>
      match digit_of c with
      | Some D => let (d, r') := take_digits r in (D d, r')
      | None => (Decimal.Nil, cs)
      end
  end.

(** A numeral is canonical when it is non-empty and has no leading zero
    other than the single digit 0. *)
Definition canonical (d : Decimal.uint) : bool :=
  Decimal.uint_beq (Decimal.unorm d) d.

Definition N_chars (n : N) : list ascii := uint_chars (N.to_uint n).

(** Decimal text of an integer, as [String(n)] and [JSON.stringify(n)]
    produce it. *)
Definition Z_chars (n : Z) : list ascii :=
  if n <? 0 then "-"%char :: N_chars (Z.abs_N n) else N_chars (Z.to_N n).

Definition Z_string (n : Z) : string := string_of_list_ascii (Z_chars n).

(** ** Coercions and property access *)

(** [Boolean(v)]: the falsy values are undefined, null, false, 0 and the
    empty string. *)
Definition truthy (v : JsVal) : bool :=
  match v with
  | JUndefined | JNull => false
  | JBool b => b
  | JNum n => negb (n =? 0)
  | JStr s => negb (String.eqb s "")
  | JArr _ | JObj _ => true
  end.

Fixpoint join_strings (sep : string) (l : list string) : string :=
  match l with
  | [] => ""
  | [s] => s
  | s :: l' => s +:+ sep +:+ join_strings sep l'
  end.

(** [String(v)], also what a template literal does to an interpolated
    value.  Inside an array, undefined and null elements print as the
    empty string. *)
Fixpoint to_String (v : JsVal) : string :=
  match v with
  | JUndefined => "undefined"
  | JNull => "null"
  | JBool true => "true"
  | JBool false => "false"
  | JNum n => Z_string n
  | JStr s => s
  | JArr l =>
      join_strings ","
        (map (fun x => match x with
                       | JUndefined | JNull => ""
                       | _ => to_String x
                       end) l)
  | JObj _ => "[object Object]"
  end.

(** [a === b] where at least one side was freshly parsed: primitives are
    compared by value; arrays and objects are compared by reference and
    two distinct allocations are never equal. *)
Definition strict_eq (a b : JsVal) : bool :=
  match a, b with
  | JUndefined, JUndefined => true
  | JNull, JNull => true
  | JBool x, JBool y => Bool.eqb x y
  | JNum x, JNum y => x =? y
  | JStr x, JStr y => String.eqb x y
  | _, _ => false
  end.

(** The array index a property name denotes, if it is the canonical
    decimal form of an integer below 2^32 - 1. *)
Definition array_index (k : string) : option N :=
  let (d, r) := take_digits (chars k) in
  match r with
  | [] =>
      if canonical d && (N.of_uint d <? 4294967295)%N
      then Some (N.of_uint d) else None
  | _ => None
  end.

Fixpoint obj_get (k : string) (o : Props) : JsVal :=
  match o with
  | [] => JUndefined
  | (k', x) :: o' => if String.eqb k k' then x else obj_get k o'
  end.

Fixpoint obj_has (k : string) (o : Props) : bool :=
  match o with
  | [] => false
  | (k', _) :: o' => String.eqb k k' || obj_has k o'
  end.

Fixpoint obj_replace (k : string) (x : JsVal) (o : Props) : Props :=
  match o with
  | [] => []
  | (k', x') :: o' =>
      if String.eqb k k' then (k', x) :: o' else (k', x') :: obj_replace k x o'
  end.

(** Where a new integer-like key goes: before the first key that is not
    integer-like or denotes a larger index. *)
Fixpoint obj_insert_index (i : N) (k : string) (x : JsVal) (o : Props) : Props :=
  match o with
  | [] => [(k, x)]
  | (k', x') :: o' =>
      match array_index k' with
      | Some j =>
          if (i <? j)%N then (k, x) :: o
          else (k', x') :: obj_insert_index i k x o'
      | None => (k, x) :: o
      end
  end.

(** [o[k] = x] on an ordinary object. *)
Definition obj_set (k : string) (x : JsVal) (o : Props) : Props :=
  if obj_has k o then obj_replace k x o
  else match array_index k with
       | Some i => obj_insert_index i k x o
       | None => o ++ [(k, x)]
       end.

(** [v.k] for a property name [k] that is neither an array index nor
    [length] (the service reads only named fields).  Reading a property
    of undefined or null throws; on any other non-object it yields
    undefined. *)
Definition get_prop (v : JsVal) (k : string) : Res JsVal :=
  match v with
  | JUndefined => Throw (TypeError "Cannot read properties of undefined")
  | JNull => Throw (TypeError "Cannot read properties of null")
  | JObj o => Ok (obj_get k o)
  | _ => Ok JUndefined
  end.

(** [Object.values(v)]; a string gives its characters, one per byte, as
    JavaScript does for ASCII text. *)
Definition Object_values (v : JsVal) : Res (list JsVal) :=
  match v with
  | JUndefined | JNull =>
      Throw (TypeError "Cannot convert undefined or null to object")
  | JObj o => Ok (map snd o)
  | JArr l => Ok l
  | JStr s => Ok (map (fun c => JStr (String c "")) (chars s))
  | JBool _ | JNum _ => Ok []
  end.

(** [Array.isArray(v)]. *)
Definition Array_isArray (v : JsVal) : bool :=
  match v with JArr _ => true | _ => false end.

(** ** JSON text *)

(** The double quote and the backslash. *)
Abbreviation dq := ("034"%char) (only parsing).
Abbreviation bsl := ("092"%char) (only parsing).

Definition hex_char (n : N) : ascii :=
  nth (N.to_nat n) (chars "0123456789abcdef") "0"%char.

(** How [JSON.stringify] writes one character of a string. *)
Definition esc_char (c : ascii) : list ascii :=
  let n := N_of_ascii c in
  if (n =? 34)%N then [bsl; dq]
  else if (n =? 92)%N then [bsl; bsl]
  else if (n =? 8)%N then [bsl; "b"%char]
  else if (n =? 12)%N then [bsl; "f"%char]
  else if (n =? 10)%N then [bsl; "n"%char]
  else if (n =? 13)%N then [bsl; "r"%char]
  else if (n =? 9)%N then [bsl; "t"%char]
  else if (n <? 32)%N
       then [bsl; "u"%char; "0"%char; "0"%char;
             hex_char (n / 16); hex_char (n mod 16)]
  else [c].

Definition quote (s : string) : list ascii :=
  dq :: flat_map esc_char (chars s) ++ [dq].

Section Joined.
Variable text : JsVal -> list ascii.

(** Array elements separated by commas. *)
Fixpoint elems_text (l : list JsVal) : list ascii :=
  match l with
  | [] => []
  | x :: l' =>
      text x ++ match l' with [] => [] | _ => ","%char :: elems_text l' end
  end.

(** Object members separated by commas; a member whose value is
    undefined is left out.  [first] tells whether a member was already
    written. *)
Fixpoint members_text (first : bool) (o : Props) : list ascii :=
  match o with
  | [] => []
  | (k, x) :: o' =>
      match x with
      | JUndefined => members_text first o'
      | _ =>
          (if first then [] else [","%char])
            ++ quote k ++ ":"%char :: text x ++ members_text false o'
      end
  end.
End Joined.

(** The text [JSON.stringify] writes for a value in element or member
    position (an undefined array element is written as null). *)
Fixpoint json_text (v : JsVal) : list ascii :=
  match v with
  | JUndefined | JNull => chars "null"
  | JBool true => chars "true"
  | JBool false => chars "false"
  | JNum n => Z_chars n
  | JStr s => quote s
  | JArr l => "["%char :: elems_text json_text l ++ ["]"%char]
  | JObj o => "{"%char :: members_text json_text true o ++ ["}"%char]
  end.

(** [JSON.stringify(v)]; [None] stands for the result [undefined], which
    is what stringifying undefined gives. *)
Definition JSON_stringify (v : JsVal) : option string :=
  match v with
  | JUndefined => None
  | _ => Some (string_of_list_ascii (json_text v))
  end.

Definition is_ws (c : ascii) : bool :=
  Ascii.eqb c " " || Ascii.eqb c "009" || Ascii.eqb c "010" || Ascii.eqb c "013".

Fixpoint skip_ws (cs : list ascii) : list ascii :=
  match cs with
  | [] => []
  | c :: r => if is_ws c then skip_ws r else cs
  end.

Definition hex_val (c : ascii) : option N :=
  let n := N_of_ascii c in
  if (48 <=? n)%N && (n <=? 57)%N then Some (n - 48)%N
  else if (97 <=? n)%N && (n <=? 102)%N then Some (n - 87)%N
  else if (65 <=? n)%N && (n <=? 70)%N then Some (n - 55)%N
  else None.

Definition hex4 (a b c d : ascii) : option N :=
  match hex_val a, hex_val b, hex_val c, hex_val d with
  | Some x, Some y, Some z, Some w => Some (((x * 16 + y) * 16 + z) * 16 + w)%N
  | _, _, _, _ => None
  end.

(** UTF-8 bytes of a code point of the basic plane; surrogates have none. *)
Definition utf8_encode (n : N) : option (list ascii) :=
  if (n <? 128)%N then Some [ascii_of_N n]
  else if (n <? 2048)%N
       then Some [ascii_of_N (192 + n / 64); ascii_of_N (128 + n mod 64)]
  else if (55296 <=? n)%N && (n <=? 57343)%N then None
  else Some [ascii_of_N (224 + n / 4096);
             ascii_of_N (128 + (n / 64) mod 64);
             ascii_of_N (128 + n mod 64)].

Definition unescape (c : ascii) : option ascii :=
  if Ascii.eqb c dq then Some dq
  else if Ascii.eqb c bsl then Some bsl
  else if Ascii.eqb c "/" then Some "/"%char
  else if Ascii.eqb c "b" then Some "008"%char
  else if Ascii.eqb c "f" then Some "012"%char
  else if Ascii.eqb c "n" then Some "010"%char
  else if Ascii.eqb c "r" then Some "013"%char
  else if Ascii.eqb c "t" then Some "009"%char
  else None.

(** The rest of a string literal after its opening quote; [acc] holds the
    characters read so far, last first. *)
Fixpoint parse_string_body (cs acc : list ascii) {struct cs}
  : option (string * list ascii) :=
  match cs with
  | [] => None
  | c :: r =>
      if Ascii.eqb c dq then Some (string_of_list_ascii (rev acc), r)
      else if Ascii.eqb c bsl then
        match r with
        | [] => None
        | e :: r1 =>
            if Ascii.eqb e "u" then
              match r1 with
              | h1 :: h2 :: h3 :: h4 :: r2 =>
                  match hex4 h1 h2 h3 h4 with
                  | Some code =>
                      match utf8_encode code with
                      | Some bytes => parse_string_body r2 (rev bytes ++ acc)
                      | None => None
                      end
                  | None => None
                  end
              | _ => None
              end
            else match unescape e with
                 | Some x => parse_string_body r1 (x :: acc)
                 | None => None
                 end
        end
      else if (N_of_ascii c <? 32)%N then None
      else parse_string_body r (c :: acc)
  end.

(** An unsigned integer literal.  A literal that continues with a fraction
    or an exponent is outside the integer model and is refused. *)
Definition parse_nat (cs : list ascii) : option (N * list ascii) :=
  let (d, r) := take_digits cs in
  if canonical d then
    match r with
    | c :: _ =>
        if Ascii.eqb c "." || Ascii.eqb c "e" || Ascii.eqb c "E"
        then None else Some (N.of_uint d, r)
    | [] => Some (N.of_uint d, r)
    end
  else None.

Fixpoint strip_prefix (p cs : list ascii) : option (list ascii) :=
  match p, cs with
  | [], _ => Some cs
  | a :: p', c :: cs' => if Ascii.eqb a c then strip_prefix p' cs' else None
  | _ :: _, [] => None
  end.

Definition parse_lit (p : string) (v : JsVal) (cs : list ascii)
  : option (JsVal * list ascii) :=
  match strip_prefix (chars p) cs with
  | Some r => Some (v, r)
  | None => None
  end.

(** Recursive-descent reader.  [parse_value] reads one value,
    [parse_elems] the elements of an array after its opening bracket
    ([acc]: elements read so far, last first), [parse_members] the members
    of an object after its opening brace ([acc]: the object built so far;
    a repeated key overwrites the earlier value). *)
Fixpoint parse_value (fuel : nat) (cs : list ascii) {struct fuel}
  : option (JsVal * list ascii) :=
  match fuel with
  | O => None
  | S fuel' =>
      match skip_ws cs with
      | [] => None
      | c :: r =>
          if Ascii.eqb c "n" then parse_lit "ull" JNull r
          else if Ascii.eqb c "t" then parse_lit "rue" (JBool true) r
          else if Ascii.eqb c "f" then parse_lit "alse" (JBool false) r
          else if Ascii.eqb c dq then
            match parse_string_body r [] with
            | Some (s, r') => Some (JStr s, r')
            | None => None
            end
          else if Ascii.eqb c "[" then
            match skip_ws r with
            | c' :: r' =>
                if Ascii.eqb c' "]" then Some (JArr [], r')
                else parse_elems fuel' r []
            | [] => None
            end
          else if Ascii.eqb c "{" then
            match skip_ws r with
            | c' :: r' =>
                if Ascii.eqb c' "}" then Some (JObj [], r')
                else parse_members fuel' r []
            | [] => None
            end
          else if Ascii.eqb c "-" then
            match parse_nat r with
            | Some (n, r') => Some (JNum (- Z.of_N n), r')
            | None => None
            end
          else
            match parse_nat (c :: r) with
            | Some (n, r') => Some (JNum (Z.of_N n), r')
            | None => None
            end
      end
  end
with parse_elems (fuel : nat) (cs : list ascii) (acc : list JsVal) {struct fuel}
  : option (JsVal * list ascii) :=
  match fuel with
  | O => None
  | S fuel' =>
      match parse_value fuel' cs with
      | Some (v, r) =>
          match skip_ws r with
          | c :: r' =>
              if Ascii.eqb c "," then parse_elems fuel' r' (v :: acc)
              else if Ascii.eqb c "]" then Some (JArr (rev (v :: acc)), r')
              else None
          | [] => None
          end
      | None => None
      end
  end
with parse_members (fuel : nat) (cs : list ascii) (acc : Props) {struct fuel}
  : option (JsVal * list ascii) :=
  match fuel with
  | O => None
  | S fuel' =>
      match skip_ws cs with
      | q :: r =>
          if Ascii.eqb q dq then
            match parse_string_body r [] with
            | Some (k, r1) =>
                match skip_ws r1 with
                | c :: r2 =>
                    if Ascii.eqb c ":" then
                      match parse_value fuel' r2 with
                      | Some (v, r3) =>
                          match skip_ws r3 with
                          | c' :: r4 =>
                              if Ascii.eqb c' ","
                              then parse_members fuel' r4 (obj_set k v acc)
                              else if Ascii.eqb c' "}"
                              then Some (JObj (obj_set k v acc), r4)
                              else None
                          | [] => None
                          end
                      | None => None
                      end
                    else None
                | [] => None
                end
            | None => None
            end
          else None
      | [] => None
      end
  end.

(** [JSON.parse(s)] on the texts of the model; [None] stands for a
    thrown SyntaxError when the text is not JSON ([is_JSON]), and marks a
    text outside the model otherwise. *)
Definition JSON_parse (s : string) : option JsVal :=
  let cs := chars s in
  match parse_value (S (List.length cs)) cs with
  | Some (v, r) => match skip_ws r with [] => Some v | _ => None end
  | None => None
  end.

(** What a value becomes after [JSON.parse(JSON.stringify(v))]: undefined
    members disappear, undefined elements become null, and objects are
    rebuilt member by member. *)
Fixpoint jclean (v : JsVal) : JsVal :=
  match v with
  | JArr l =>
      JArr (map (fun x => match x with
                          | JUndefined => JNull
                          | _ => jclean x
                          end) l)
  | JObj o =>
      JObj (fold_left
              (fun acc kx =>
                 match snd kx with
                 | JUndefined => acc
                 | _ => obj_set (fst kx) (jclean (snd kx)) acc
                 end) o [])
  | _ => v
  end.

(** ** The world the service runs in *)

Definition ROOMS_KEY : string := "ai_automation_rooms".
Definition FIREBASE_CONFIG_KEY : string := "ai_automation_firebase_config".

(** [localStorage] is the browser store.  [isCloudEnabled] is the module
    flag set by [initFirebase] together with the database handle.
    [remote_rooms] holds the children of the remote [rooms] node, by child
    key.  [remote_fault], when set, is the error with which the backend
    rejects every write, remove and transaction.  [console], [events] and
    [alerts] record console.error lines, dispatched window events and
    alert boxes, latest first; [unhandled] records the rejections of
    promises that nobody awaited. *)
Record World : Type := mkWorld {
  localStorage : gmap string string;
  isCloudEnabled : bool;
  remote_rooms : gmap string JsVal;
  remote_fault : option string;
  console : list string;
  events : list string;
  alerts : list string;
  unhandled : list JsError
}.

Definition with_localStorage (ls : gmap string string) (w : World) : World :=
  mkWorld ls (isCloudEnabled w) (remote_rooms w) (remote_fault w)
          (console w) (events w) (alerts w) (unhandled w).

Definition with_remote_rooms (db : gmap string JsVal) (w : World) : World :=
  mkWorld (localStorage w) (isCloudEnabled w) db (remote_fault w)
          (console w) (events w) (alerts w) (unhandled w).

Definition with_console (c : list string) (w : World) : World :=
  mkWorld (localStorage w) (isCloudEnabled w) (remote_rooms w) (remote_fault w)
          c (events w) (alerts w) (unhandled w).

Definition with_events (ev : list string) (w : World) : World :=
  mkWorld (localStorage w) (isCloudEnabled w) (remote_rooms w) (remote_fault w)
          (console w) ev (alerts w) (unhandled w).

Definition with_alerts (a : list string) (w : World) : World :=
  mkWorld (localStorage w) (isCloudEnabled w) (remote_rooms w) (remote_fault w)
          (console w) (events w) a (unhandled w).

Definition with_unhandled (u : list JsError) (w : World) : World :=
  mkWorld (localStorage w) (isCloudEnabled w) (remote_rooms w) (remote_fault w)
          (console w) (events w) (alerts w) u.

Definition error_message (e : JsError) : string :=
  match e with
  | TypeError msg | SyntaxError msg | Error msg => msg
  end.

(** Computations that read and change the world and may throw. *)
Definition M (A : Type) : Type := World -> World * Res A.

Definition ret {A} (a : A) : M A := fun w => (w, Ok a).
Definition throw {A} (e : JsError) : M A := fun w => (w, Throw e).
Definition lift {A} (r : Res A) : M A := fun w => (w, r).

Definition bind {A B} (m : M A) (k : A -> M B) : M B :=
  fun w =>
    match m w with
    | (w', Ok a) => k a w'
    | (w', Throw e) => (w', Throw e)
    end.

(** [try { m } catch (e) { h e }]. *)
Definition try_catch {A} (m : M A) (h : JsError -> M A) : M A :=
  fun w =>
    match m w with
    | (w', Throw e) => h e w'
    | r => r
    end.

(** Calling an async function without awaiting its promise: the caller
    goes on, and a rejection is left unhandled. *)
Definition detach {A} (m : M A) : M unit :=
  fun w =>
    match m w with
    | (w', Ok _) => (w', Ok tt)
    | (w', Throw e) => (with_unhandled (e :: unhandled w') w', Ok tt)
    end.

Declare Scope js_scope.
Delimit Scope js_scope with js.
Notation "'let*' x ':=' m 'in' k" := (bind m (fun x => k))
  (at level 10, x name, m at level 100, k at level 200) : js_scope.
Notation "m ';;' k" := (bind m (fun _ => k))
  (at level 100, k at level 200, right associativity) : js_scope.
Open Scope js_scope.

Definition run {A} (m : M A) (w : World) : World := fst (m w).
Definition result {A} (m : M A) (w : World) : Res A := snd (m w).

Definition console_error (line : string) : M unit :=
  fun w => (with_console (line :: console w) w, Ok tt).

Definition alert (text : string) : M unit :=
  fun w => (with_alerts (text :: alerts w) w, Ok tt).

Definition dispatchEvent (name : string) : M unit :=
  fun w => (with_events (name :: events w) w, Ok tt).

(** [localStorage.getItem(key)]; [None] is null. *)
Definition getItem (key : string) : M (option string) :=
  fun w => (w, Ok (localStorage w !! key)).

Definition setItem (key value : string) : M unit :=
  fun w => (with_localStorage (<[key := value]> (localStorage w)) w, Ok tt).

(** [JSON.parse] on what [JSON.stringify] returned; the result
    [undefined] is first turned into the text "undefined". *)
Definition JSON_parse_js (text : option string) : Res JsVal :=
  match JSON_parse (match text with Some s => s | None => "undefined" end) with
  | Some v => Ok v
  | None => Throw (SyntaxError "Unexpected token in JSON")
  end.

(** [findIndex], [find] and [filter] over the elements of an array, with a
    callback that may throw; [find_index] counts from [i] and answers
    [None] where JavaScript answers -1. *)
Fixpoint find_index (p : JsVal -> Res bool) (l : list JsVal) (i : nat)
  : Res (option nat) :=
  match l with
  | [] => Ok None
  | x :: l' =>
      match p x with
      | Ok true => Ok (Some i)
      | Ok false => find_index p l' (S i)
      | Throw e => Throw e
      end
  end.

Fixpoint find_first (p : JsVal -> Res bool) (l : list JsVal) : Res JsVal :=
  match l with
  | [] => Ok JUndefined
  | x :: l' =>
      match p x with
      | Ok true => Ok x
      | Ok false => find_first p l'
      | Throw e => Throw e
      end
  end.

Fixpoint filter_res (p : JsVal -> Res bool) (l : list JsVal)
  : Res (list JsVal) :=
  match l with
  | [] => Ok []
  | x :: l' =>
      match p x with
      | Ok b =>
          match filter_res p l' with
          | Ok r => Ok (if b then x :: r else r)
          | Throw e => Throw e
          end
      | Throw e => Throw e
      end
  end.

Definition not_a_function {A} (method : string) : Res A :=
  Throw (TypeError (method +:+ " is not a function")).

(** The receiver of an array method call: anything but an array has no
    such method, and undefined or null have no properties at all. *)
Definition receiver (method : string) (v : JsVal) : Res (list JsVal) :=
  match v with
  | JArr l => Ok l
  | JUndefined | JNull => Throw (TypeError "Cannot read properties of null")
  | _ => not_a_function method
  end.

(** [v.push(x)], returning the array after the push. *)
Definition Array_push (v x : JsVal) : Res JsVal :=
  match receiver "push" v with
  | Ok l => Ok (JArr (l ++ [x]))
  | Throw e => Throw e
  end.

(** [JSON.stringify] of an array, which always yields a text. *)
Definition stringify_array (l : list JsVal) : string :=
  string_of_list_ascii (json_text (JArr l)).

(** [v.k = x] in strict mode (the service is an ES module), returning the
    updated object.  Only an object can take the property; undefined,
    null and primitives throw.  An array used as a record is outside the
    model and is treated like a primitive. *)
Definition set_prop (v : JsVal) (k : string) (x : JsVal) : Res JsVal :=
  match v with
  | JObj o => Ok (JObj (obj_set k x o))
  | _ => Throw (TypeError "Cannot set properties")
  end.

(** ** The remote backend

    [set], [remove] and [runTransaction] of the database client, as seen
    by a caller that awaits the returned promise.  A written null removes
    the child.  A transaction applies its update function to the current
    value of the child (null when there is none) in one step; an update
    that returns undefined aborts without writing.  The backend is taken
    to keep a written value as it is: how the database itself represents
    arrays and empty values is not modelled, and the listener of the
    subscription is verified for every snapshot value instead. *)

Definition child_value (key : string) (w : World) : JsVal :=
  match remote_rooms w !! key with Some v => v | None => JNull end.

Definition write_child (key : string) (v : JsVal) (w : World) : World :=
  match v with
  | JNull => with_remote_rooms (delete key (remote_rooms w)) w
  | _ => with_remote_rooms (<[key := v]> (remote_rooms w)) w
  end.

Definition remote_set (key : string) (v : JsVal) : M unit :=
  fun w =>
    match remote_fault w with
    | Some msg => (w, Throw (Error msg))
    | None => (write_child key v w, Ok tt)
    end.

Definition remote_remove (key : string) : M unit :=
  fun w =>
    match remote_fault w with
    | Some msg => (w, Throw (Error msg))
    | None => (with_remote_rooms (delete key (remote_rooms w)) w, Ok tt)
    end.

Definition remote_transaction (key : string) (update : JsVal -> Res JsVal)
  : M unit :=
  fun w =>
    match remote_fault w with
    | Some msg => (w, Throw (Error msg))
    | None =>
        match update (child_value key w) with
        | Ok JUndefined => (w, Ok tt)
        | Ok v => (write_child key v w, Ok tt)
        | Throw e => (w, Throw e)
        end
    end.

(** What a listener on the [rooms] node receives: null when the node has
    no child, otherwise an object with one member per child. *)
Definition rooms_snapshot (w : World) : JsVal :=
  match map_to_list (remote_rooms w) with
  | [] => JNull
  | children =>
      JObj (fold_left (fun o kv => obj_set (fst kv) (snd kv) o) children [])
  end.

(** ** The storage service *)

(** [getLocalRooms]: the stored collection, or an empty list when nothing
    is stored or the stored text does not parse. *)
Definition getLocalRooms : M JsVal :=
  try_catch
    (let* stored := getItem ROOMS_KEY in
     match stored with
     | Some s =>
         if negb (String.eqb s "") then lift (JSON_parse_js (Some s))
         else ret (JArr [])
     | None => ret (JArr [])
     end)
    (fun _ =>
       console_error "Failed to parse rooms from localStorage";;
       ret (JArr [])).

Definition notifyLocalChanges : M unit :=
  dispatchEvent "storage";; dispatchEvent "storage-local".

(** The child key of a room: the template literal of its path puts
    [String(id)] after the [rooms/] prefix. *)
Definition room_key (id : JsVal) : string := to_String id.

(** [r.id === room.id], as the callback of [findIndex] evaluates it. *)
Definition same_id (room r : JsVal) : Res bool :=
  match get_prop r "id" with
  | Ok rid =>
      match get_prop room "id" with
      | Ok id => Ok (strict_eq rid id)
      | Throw e => Throw e
      end
  | Throw e => Throw e
  end.

(** [saveRoom(room)], as observed by a caller that awaits it. *)
Definition saveRoom (room : JsVal) : M unit :=
  fun w =>
    if isCloudEnabled w then
      try_catch
        (let* sanitizedRoom := lift (JSON_parse_js (JSON_stringify room)) in
         let* id := lift (get_prop room "id") in
         remote_set (room_key id) sanitizedRoom)
        (fun e => console_error "Error saving room to cloud:";; throw e) w
    else
      (let* stored := getLocalRooms in
       let* rooms := lift (receiver "findIndex" stored) in
       let* existingIndex := lift (find_index (same_id room) rooms 0) in
       let rooms' :=
         match existingIndex with
         | Some i => <[i := room]> rooms
         | None => (rooms ++ [room])%list
         end in
       setItem ROOMS_KEY (stringify_array rooms');;
       notifyLocalChanges) w.

(** [String(r.id) !== String(roomId)], the filter of [deleteRoom]. *)
Definition other_id (roomId : string) (r : JsVal) : Res bool :=
  match get_prop r "id" with
  | Ok rid => Ok (negb (String.eqb (to_String rid) roomId))
  | Throw e => Throw e
  end.

(** [deleteRoom(roomId)], as observed by a caller that awaits it. *)
Definition deleteRoom (roomId : string) : M unit :=
  fun w =>
    if isCloudEnabled w then
      try_catch
        (remote_remove roomId)
        (fun e => console_error "Error deleting room from cloud:";; throw e) w
    else
      (let* stored := getLocalRooms in
       let* rooms := lift (receiver "filter" stored) in
       let* updatedRooms := lift (filter_res (other_id roomId) rooms) in
       setItem ROOMS_KEY (stringify_array updatedRooms);;
       notifyLocalChanges) w.

(** What the platform hands to one call of [createRoom]: the calendar
    date of [new Date()], [crypto.randomUUID()] when the platform has it,
    the successive readings of [Date.now()] and the base-36 texts of the
    two [Math.random()] draws. *)
Record Entropy : Type := mkEntropy {
  now_year : Z;
  now_month : Z;
  now_date : Z;
  crypto_randomUUID : option string;
  id_time : Z;
  id_random36 : string;
  message_random36 : string;
  message_time : Z;
  created_time : Z
}.

Section Creation.
(** The admin member of the role enumeration, whose declaration is not
    part of the service. *)
Variable UserRole_ADMIN : JsVal.

Definition dateText (env : Entropy) : string :=
  Z_string (now_year env) +:+ "년 " +:+ Z_string (now_month env + 1)
    +:+ "월 " +:+ Z_string (now_date env) +:+ "일".

Definition uniqueId (env : Entropy) : string :=
  match crypto_randomUUID env with
  | Some uuid => uuid
  | None =>
      "room_" +:+ Z_string (id_time env) +:+ "_"
        +:+ substring 2 7 (id_random36 env)
  end.

Definition systemMessage (env : Entropy) : JsVal :=
  JObj [("id", JStr (message_random36 env));
        ("senderName", JStr "System");
        ("role", UserRole_ADMIN);
        ("text", JStr (dateText env));
        ("timestamp", JNum (message_time env));
        ("type", JStr "system")].

Definition newRoom (env : Entropy) (title : string) (password : option string)
  : JsVal :=
  JObj [("id", JStr (uniqueId env));
        ("title", JStr title);
        ("password", match password with Some p => JStr p | None => JUndefined end);
        ("messages", JArr [systemMessage env]);
        ("memos", JArr []);
        ("createdAt", JNum (created_time env));
        ("createdBy", JStr "AI Bot")].

(** [createRoom(title, password)]: the record is returned after the
    awaited [saveRoom] has settled. *)
Definition createRoom (env : Entropy) (title : string)
    (password : option string) : M JsVal :=
  let room := newRoom env title password in
  saveRoom room;;
  ret room.
End Creation.

(** The update functions handed to [runTransaction]. *)
Definition as_array (v : JsVal) : Res (list JsVal) :=
  match v with
  | JArr l => Ok l
  | _ => Object_values v
  end.

Definition append_to (field : string) (item : JsVal) (room : JsVal)
  : Res JsVal :=
  if truthy room then
    match get_prop room field with
    | Ok current =>
        match (if negb (truthy current) then set_prop room field (JArr [])
               else Ok room) with
        | Ok room1 =>
            match get_prop room1 field with
            | Ok current1 =>
                match as_array current1 with
                | Ok items => set_prop room1 field (JArr (items ++ [item]))
                | Throw e => Throw e
                end
            | Throw e => Throw e
            end
        | Throw e => Throw e
        end
    | Throw e => Throw e
    end
  else Ok room.

(** [m.id !== memoId]. *)
Definition other_memo (memoId : string) (m : JsVal) : Res bool :=
  match get_prop m "id" with
  | Ok mid => Ok (negb (strict_eq mid (JStr memoId)))
  | Throw e => Throw e
  end.

Definition remove_memo (memoId : string) (room : JsVal) : Res JsVal :=
  if truthy room then
    match get_prop room "memos" with
    | Ok current =>
        if negb (truthy current) then Ok room
        else
          match as_array current with
          | Ok memos =>
              match filter_res (other_memo memoId) memos with
              | Ok kept => set_prop room "memos" (JArr kept)
              | Throw e => Throw e
              end
          | Throw e => Throw e
          end
    | Throw e => Throw e
    end
  else Ok room.

(** [r.id === roomId], the callback of [find]. *)
Definition has_id (roomId : string) (r : JsVal) : Res bool :=
  match get_prop r "id" with
  | Ok rid => Ok (strict_eq rid (JStr roomId))
  | Throw e => Throw e
  end.

(** The local branch shared by [addMessage] and [addMemo]:
    [room.field.push(item); saveRoom(room)], the save not awaited. *)
Definition local_append (field : string) (roomId : string) (item : JsVal)
  : M unit :=
  let* stored := getLocalRooms in
  let* rooms := lift (receiver "find" stored) in
  let* room := lift (find_first (has_id roomId) rooms) in
  if truthy room then
    let* current := lift (get_prop room field) in
    let* pushed := lift (Array_push current item) in
    let* room' := lift (set_prop room field pushed) in
    detach (saveRoom room')
  else ret tt.

(** [addMessage(roomId, message)]: returns nothing; in cloud mode the
    transaction's promise is dropped. *)
Definition addMessage (roomId : string) (message : JsVal) : M unit :=
  fun w =>
    if isCloudEnabled w then
      detach (remote_transaction roomId (append_to "messages" message)) w
    else local_append "messages" roomId message w.

Definition addMemo (roomId : string) (memo : JsVal) : M unit :=
  fun w =>
    if isCloudEnabled w then
      detach (remote_transaction roomId (append_to "memos" memo)) w
    else local_append "memos" roomId memo w.

Definition deleteMemo (roomId memoId : string) : M unit :=
  fun w =>
    if isCloudEnabled w then
      detach (remote_transaction roomId (remove_memo memoId)) w
    else
      (let* stored := getLocalRooms in
       let* rooms := lift (receiver "find" stored) in
       let* room := lift (find_first (has_id roomId) rooms) in
       if truthy room then
         let* current := lift (get_prop room "memos") in
         let* memos := lift (receiver "filter" current) in
         let* kept := lift (filter_res (other_memo memoId) memos) in
         let* room' := lift (set_prop room "memos" (JArr kept)) in
         detach (saveRoom room')
       else ret tt) w.

(** [importRoom(roomData)]: the validation, then [saveRoom] without
    await, inside a try/catch that answers false. *)
Definition importRoom (roomData : JsVal) : M bool :=
  try_catch
    (if negb (truthy roomData) then ret false
     else
       let* id := lift (get_prop roomData "id") in
       if negb (truthy id) then ret false
       else
         let* title := lift (get_prop roomData "title") in
         if negb (truthy title) then ret false
         else detach (saveRoom roomData);; ret true)
    (fun _ => ret false).

(** [{...r}]: the own enumerable properties of a value.  An array or a
    string spreads into index keys; other primitives, undefined and null
    spread into nothing. *)
Fixpoint indexed (i : N) (l : list JsVal) : Props :=
  match l with
  | [] => []
  | x :: l' => (string_of_list_ascii (N_chars i), x) :: indexed (N.succ i) l'
  end.

Definition spread (r : JsVal) : Props :=
  match r with
  | JObj o => o
  | JArr l => indexed 0 l
  | JStr s => indexed 0 (map (fun c => JStr (String c "")) (chars s))
  | _ => []
  end.

(** [r.field ? Object.values(r.field) : []]. *)
Definition values_or_empty (r : JsVal) (field : string) : Res JsVal :=
  match get_prop r field with
  | Ok x =>
      if truthy x then
        match Object_values x with
        | Ok l => Ok (JArr l)
        | Throw e => Throw e
        end
      else Ok (JArr [])
  | Throw e => Throw e
  end.

(** The reshaping of one remote child:
    [{...r, messages: ..., memos: ...}]. *)
Definition reshape (r : JsVal) : Res JsVal :=
  match values_or_empty r "messages" with
  | Ok messages =>
      match values_or_empty r "memos" with
      | Ok memos =>
          Ok (JObj (obj_set "memos" memos
                      (obj_set "messages" messages (spread r))))
      | Throw e => Throw e
      end
  | Throw e => Throw e
  end.

Fixpoint map_res {A B} (f : A -> Res B) (l : list A) : Res (list B) :=
  match l with
  | [] => Ok []
  | x :: l' =>
      match f x with
      | Ok y =>
          match map_res f l' with
          | Ok r => Ok (y :: r)
          | Throw e => Throw e
          end
      | Throw e => Throw e
      end
  end.

(** The value listener of [subscribeToRooms] in cloud mode: what the
    callback is called with for a snapshot value [data]. *)
Definition onRoomsValue (data : JsVal) : Res JsVal :=
  if truthy data then
    match Object_values data with
    | Ok children =>
        match map_res reshape children with
        | Ok roomsList => Ok (JArr roomsList)
        | Throw e => Throw e
        end
    | Throw e => Throw e
    end
  else Ok (JArr []).

(** The error listener of [subscribeToRooms] in cloud mode: it logs and
    does not call the callback. *)
Definition onRoomsError (e : JsError) : M (option JsVal) :=
  console_error "RTDB sync error:";; ret None.

(** [loadLocal] of [subscribeToRooms] in local mode: what the callback is
    called with.  The parse is not guarded. *)
Definition loadLocal : M JsVal :=
  let* stored := getItem ROOMS_KEY in
  match stored with
  | Some s =>
      if negb (String.eqb s "") then lift (JSON_parse_js (Some s))
      else ret (JArr [])
  | None => ret (JArr [])
  end.

(** One notification reaching the subscription. *)
Inductive Notification : Type :=
| SnapshotValue (data : JsVal)
| SnapshotError (e : JsError)
| StorageEvent.

(** What the subscriber's callback receives for a notification, if it is
    called. *)
Definition deliver (n : Notification) : M (option JsVal) :=
  fun w =>
    if isCloudEnabled w then
      match n with
      | SnapshotValue data =>
          (let* rooms := lift (onRoomsValue data) in ret (Some rooms)) w
      | SnapshotError e => onRoomsError e w
      | StorageEvent => (w, Ok None)
      end
    else
      match n with
      | StorageEvent => (let* rooms := loadLocal in ret (Some rooms)) w
      | _ => (w, Ok None)
      end.

(** The first delivery after subscribing: the current snapshot in cloud
    mode, the initial [loadLocal] in local mode. *)
Definition subscribeToRooms : M (option JsVal) :=
  fun w =>
    if isCloudEnabled w then deliver (SnapshotValue (rooms_snapshot w)) w
    else deliver StorageEvent w.

(** ** The application's handlers *)

(** [handleExportRoom]: the text of the downloaded file. *)
Definition exportedFile (room : JsVal) : option string := JSON_stringify room.

Section Handlers.
Variable UserRole_ADMIN : JsVal.

(** [handleCreateRoom]: awaits [createRoom]; a failure is logged and
    shown as an alert.  Returns the room that was entered, if any. *)
Definition handleCreateRoom (env : Entropy) (title : string)
    (password : option string) : M (option JsVal) :=
  try_catch
    (let* room := createRoom UserRole_ADMIN env title password in
     ret (Some room))
    (fun _ =>
       console_error "Failed to create room:";;
       alert "방 생성에 실패했습니다. 클라우드 연결 상태를 확인해주세요.";;
       ret None).
End Handlers.

(** [handleConfirmDelete]: [deleteRoom] is called and not awaited. *)
Definition handleConfirmDelete (roomToDelete : option string) : M unit :=
  match roomToDelete with
  | Some roomId => detach (deleteRoom roomId)
  | None => ret tt
  end.

(** The [onload] handler of [handleFileChange] for a file with the given
    text. *)
Definition handleFileLoaded (text : string) : M unit :=
  try_catch
    (let* json := lift (JSON_parse_js (Some text)) in
     let* success := importRoom json in
     if success then alert "방을 성공적으로 불러왔습니다!"
     else alert "유효하지 않은 방 데이터 파일입니다.")
    (fun err =>
       console_error (error_message err);;
       alert "파일을 읽는 중 오류가 발생했습니다.").

(** ** The credential setup dialog *)

(** What the surroundings answer during one run of [handleSave]: the
    value obtained by evaluating the pasted text as an object literal
    ([None] when that evaluation throws), the user's answer to the
    confirmation box, and the outcome of the connectivity probe ([Some]
    message when [testFirebaseConnection] throws). *)
Record SetupEnv : Type := mkSetupEnv {
  eval_result : option JsVal;
  confirm_answer : bool;
  probe_failure : option string
}.

(** The dialog after the run: the displayed error, the testing flag, the
    confirmation boxes that were shown, the configurations that were
    probed, and whether the dialog closed itself. *)
Record Dialog : Type := mkDialog {
  error : string;
  isTesting : bool;
  prompts : list string;
  probed : list JsVal;
  closed : bool
}.

Definition nl : string := String "010" "".

(** [typeof v === 'object']. *)
Definition typeof_object (v : JsVal) : bool :=
  match v with
  | JNull | JArr _ | JObj _ => true
  | _ => false
  end.

Definition inferredUrl (projectId : JsVal) : string :=
  "https://" +:+ to_String projectId +:+ "-default-rtdb.firebaseio.com".

Definition confirmText (url : string) : string :=
  "설정에 'databaseURL'이 없습니다. (Realtime Database 필수)" +:+ nl +:+ nl
    +:+ "자동으로 다음 주소를 추가할까요?" +:+ nl +:+ url.

Definition missing_databaseURL : string :=
  "'databaseURL'이 없습니다. Firebase Console의 Realtime Database 섹션에서 URL을 확인하고 추가해주세요.".

(** The two parsing attempts: the object-literal evaluation, then strict
    JSON. *)
Definition parseConfig (configJson : string) (env : SetupEnv) : Res JsVal :=
  match eval_result env with
  | Some config => Ok config
  | None =>
      match JSON_parse configJson with
      | Some config => Ok config
      | None =>
          Throw (Error "설정 형식을 인식할 수 없습니다. (Javascript Object 또는 JSON 형식이 아닙니다)")
      end
  end.

Definition missingFields (apiKey projectId : JsVal) : list string :=
  (if negb (truthy apiKey) then ["apiKey"] else [])
    ++ (if negb (truthy projectId) then ["projectId"] else []).

(** [saveFirebaseConfig], reached through the dialog's [onSave]. *)
Definition saveFirebaseConfig (config : JsVal) : M unit :=
  match JSON_stringify config with
  | Some text => setItem FIREBASE_CONFIG_KEY text
  | None => setItem FIREBASE_CONFIG_KEY "undefined"
  end.

(** The outer catch of [handleSave]. *)
Definition reportError (e : JsError) (shown : list string) (tried : list JsVal)
  : Dialog :=
  let msg := error_message e in
  mkDialog (if String.eqb msg "" then "설정을 파싱하는 중 오류가 발생했습니다." else msg)
           false shown tried false.

(** [handleSave]: parse, validate, complete the database URL on
    confirmation, probe, then save and close. *)
Definition handleSave (configJson : string) (env : SetupEnv) (w : World)
  : World * Dialog :=
  match parseConfig configJson env with
  | Throw e => (w, reportError e [] [])
  | Ok config =>
      if negb (truthy config) || negb (typeof_object config)
      then (w, reportError (Error "유효한 설정 객체가 아닙니다.") [] [])
      else
        match get_prop config "apiKey", get_prop config "projectId",
              get_prop config "databaseURL" with
        | Ok apiKey, Ok projectId, Ok databaseURL =>
            match missingFields apiKey projectId with
            | (_ :: _) as missing =>
                (w, reportError
                      (Error ("필수 값이 누락되었습니다: "
                                +:+ join_strings ", " missing)) [] [])
            | [] =>
                let url := inferredUrl projectId in
                let asked :=
                  if negb (truthy databaseURL) then [confirmText url] else [] in
                let completed :=
                  if negb (truthy databaseURL) then
                    if confirm_answer env
                    then match set_prop config "databaseURL" (JStr url) with
                         | Ok c => Ok (Some c)
                         | Throw e => Throw e
                         end
                    else Ok None
                  else Ok (Some config) in
                match completed with
                | Throw e => (w, reportError e asked [])
                | Ok None => (w, mkDialog missing_databaseURL false asked [] false)
                | Ok (Some config') =>
                    match probe_failure env with
                    | Some msg =>
                        (w, reportError (Error ("연결 실패: " +:+ msg))
                              asked [config'])
                    | None =>
                        (run (saveFirebaseConfig config') w,
                         mkDialog "" false asked [config'] true)
                    end
                end
            end
        | Throw e, _, _ | _, Throw e, _ | _, _, Throw e =>
            (w, reportError e [] [])
        end
  end.

(** ** Concurrent transactions on one room

    The database client runs a transaction optimistically: it applies the
    update function to the value it currently holds for the child (null
    when it holds none), sends the value it saw together with the new
    value, and the server installs the new value only if the child still
    has the value that was seen; otherwise the client starts again from
    the server's value.  Two clients doing so on the same child are
    modelled as a transition system. *)

Fixpoint JsVal_eqb (a b : JsVal) : bool :=
  match a, b with
  | JUndefined, JUndefined => true
  | JNull, JNull => true
  | JBool x, JBool y => Bool.eqb x y
  | JNum x, JNum y => x =? y
  | JStr x, JStr y => String.eqb x y
  | JArr l, JArr l' =>
      (fix all (l l' : list JsVal) : bool :=
         match l, l' with
         | [], [] => true
         | x :: l, y :: l' => JsVal_eqb x y && all l l'
         | _, _ => false
         end) l l'
  | JObj o, JObj o' =>
      (fix all (o o' : Props) : bool :=
         match o, o' with
         | [], [] => true
         | (k, x) :: o, (k', y) :: o' =>
             String.eqb k k' && JsVal_eqb x y && all o o'
         | _, _ => false
         end) o o'
  | _, _ => false
  end.

Module Txn.

Inductive Phase : Type :=
| Trying (view : JsVal)
| Sent (view new : JsVal)
| Committed
| Aborted
| Failed (e : JsError).

Record State : Type := mkState {
  server : JsVal;
  first : Phase;
  second : Phase
}.

(** One move of a client whose update function is [update], against
    the server value [srv]: the client's next phase and the server's
    next value. *)
Inductive move (update : JsVal -> Res JsVal) (srv : JsVal)
  : Phase -> Phase -> JsVal -> Prop :=
| move_compute view new :
    update view = Ok new -> new <> JUndefined ->
    move update srv (Trying view) (Sent view new) srv
| move_abort view :
    update view = Ok JUndefined ->
    move update srv (Trying view) Aborted srv
| move_fail view e :
    update view = Throw e ->
    move update srv (Trying view) (Failed e) srv
| move_commit view new :
    JsVal_eqb srv view = true ->
    move update srv (Sent view new) Committed new
| move_retry view new :
    JsVal_eqb srv view = false ->
    move update srv (Sent view new) (Trying srv) srv.

Section TwoClients.
Variables update1 update2 : JsVal -> Res JsVal.

Inductive step : State -> State -> Prop :=
| step_first srv p p' srv' q :
    move update1 srv p p' srv' ->
    step (mkState srv p q) (mkState srv' p' q)
| step_second srv p q q' srv' :
    move update2 srv q q' srv' ->
    step (mkState srv p q) (mkState srv' p q').

Inductive steps : State -> State -> Prop :=
| steps_refl s : steps s s
| steps_more s s' s'' : steps s s' -> step s' s'' -> steps s s''.
End TwoClients.

Definition done (s : State) : Prop :=
  first s = Committed /\ second s = Committed.

(** Work left: a client that has to send costs more when the value it
    holds is not the server's, and every client still running may be
    overtaken once by the other. *)
Definition phase_cost (srv : JsVal) (p : Phase) : nat :=
  match p with
  | Trying view => if JsVal_eqb srv view then 5 else 7
  | Sent view _ => if JsVal_eqb srv view then 4 else 6
  | Committed | Aborted | Failed _ => 0
  end.

Definition cost (s : State) : nat :=
  phase_cost (server s) (first s) + phase_cost (server s) (second s).

End Txn.

(** The messages of a room as the update function of [addMessage] sees
    them: a missing or falsy field counts as empty and a key-indexed
    mapping counts as its values. *)
Definition field_items (field : string) (o : Props) : list JsVal :=
  let current := obj_get field o in
  if truthy current then
    match as_array current with Ok l => l | Throw _ => [] end
  else [].

(** ** The stored backend configuration and the page load *)

Definition removeItem (key : string) : M unit :=
  fun w => (with_localStorage (delete key (localStorage w)) w, Ok tt).

(** [getFirebaseConfig]: the stored configuration, or null when nothing
    is stored or the stored text does not parse.  Nothing is logged. *)
Definition getFirebaseConfig : M JsVal :=
  try_catch
    (let* stored := getItem FIREBASE_CONFIG_KEY in
     match stored with
     | Some s =>
         if negb (String.eqb s "") then lift (JSON_parse_js (Some s))
         else ret JNull
     | None => ret JNull
     end)
    (fun _ => ret JNull).

(** Where a call sends the browser: to the root address or to a reload
    of the current page. *)
Inductive Navigation : Type :=
| ToRoot
| Reload.

(** [clearFirebaseConfig]: the call ends with a navigation, which is its
    result here. *)
Definition clearFirebaseConfig : M Navigation :=
  try_catch
    (removeItem FIREBASE_CONFIG_KEY;; ret ToRoot)
    (fun _ => console_error "Error clearing config:";; ret Reload).

Definition with_isCloudEnabled (b : bool) (w : World) : World :=
  mkWorld (localStorage w) b (remote_rooms w) (remote_fault w)
          (console w) (events w) (alerts w) (unhandled w).

Definition set_isCloudEnabled (b : bool) : M unit :=
  fun w => (with_isCloudEnabled b w, Ok tt).

Section PageLoad.
(** Whether [initializeApp] and [getDatabase] of the database client take
  a configuration without throwing. *)
Variable sdk_accepts : JsVal -> bool.

(** [initFirebase]: cloud mode is switched on when a configuration is
  stored and the client takes it.  The success line written with
  console.log is not recorded. *)
Definition initFirebase : M unit :=
let* config := getFirebaseConfig in
if truthy config then
  if sdk_accepts config then set_isCloudEnabled true
  else console_error "Failed to initialize Firebase";;
       set_isCloudEnabled false
else ret tt.

(** Loading the page: the module starts with cloud mode off and runs
  [initFirebase] at once; the two stores outlive the page. *)
Definition loadPage : M unit :=
fun w => initFirebase (with_isCloudEnabled false w).
End PageLoad.

(** ** Computations over other states

    The reply generator and the connectivity probe have effects of their
    own (requests to the model, test apps of the database client), kept
    in states of their own. *)

Section Effects.
Context {S : Type}.

Definition Eff (A : Type) : Type := S -> S * Res A.

Definition eret {A} (a : A) : Eff A := fun s => (s, Ok a).
Definition ethrow {A} (e : JsError) : Eff A := fun s => (s, Throw e).
Definition elift {A} (r : Res A) : Eff A := fun s => (s, r).

Definition ebind {A B} (m : Eff A) (k : A -> Eff B) : Eff B :=
  fun s =>
    match m s with
    | (s', Ok a) => k a s'
    | (s', Throw e) => (s', Throw e)
    end.

(** [try { m } catch (e) { h e }]. *)
Definition ecatch {A} (m : Eff A) (h : JsError -> Eff A) : Eff A :=
  fun s =>
    match m s with
    | (s', Throw e) => h e s'
    | r => r
    end.

(** [try { m } finally { f }]: [f] runs whatever [m] did, and the
    outcome is that of [m] unless [f] throws. *)
Definition efinally {A} (m : Eff A) (f : Eff unit) : Eff A :=
  fun s =>
    match m s with
    | (s1, r) =>
        match f s1 with
        | (s2, Ok _) => (s2, r)
        | (s2, Throw e) => (s2, Throw e)
        end
    end.
End Effects.
Arguments Eff : clear implicits.

(** ** The reply generator *)

Module Gemini.

(** What one call meets: [process.env.API_KEY] (undefined when there is
    no process or no environment) and, for a prompt, the response of
    the model, or the error with which constructing the client or the
    request fails. *)
Record Env : Type := mkEnv {
  API_KEY : JsVal;
  generateContent : string -> Res JsVal
}.

(** The prompts sent to the model and the console lines, latest first. *)
Record State : Type := mkState {
  sent : list string;
  lines : list string
}.

Definition log (line : string) : Eff State unit :=
  fun s => (mkState (sent s) (line :: lines s), Ok tt).

Definition request (env : Env) (prompt : string) : Eff State JsVal :=
  fun s => (mkState (prompt :: sent s) (lines s), generateContent env prompt).

Definition quoted (s : string) : string :=
  String "034" (s +:+ String "034" "").

(** [`${m.senderName}: ${m.text}`]. *)
Definition message_line (m : JsVal) : Res string :=
  match get_prop m "senderName" with
  | Ok senderName =>
      match get_prop m "text" with
      | Ok text => Ok (to_String senderName +:+ ": " +:+ to_String text)
      | Throw e => Throw e
      end
  | Throw e => Throw e
  end.

(** [history.map(...).join('\n')]. *)
Definition conversation (history : JsVal) : Res string :=
  match receiver "map" history with
  | Ok messages =>
      match map_res message_line messages with
      | Ok texts => Ok (join_strings nl texts)
      | Throw e => Throw e
      end
  | Throw e => Throw e
  end.

Definition prompt (context conversation : string) : string :=
  nl +:+ "      You are a helpful, cute, and professional AI Chatbot named "
     +:+ quoted "AI Bot" +:+ "." +:+ nl
     +:+ "      You are managing a chat room called " +:+ quoted context
     +:+ "." +:+ nl
     +:+ "      " +:+ nl
     +:+ "      Here is the recent conversation history:" +:+ nl
     +:+ "      " +:+ conversation +:+ nl
     +:+ nl
     +:+ "      Please provide a helpful, polite, and concise response to the last user message as the administrator of this room." +:+ nl
     +:+ "      Keep the tone friendly and slightly cute (using emojis is okay)." +:+ nl
     +:+ "      Do not include " +:+ quoted "AI Bot:"
     +:+ " in your response, just the message content." +:+ nl
     +:+ "    ".

Definition missing_key_reply : string :=
  "System: API Key is missing. Please configure it to use AI features.".
Definition no_text_reply : string :=
  "I'm sorry, I couldn't think of a response right now. 🤖".
Definition error_reply : string := "Error generating AI response.".

(** [generateAIResponse(history, context)].  The client is constructed
    before the conversation text is built; neither has an effect that is
    recorded here, so a failure of the constructor is met at the
    request. *)
Definition generateAIResponse (env : Env) (history : JsVal) (context : string)
  : Eff State JsVal :=
  ecatch
    (if negb (truthy (API_KEY env)) then
       ebind (log "API Key is missing for Gemini")
             (fun _ => eret (JStr missing_key_reply))
     else
       ebind (elift (conversation history)) (fun conv =>
       ebind (request env (prompt context conv)) (fun response =>
       ebind (elift (get_prop response "text")) (fun text =>
       eret (if truthy text then text else JStr no_text_reply)))))
    (fun _ =>
       ebind (log "Gemini API Error:") (fun _ => eret (JStr error_reply))).

End Gemini.

(** ** The connectivity probe *)

Module Probe.

(** One notification of the listener on [.info/connected]. *)
Inductive Notice : Type :=
| Connected (value : JsVal)
| Cancelled (e : JsError).

(** What one run of the probe meets: [Date.now()], the errors with
    which [initializeApp], [getDatabase] and [deleteApp] fail, if they
    do, and the notifications that reach the listener within the five
    seconds of the timer, in order. *)
Record Env : Type := mkEnv {
  date_now : Z;
  initializeApp_error : option JsError;
  getDatabase_error : option JsError;
  notices : list Notice;
  deleteApp_error : option JsError
}.

(** The apps of the database client that exist, the local variable
    [testApp] and the console lines, latest first. *)
Record State : Type := mkState {
  apps : list string;
  testApp : option string;
  lines : list string
}.

Definition log (line : string) : Eff State unit :=
  fun s => (mkState (apps s) (testApp s) (line :: lines s), Ok tt).

Definition timeout_message : string :=
  "연결 시간 초과 (5초). 인터넷 연결이나 설정을 확인해주세요.".
Definition default_message : string := "Firebase 연결에 실패했습니다.".

(** The awaited promise: it resolves at the first value that is [true],
    rejects at the first cancellation, and rejects with the timeout
    error when the timer fires first, which is when the notifications
    of the five seconds hold neither. *)
Fixpoint awaitConnected (l : list Notice) : Res unit :=
  match l with
  | [] => Throw (Error timeout_message)
  | Connected value :: rest =>
      if strict_eq value (JBool true) then Ok tt else awaitConnected rest
  | Cancelled e :: _ => Throw e
  end.

(** [testApp = initializeApp(config, appName)]. *)
Definition initializeApp (env : Env) (appName : string) : Eff State unit :=
  fun s =>
    match initializeApp_error env with
    | Some e => (s, Throw e)
    | None => (mkState (appName :: apps s) (Some appName) (lines s), Ok tt)
    end.

Definition getDatabase (env : Env) : Eff State unit :=
  fun s =>
    match getDatabase_error env with
    | Some e => (s, Throw e)
    | None => (s, Ok tt)
    end.

Definition deleteApp (env : Env) (app : string) : Eff State unit :=
  fun s =>
    match deleteApp_error env with
    | Some e => (s, Throw e)
    | None =>
        (mkState (List.filter (fun a => negb (String.eqb a app)) (apps s))
                 (testApp s) (lines s), Ok tt)
    end.

(** [testFirebaseConnection(config)], entered with [testApp] null. *)
Definition testFirebaseConnection (env : Env) : Eff State unit :=
  fun s0 =>
    efinally
      (ecatch
         (ebind (initializeApp env ("test-app-" +:+ Z_string (date_now env)))
                (fun _ =>
          ebind (getDatabase env) (fun _ =>
          elift (awaitConnected (notices env)))))
         (fun error =>
            ebind (log "Firebase connection test failed:") (fun _ =>
            ethrow (Error (if String.eqb (error_message error) ""
                           then default_message
                           else error_message error)))))
      (fun s =>
         match testApp s with
         | Some app =>
             ecatch (deleteApp env app)
                    (fun _ => log "Error cleaning up test app:") s
         | None => (s, Ok tt)
         end)
      (mkState (apps s0) None (lines s0)).

End Probe.

(** ** The application shell

    The state of the top-level component and its handlers.  A handler
    runs against the state of the latest render; the subscription
    callback is the one registered by that render. *)

Module App.

Record State : Type := mkState {
  rooms : list JsVal;
  currentRoom : JsVal;
  currentUser : JsVal;
  showCreateModal : bool;
  joinModalRoom : JsVal;
  showAdminLogin : bool;
  showCloudSetup : bool;
  showDisconnectModal : bool;
  roomToDelete : JsVal;
  isAdminMode : bool;
  searchTerm : string
}.

(** The state of the first render. *)
Definition initial : State :=
  mkState [] JNull JNull false JNull false false false JNull false "".

Definition with_rooms (l : list JsVal) (s : State) : State :=
  mkState l (currentRoom s) (currentUser s) (showCreateModal s)
          (joinModalRoom s) (showAdminLogin s) (showCloudSetup s)
          (showDisconnectModal s) (roomToDelete s) (isAdminMode s)
          (searchTerm s).

Definition with_currentRoom (r : JsVal) (s : State) : State :=
  mkState (rooms s) r (currentUser s) (showCreateModal s)
          (joinModalRoom s) (showAdminLogin s) (showCloudSetup s)
          (showDisconnectModal s) (roomToDelete s) (isAdminMode s)
          (searchTerm s).

Definition with_currentUser (u : JsVal) (s : State) : State :=
  mkState (rooms s) (currentRoom s) u (showCreateModal s)
          (joinModalRoom s) (showAdminLogin s) (showCloudSetup s)
          (showDisconnectModal s) (roomToDelete s) (isAdminMode s)
          (searchTerm s).

Definition with_showCreateModal (b : bool) (s : State) : State :=
  mkState (rooms s) (currentRoom s) (currentUser s) b
          (joinModalRoom s) (showAdminLogin s) (showCloudSetup s)
          (showDisconnectModal s) (roomToDelete s) (isAdminMode s)
          (searchTerm s).

Definition with_joinModalRoom (r : JsVal) (s : State) : State :=
  mkState (rooms s) (currentRoom s) (currentUser s) (showCreateModal s)
          r (showAdminLogin s) (showCloudSetup s)
          (showDisconnectModal s) (roomToDelete s) (isAdminMode s)
          (searchTerm s).

Definition with_showDisconnectModal (b : bool) (s : State) : State :=
  mkState (rooms s) (currentRoom s) (currentUser s) (showCreateModal s)
          (joinModalRoom s) (showAdminLogin s) (showCloudSetup s)
          b (roomToDelete s) (isAdminMode s) (searchTerm s).

Definition with_roomToDelete (r : JsVal) (s : State) : State :=
  mkState (rooms s) (currentRoom s) (currentUser s) (showCreateModal s)
          (joinModalRoom s) (showAdminLogin s) (showCloudSetup s)
          (showDisconnectModal s) r (isAdminMode s) (searchTerm s).

Definition with_isAdminMode (b : bool) (s : State) : State :=
  mkState (rooms s) (currentRoom s) (currentUser s) (showCreateModal s)
          (joinModalRoom s) (showAdminLogin s) (showCloudSetup s)
          (showDisconnectModal s) (roomToDelete s) b (searchTerm s).

Definition with_showAdminLogin (b : bool) (s : State) : State :=
  mkState (rooms s) (currentRoom s) (currentUser s) (showCreateModal s)
          (joinModalRoom s) b (showCloudSetup s)
          (showDisconnectModal s) (roomToDelete s) (isAdminMode s)
          (searchTerm s).

Definition with_showCloudSetup (b : bool) (s : State) : State :=
  mkState (rooms s) (currentRoom s) (currentUser s) (showCreateModal s)
          (joinModalRoom s) (showAdminLogin s) b
          (showDisconnectModal s) (roomToDelete s) (isAdminMode s)
          (searchTerm s).

Definition with_searchTerm (term : string) (s : State) : State :=
  mkState (rooms s) (currentRoom s) (currentUser s) (showCreateModal s)
          (joinModalRoom s) (showAdminLogin s) (showCloudSetup s)
          (showDisconnectModal s) (roomToDelete s) (isAdminMode s) term.

(** *** Sorting the delivered rooms *)

(** [r.createdAt] when it is a number. *)
Definition createdAt (r : JsVal) : option Z :=
  match get_prop r "createdAt" with
  | Ok (JNum n) => Some n
  | _ => None
  end.

Definition has_createdAt (r : JsVal) : bool :=
  match createdAt r with Some _ => true | None => false end.

Definition stamp (r : JsVal) : Z :=
  match createdAt r with Some n => n | None => 0 end.

(** Where [x] goes among rooms that are already newest first: after
    the rooms that are newer than [x], before those that are as old or
    older. *)
Fixpoint insert_newest (x : JsVal) (l : list JsVal) : list JsVal :=
  match l with
  | [] => [x]
  | y :: l' =>
      if stamp x <? stamp y then y :: insert_newest x l' else x :: l
  end.

Definition is_undefined (v : JsVal) : bool :=
  match v with JUndefined => true | _ => false end.
Definition is_null (v : JsVal) : bool :=
  match v with JNull => true | _ => false end.

(** [l.sort((a, b) => b.createdAt - a.createdAt)].  A list of fewer
    than two elements is returned without a comparison.  Otherwise the
    comparator reads [createdAt] of every element, which throws on
    null; when every element has a number there, the comparator is a
    consistent order and the result is the one stable sort, newest
    first.  [None] stands for the cases this model does not settle: an
    undefined element, or a [createdAt] that is not a number, for which
    the comparator yields NaN and the order is left to the engine. *)
Definition sort_newest_first (l : list JsVal) : option (Res (list JsVal)) :=
  match l with
  | [] | [_] => Some (Ok l)
  | _ =>
      if existsb is_undefined l then None
      else if existsb is_null l
      then Some (Throw (TypeError "Cannot read properties of null"))
      else if forallb has_createdAt l
      then Some (Ok (fold_right insert_newest [] l))
      else None
  end.

(** [r.id === currentRoom.id], the callback of [find] in the
    subscription callback. *)
Definition same_room (current r : JsVal) : Res bool :=
  match get_prop r "id" with
  | Ok rid =>
      match get_prop current "id" with
      | Ok id => Ok (strict_eq rid id)
      | Throw e => Throw e
      end
  | Throw e => Throw e
  end.

(** The subscription callback: the delivered rooms are sorted and
    shown, and the room the user is in, if any, is replaced by the
    delivered room with its identifier, when there is one. *)
Definition onRoomsDelivered (updatedRooms : JsVal) (s : State)
  : option (Res State) :=
  match receiver "sort" updatedRooms with
  | Throw e => Some (Throw e)
  | Ok l =>
      match sort_newest_first l with
      | None => None
      | Some (Throw e) => Some (Throw e)
      | Some (Ok sorted) =>
          let s1 := with_rooms sorted s in
          if truthy (currentRoom s) then
            match find_first (same_room (currentRoom s)) sorted with
            | Throw e => Some (Throw e)
            | Ok updatedCurrent =>
                if truthy updatedCurrent
                then Some (Ok (with_currentRoom updatedCurrent s1))
                else Some (Ok s1)
            end
          else Some (Ok s1)
      end
  end.

Section Roles.
(** The members of the role enumeration, whose declaration is not part
    of these files. *)
Variables UserRole_ADMIN UserRole_PARTICIPANT : JsVal.

Definition session (username : string) (role : JsVal) : JsVal :=
  JObj [("username", JStr username); ("role", role)].

(** The state after [handleCreateRoom]: on success the modal closes and
    the creator enters the new room as the administrator; on failure
    the state is left as it was. *)
Definition onCreateRoom (env : Entropy) (title : string)
    (password : option string) (s : State) : M State :=
  let* entered := handleCreateRoom UserRole_ADMIN env title password in
  match entered with
  | Some newRoom =>
      ret (with_currentRoom newRoom
             (with_currentUser (session "AI Bot" UserRole_ADMIN)
                (with_showCreateModal false s)))
  | None => ret s
  end.

Definition handleDeleteClick (roomId : JsVal) (s : State) : State :=
  with_roomToDelete roomId s.

(** The state after [handleConfirmDelete]; [deleteRoom] turns the
    identifier into text. *)
Definition onConfirmDelete (s : State) : M State :=
  if truthy (roomToDelete s) then
    handleConfirmDelete (Some (to_String (roomToDelete s)));;
    ret (with_roomToDelete JNull s)
  else ret s.

Definition handleJoinRoom (room : JsVal) (s : State) : State :=
  if isAdminMode s
  then with_currentRoom room
         (with_currentUser (session "AI Bot" UserRole_ADMIN) s)
  else with_joinModalRoom room s.

(** [confirmJoin]: the password it is handed is not looked at. *)
Definition confirmJoin (nickname : string) (password : option string)
    (s : State) : State :=
  if truthy (joinModalRoom s)
  then with_joinModalRoom JNull
         (with_currentRoom (joinModalRoom s)
            (with_currentUser (session nickname UserRole_PARTICIPANT) s))
  else s.

Definition handleExitRoom (s : State) : State :=
  with_currentUser JNull (with_currentRoom JNull s).

Definition handleDisconnectCloud (s : State) : State :=
  with_showDisconnectModal true s.

(** [confirmDisconnect], with the navigation it ends in. *)
Definition confirmDisconnect (s : State) : M (State * Navigation) :=
  let* nav := clearFirebaseConfig in
  ret (with_showDisconnectModal false s, nav).

(** Whether the chat view is rendered instead of the lobby. *)
Definition in_chat (s : State) : bool :=
  truthy (currentRoom s) && truthy (currentUser s).
End Roles.

(** *** The lobby *)

(** [s.includes(p)]. *)
Fixpoint includes_chars (cs p : list ascii) : bool :=
  match strip_prefix p cs with
  | Some _ => true
  | None =>
      match cs with
      | [] => false
      | _ :: rest => includes_chars rest p
      end
  end.

Definition includes (s p : string) : bool := includes_chars (chars s) (chars p).

Section Lobby.
(** [String.prototype.toLowerCase], the platform's case mapping. *)
Variable toLowerCase : string -> string.

(** [room.title.toLowerCase().includes(searchTerm.toLowerCase())]. *)
Definition title_matches (searchTerm : string) (room : JsVal) : Res bool :=
  match get_prop room "title" with
  | Ok (JStr title) =>
      Ok (includes (toLowerCase title) (toLowerCase searchTerm))
  | Ok JUndefined | Ok JNull =>
      Throw (TypeError "Cannot read properties of undefined")
  | Ok _ => not_a_function "room.title.toLowerCase"
  | Throw e => Throw e
  end.

(** [filteredRooms], computed at every render of the lobby. *)
Definition filteredRooms (s : State) : Res (list JsVal) :=
  filter_res (title_matches (searchTerm s)) (rooms s).
End Lobby.

(** *** Exporting a room *)

Definition bytes (l : list N) : list ascii := map ascii_of_N l.

(** The characters that [\s] matches, as UTF-8 byte sequences: tab,
    line feed, vertical tab, form feed, carriage return, space,
    U+00A0, U+1680, U+2000 to U+200A, U+2028, U+2029, U+202F, U+205F,
    U+3000 and U+FEFF. *)
Definition space_patterns : list (list ascii) :=
  map bytes
    [[9]; [10]; [11]; [12]; [13]; [32]; [194; 160]; [225; 154; 128];
     [226; 128; 128]; [226; 128; 129]; [226; 128; 130]; [226; 128; 131];
     [226; 128; 132]; [226; 128; 133]; [226; 128; 134]; [226; 128; 135];
     [226; 128; 136]; [226; 128; 137]; [226; 128; 138];
     [226; 128; 168]; [226; 128; 169]; [226; 128; 175];
     [226; 129; 159]; [227; 128; 128]; [239; 187; 191]]%N.

(** The text after the first of the given patterns that it starts
    with. *)
Fixpoint first_match (patterns : list (list ascii)) (cs : list ascii)
  : option (list ascii) :=
  match patterns with
  | [] => None
  | p :: rest =>
      match strip_prefix p cs with
      | Some r => Some r
      | None => first_match rest cs
      end
  end.

(** The text after one white-space character, when it starts with
    one. *)
Definition strip_space (cs : list ascii) : option (list ascii) :=
  first_match space_patterns cs.

(** [s.replace(/\s+/g, '_')]: every maximal run of white space becomes
    one underscore.  [skip] counts the bytes still to pass of the
    white-space character being read, and [in_run] tells whether the
    underscore of the current run was written. *)
Fixpoint underscore_runs (cs : list ascii) (skip : nat) (in_run : bool)
  : list ascii :=
  match cs with
  | [] => []
  | c :: r =>
      match skip with
      | S k => underscore_runs r k in_run
      | O =>
          match strip_space cs with
          | Some rest =>
              (if in_run then [] else ["_"%char])
                ++ underscore_runs r (List.length r - List.length rest) true
          | None => c :: underscore_runs r 0 false
          end
      end
  end.

Definition underscored (s : string) : string :=
  string_of_list_ascii (underscore_runs (chars s) 0 false).

(** The characters [encodeURIComponent] leaves as they are. *)
Definition unreserved (c : ascii) : bool :=
  let n := N_of_ascii c in
  ((65 <=? n) && (n <=? 90) || (97 <=? n) && (n <=? 122)
   || (48 <=? n) && (n <=? 57))%N
  || existsb (Ascii.eqb c) (chars "-_.!~*'()").

Definition HEX (n : N) : ascii :=
  nth (N.to_nat n) (chars "0123456789ABCDEF") "0"%char.

Definition percent (c : ascii) : list ascii :=
  if unreserved c then [c]
  else ["%"%char; HEX (N_of_ascii c / 16); HEX (N_of_ascii c mod 16)].

(** [encodeURIComponent(s)] for a well-formed text: every byte of its
    UTF-8 form other than the unreserved characters is escaped. *)
Definition encodeURIComponent (s : string) : string :=
  string_of_list_ascii (flat_map percent (chars s)).

(** [handleExportRoom]: the address and the file name of the download
    link that is clicked. *)
Definition handleExportRoom (room : JsVal) : Res (string * string) :=
  let dataStr :=
    "data:text/json;charset=utf-8,"
      +:+ encodeURIComponent (match JSON_stringify room with
                              | Some text => text
                              | None => "undefined"
                              end) in
  match get_prop room "title" with
  | Ok (JStr title) => Ok (dataStr, underscored title +:+ "_data.json")
  | Ok JUndefined | Ok JNull =>
      Throw (TypeError "Cannot read properties of undefined")
  | Ok _ => not_a_function "room.title.replace"
  | Throw e => Throw e
  end.

End App.
(** ** The JSON grammar

    [JSON_parse] builds the values of the model.  Whether a text is JSON
    at all is decided here on the whole grammar, without building a
    value: a number may carry a fraction and an exponent, and an escape
    may denote any code unit.  A text for which [is_JSON] answers false
    makes [JSON.parse] throw a SyntaxError; a text that is JSON but that
    [JSON_parse] does not read lies outside the model. *)

Definition is_digit (c : ascii) : bool :=
  let n := N_of_ascii c in (48 <=? n)%N && (n <=? 57)%N.

Fixpoint skip_digits (cs : list ascii) : list ascii :=
  match cs with
  | [] => []
  | c :: r => if is_digit c then skip_digits r else cs
  end.

(** One digit or more. *)
Definition scan_digits (cs : list ascii) : option (list ascii) :=
  match cs with
  | c :: r => if is_digit c then Some (skip_digits r) else None
  | [] => None
  end.

(** The integer part: a single 0, or a digit from 1 to 9 and the digits
    that follow it. *)
Definition scan_int (cs : list ascii) : option (list ascii) :=
  match cs with
  | c :: r =>
      if Ascii.eqb c "0" then Some r
      else if is_digit c then Some (skip_digits r)
      else None
  | [] => None
  end.

(** The optional fraction: a point and one digit or more. *)
Definition scan_frac (cs : list ascii) : option (list ascii) :=
  match cs with
  | c :: r => if Ascii.eqb c "." then scan_digits r else Some cs
  | [] => Some []
  end.

(** The optional exponent: e or E, an optional sign, one digit or more. *)
Definition scan_exp (cs : list ascii) : option (list ascii) :=
  match cs with
  | c :: r =>
      if Ascii.eqb c "e" || Ascii.eqb c "E" then
        match r with
        | s :: r' =>
            if Ascii.eqb s "+" || Ascii.eqb s "-" then scan_digits r'
            else scan_digits r
        | [] => None
        end
      else Some cs
  | [] => Some []
  end.

(** A number literal after its optional minus sign. *)
Definition scan_unsigned (cs : list ascii) : option (list ascii) :=
  match scan_int cs with
  | Some r1 =>
      match scan_frac r1 with
      | Some r2 => scan_exp r2
      | None => None
      end
  | None => None
  end.

(** The rest of a string literal after its opening quote: any character
    from U+0020 on other than the quote and the backslash, or an escape. *)
Fixpoint scan_string (cs : list ascii) : option (list ascii) :=
  match cs with
  | [] => None
  | c :: r =>
      if Ascii.eqb c dq then Some r
      else if Ascii.eqb c bsl then
        match r with
        | [] => None
        | e :: r1 =>
            if Ascii.eqb e "u" then
              match r1 with
              | h1 :: h2 :: h3 :: h4 :: r2 =>
                  match hex4 h1 h2 h3 h4 with
                  | Some _ => scan_string r2
                  | None => None
                  end
              | _ => None
              end
            else match unescape e with
                 | Some _ => scan_string r1
                 | None => None
                 end
        end
      else if (N_of_ascii c <? 32)%N then None
      else scan_string r
  end.

(** One value, the elements of an array after its opening bracket, the
    members of an object after its opening brace; each answers the text
    that follows. *)
Fixpoint scan_value (fuel : nat) (cs : list ascii) {struct fuel}
  : option (list ascii) :=
  match fuel with
  | O => None
  | S fuel' =>
      match skip_ws cs with
      | [] => None
      | c :: r =>
          if Ascii.eqb c "n" then strip_prefix (chars "ull") r
          else if Ascii.eqb c "t" then strip_prefix (chars "rue") r
          else if Ascii.eqb c "f" then strip_prefix (chars "alse") r
          else if Ascii.eqb c dq then scan_string r
          else if Ascii.eqb c "[" then
            match skip_ws r with
            | c' :: r' =>
                if Ascii.eqb c' "]" then Some r' else scan_elems fuel' r
            | [] => None
            end
          else if Ascii.eqb c "{" then
            match skip_ws r with
            | c' :: r' =>
                if Ascii.eqb c' "}" then Some r' else scan_members fuel' r
            | [] => None
            end
          else if Ascii.eqb c "-" then scan_unsigned r
          else scan_unsigned (c :: r)
      end
  end
with scan_elems (fuel : nat) (cs : list ascii) {struct fuel}
  : option (list ascii) :=
  match fuel with
  | O => None
  | S fuel' =>
      match scan_value fuel' cs with
      | Some r =>
          match skip_ws r with
          | c :: r' =>
              if Ascii.eqb c "," then scan_elems fuel' r'
              else if Ascii.eqb c "]" then Some r'
              else None
          | [] => None
          end
      | None => None
      end
  end
with scan_members (fuel : nat) (cs : list ascii) {struct fuel}
  : option (list ascii) :=
  match fuel with
  | O => None
  | S fuel' =>
      match skip_ws cs with
      | q :: r =>
          if Ascii.eqb q dq then
            match scan_string r with
            | Some r1 =>
                match skip_ws r1 with
                | c :: r2 =>
                    if Ascii.eqb c ":" then
                      match scan_value fuel' r2 with
                      | Some r3 =>
                          match skip_ws r3 with
                          | c' :: r4 =>
                              if Ascii.eqb c' "," then scan_members fuel' r4
                              else if Ascii.eqb c' "}" then Some r4
                              else None
                          | [] => None
                          end
                      | None => None
                      end
                    else None
                | [] => None
                end
            | None => None
            end
          else None
      | [] => None
      end
  end.

(** The text is one JSON value, with white space around it at most. *)
Definition is_JSON (s : string) : bool :=
  let cs := chars s in
  match scan_value (S (List.length cs)) cs with
  | Some r => match skip_ws r with [] => true | _ => false end
  | None => false
  end.

(** The integers that a JavaScript number holds exactly and prints in
    full: those up to 2^53 in magnitude. *)
Definition safe_integer (n : Z) : bool := Z.abs n <=? 9007199254740992.

(** Every number in the value is such an integer, so the value of the
    model is the value the program holds. *)
Fixpoint exact (v : JsVal) : bool :=
  match v with
  | JNum n => safe_integer n
  | JArr l => forallb exact l
  | JObj o => forallb (fun kx => exact (snd kx)) o
  | _ => true
  end.

(** ** What a client proposes in a transaction

    The database client runs the update function of a transaction
    against its own copy of the child, and sends the outcome to the
    server.  [replica key view] is that copy as a backend of its own, the
    child [key] holding [view] (no child when the view is null), and
    [proposed op key view] is what the call [op] makes of it there: the
    value of the child afterwards, or the error that the call left
    unhandled. *)
Definition replica (key : string) (view : JsVal) : World :=
  mkWorld ∅ true
          (match view with JNull => ∅ | _ => {[key := view]} end)
          None [] [] [] [].

Definition proposed (op : M unit) (key : string) (view : JsVal) : Res JsVal :=
  let w' := run op (replica key view) in
  match unhandled w' with
  | e :: _ => Throw e
  | [] => Ok (child_value key w')
  end.

(** ** Notions used in the statements about JSON text *)

(** A following text does not extend a value when it is empty or starts
    with a separator. *)
Definition delim (rest : list ascii) : Prop :=
  match rest with
  | [] => True
  | c :: _ => c = ","%char \/ c = "]"%char \/ c = "}"%char
  end.

(** An array element after the round trip. *)
Definition eclean (v : JsVal) : JsVal :=
  match v with JUndefined => JNull | _ => jclean v end.

Definition value_start (cs : list ascii) : Prop :=
  match cs with
  | [] => False
  | c :: _ =>
      is_ws c = false /\ Ascii.eqb c "]" = false /\ Ascii.eqb c "}" = false
  end.

Definition reads_back (x : JsVal) : Prop :=
  forall fuel rest,
    delim rest -> (List.length (json_text x) <= fuel)%nat ->
    parse_value fuel (json_text x ++ rest) = Some (eclean x, rest).

(** One step of rebuilding an object from its written members. *)
Definition mstep (acc : Props) (kx : string * JsVal) : Props :=
  match snd kx with
  | JUndefined => acc
  | _ => obj_set (fst kx) (jclean (snd kx)) acc
  end.

(** [key_before a b]: key [a] may come before key [b] in an object. *)
Definition key_before (a b : string) : Prop :=
  match array_index a, array_index b with
  | Some i, Some j => (i <= j)%N
  | None, Some _ => False
  | _, None => True
  end.

Definition keys (o : Props) : list string := map fst o.

Definition keys_ordered (o : Props) : Prop :=
  List.NoDup (keys o) /\ StronglySorted key_before (keys o).

(** Values as [JSON.parse] builds them: no undefined, and every object in
    own-property order without repeated keys. *)
Unset Elimination Schemes.
Inductive plain : JsVal -> Prop :=
| plain_null : plain JNull
| plain_bool b : plain (JBool b)
| plain_num n : plain (JNum n)
| plain_str s : plain (JStr s)
| plain_arr l : Forall plain l -> plain (JArr l)
| plain_obj o :
    keys_ordered o -> Forall (fun kx => plain (snd kx)) o -> plain (JObj o).
Set Elimination Schemes.

(** ** Notions used in the statements about the service *)

(** The room [roomId] is not in the store of the active backend, and
    the store can be consulted: the remote backend takes requests; the
    local text reads, without a parse failure, as a list none of whose
    entries has the identifier by the test of [addMessage], [addMemo] and
    [deleteMemo], which a null entry cannot undergo. *)
Definition absent_from_store (roomId : string) (w : World) : Prop :=
  if isCloudEnabled w
  then remote_rooms w !! roomId = None /\ remote_fault w = None
  else exists l, getLocalRooms w = (w, Ok (JArr l))
                 /\ Forall (fun r => has_id roomId r = Ok false) l.

(** The call did nothing at all: it returned normally and left both
    stores, the console, the window events, the alerts and the unhandled
    rejections as they were. *)
Definition silent_no_op (op : M unit) (w : World) : Prop :=
  op w = (w, Ok tt).

(** The call threw a TypeError to its caller and changed nothing. *)
Definition throws_TypeError (op : M unit) (w : World) : Prop :=
  exists msg, op w = (w, Throw (TypeError msg)).

(** The local store reads as something the search for [roomId] cannot
    get through: a value that is not a list, or a list with a null entry
    before any entry that has the identifier. *)
Definition unsearchable (roomId : string) (w : World) : Prop :=
  exists v,
    getLocalRooms w = (w, Ok v)
    /\ (Array_isArray v = false
        \/ exists l1 l2,
             v = JArr (l1 ++ JNull :: l2)%list
             /\ Forall (fun r => has_id roomId r = Ok false) l1).

Definition world_with_text (text : string) : World :=
  mkWorld {[ROOMS_KEY := text]} false ∅ None [] [] [] [].

(** A local store holding one room, [r1]. *)
Definition one_room_world : World :=
  world_with_text (stringify_array [JObj [("id", JStr "r1")]]).

Definition sample_message : JsVal :=
  JObj [("id", JStr "m1"); ("senderName", JStr "Ann"); ("text", JStr "hi")].

(** The local store reads as a list all of whose records have an
    identifier other than [roomId], by the test of [deleteRoom]. *)
Definition every_other_id (roomId : string) (w : World) : Prop :=
  exists l, result getLocalRooms w = Ok (JArr l)
            /\ Forall (fun r => other_id roomId r = Ok true) l.

(** The room [roomId] does not exist in the active backend, and the
    backend takes requests. *)
Definition not_in_backend (roomId : string) (w : World) : Prop :=
  if isCloudEnabled w
  then remote_rooms w !! roomId = None /\ remote_fault w = None
  else every_other_id roomId w.

(** The room collection of the active backend, as a reader gets it. *)
Definition rooms_view (w : World) : Res JsVal :=
  if isCloudEnabled w then Ok (rooms_snapshot w) else result getLocalRooms w.

Definition local_write (l : list JsVal) (w : World) : World :=
  with_events ("storage-local" :: "storage" :: events w)
    (with_localStorage (<[ROOMS_KEY := stringify_array l]> (localStorage w)) w).

(** The active backend takes a write: the remote one is not refusing
    requests; the local one reads as a list without null entries. *)
Definition store_accepts (w : World) : Prop :=
  if isCloudEnabled w then remote_fault w = None
  else exists l, result getLocalRooms w = Ok (JArr l)
                 /\ Forall (fun r => r <> JNull) l.

(** The record [r] is in the store of the active backend, under the child
    key [key] when that is the remote one. *)
Definition stored_under (key : string) (r : JsVal) (w : World) : Prop :=
  if isCloudEnabled w then remote_rooms w !! key = Some r
  else exists l, result getLocalRooms w = Ok (JArr l) /\ List.In r l.

Definition empty_local : World := mkWorld ∅ false ∅ None [] [] [] [].
Definition empty_cloud : World := mkWorld ∅ true ∅ None [] [] [] [].
Definition failing_cloud : World :=
  mkWorld ∅ true ∅ (Some "PERMISSION_DENIED") [] [] [] [].

(** A platform without [crypto.randomUUID]. *)
Definition sample_entropy : Entropy :=
  mkEntropy 2025 0 15 None 1736900000000 "0.4fzyo82mvyr" "0.8k2j1x"
            1736900000000 1736900000000.

Definition later_entropy : Entropy :=
  mkEntropy 2025 0 15 None 1736900000001 "0.4fzyo82mvyr" "0.8k2j1x"
            1736900000001 1736900000001.

(** A delivered record whose [messages] and [memos] are both arrays. *)
Definition sequences (r : JsVal) : Prop :=
  exists o ms mm,
    r = JObj o /\ obj_get "messages" o = JArr ms /\ obj_get "memos" o = JArr mm.

(** A room file whose messages are a key-indexed mapping. *)
Definition mapped_room : JsVal :=
  JObj [("id", JStr "r1"); ("title", JStr "Imported");
        ("messages", JObj [("m1", sample_message)]);
        ("memos", JArr [])].

(** A failed remote request reaches the caller of [op] as the backend's
    error. *)
Definition propagates_failure {A} (op : M A) : Prop :=
  forall w msg,
    isCloudEnabled w = true -> remote_fault w = Some msg ->
    result op w = Throw (Error msg).

(** The caller of [op] gets a normal return although the remote request
    failed; the rejection stays unhandled and the remote rooms are as
    before. *)
Definition swallows_failure (op : M unit) : Prop :=
  forall w msg,
    isCloudEnabled w = true -> remote_fault w = Some msg ->
    result op w = Ok tt
    /\ unhandled (run op w) = Error msg :: unhandled w
    /\ remote_rooms (run op w) = remote_rooms w.

Definition create_failed_alert : string :=
  "방 생성에 실패했습니다. 클라우드 연결 상태를 확인해주세요.".

Definition import_ok_alert : string := "방을 성공적으로 불러왔습니다!".
Definition import_invalid_alert : string := "유효하지 않은 방 데이터 파일입니다.".

Definition sample_room : JsVal :=
  JObj [("id", JStr "r1"); ("title", JStr "Imported");
        ("messages", JArr [sample_message]); ("memos", JArr [])].

(** The file that exporting [sample_room] downloads. *)
Definition sample_file : string := string_of_list_ascii (json_text sample_room).

(** A room created with an empty title, as [createRoom] allows. *)
Definition untitled_room : JsVal :=
  newRoom (JStr "ADMIN") sample_entropy "" None.

Definition sample_config : JsVal :=
  JObj [("apiKey", JStr "AIzaSy-example"); ("projectId", JStr "demo-chat")].

Definition declining_user : SetupEnv := mkSetupEnv (Some sample_config) false None.

(** The room after [append_to field item] has run on the object [o]. *)
Definition appended (field : string) (item : JsVal) (o : Props) : Props :=
  obj_set field (JArr (field_items field o ++ [item]))
    (if truthy (obj_get field o) then o else obj_set field (JArr []) o).

(** What a client may hold for a room before its transaction starts:
    nothing, or some earlier version of the record. *)
Definition view_ok (v : JsVal) : Prop := v = JNull \/ exists o, v = JObj o.

(** Two clients about to append [m1] and [m2] to the room [r0], holding
    the views [v1] and [v2]. *)
Definition two_appenders (r0 : Props) (v1 v2 : JsVal) : Txn.State :=
  Txn.mkState (JObj r0) (Txn.Trying v1) (Txn.Trying v2).

Definition phase_ok (update : JsVal -> Res JsVal) (p : Txn.Phase) : Prop :=
  match p with
  | Txn.Trying v => view_ok v
  | Txn.Sent v n => view_ok v /\ update v = Ok n
  | Txn.Committed => True
  | Txn.Aborted | Txn.Failed _ => False
  end.

(** The server holds the room with exactly the appends of the clients
    that have committed. *)
Definition server_ok (m1 m2 : JsVal) (r0 : Props) (s : Txn.State) : Prop :=
  match Txn.first s, Txn.second s with
  | Txn.Committed, Txn.Committed =>
      Txn.server s = JObj (appended "messages" m2 (appended "messages" m1 r0))
      \/ Txn.server s = JObj (appended "messages" m1 (appended "messages" m2 r0))
  | Txn.Committed, _ => Txn.server s = JObj (appended "messages" m1 r0)
  | _, Txn.Committed => Txn.server s = JObj (appended "messages" m2 r0)
  | _, _ => Txn.server s = JObj r0
  end.

Definition appenders_inv (m1 m2 : JsVal) (r0 : Props) (s : Txn.State) : Prop :=
  phase_ok (append_to "messages" m1) (Txn.first s)
  /\ phase_ok (append_to "messages" m2) (Txn.second s)
  /\ server_ok m1 m2 r0 s.

Definition other_message : JsVal :=
  JObj [("id", JStr "m2"); ("senderName", JStr "Bob"); ("text", JStr "yo")].

(** ** Notions and sample inputs for the further properties *)

(** A configuration with an API key, a project identifier and a database
    URL. *)
Definition complete_config : Props :=
  [("apiKey", JStr "AIzaSy-example"); ("projectId", JStr "demo-chat");
   ("databaseURL", JStr "https://demo-chat-default-rtdb.firebaseio.com")].

(** One member of an object after the round trip through JSON text. *)
Definition member_clean (kx : string * JsVal) : string * JsVal :=
  (fst kx, jclean (snd kx)).

(** The text of a record's identifier, as [deleteRoom] compares it. *)
Definition id_text (r : JsVal) : string :=
  match get_prop r "id" with
  | Ok rid => to_String rid
  | Throw _ => ""
  end.

(** Three stored rooms: one with a string identifier, one whose
    identifier is the number 7 and one whose identifier is the text 7. *)
Definition numbered_rooms : list JsVal :=
  [JObj [("id", JStr "r1")]; JObj [("id", JNum 7)]; JObj [("id", JStr "7")]].

Definition sample_room_props : Props :=
  [("id", JStr "r1"); ("title", JStr "Imported");
   ("messages", JArr [sample_message]); ("memos", JArr [])].

(** A local store holding [sample_room]. *)
Definition sample_room_world : World :=
  world_with_text (stringify_array [JObj sample_room_props]).

(** Whether a memo survives [deleteMemo]: its identifier is not the
    given string. *)
Definition memo_kept (memoId : string) (m : JsVal) : bool :=
  negb (strict_eq (match get_prop m "id" with
                   | Ok mid => mid
                   | Throw _ => JUndefined
                   end) (JStr memoId)).

Definition sample_memo : JsVal :=
  JObj [("id", JStr "memo1"); ("content", JStr "buy milk")].

Definition other_memo_value : JsVal :=
  JObj [("id", JStr "memo2"); ("content", JStr "call Bob")].

Definition memo_room_props : Props :=
  [("id", JStr "r1"); ("title", JStr "Imported"); ("messages", JArr []);
   ("memos", JArr [sample_memo; other_memo_value])].

(** A local store holding one room with two memos. *)
Definition memo_room_world : World :=
  world_with_text (stringify_array [JObj memo_room_props]).

(** The room [o] is the one the mutators find under [roomId] in the
    active backend: the child of that key on a remote backend that takes
    requests; the first stored room with that identifier in the local
    store. *)
Definition room_found (roomId : string) (o : Props) (w : World) : Prop :=
  if isCloudEnabled w
  then remote_fault w = None /\ remote_rooms w !! roomId = Some (JObj o)
  else exists l1 l2,
         result getLocalRooms w = Ok (JArr (l1 ++ JObj o :: l2)%list)
         /\ Forall (fun r => has_id roomId r = Ok false) l1
         /\ obj_get "id" o = JStr roomId.

(** A computation started in the given mode stays in that mode and
    leaves the other backend alone: in local mode the remote rooms are
    as they were; in cloud mode local storage is as it was and no window
    event is dispatched. *)
Definition framed {A} (mode : bool) (m : M A) : Prop :=
  forall w,
    isCloudEnabled w = mode ->
    isCloudEnabled (run m w) = mode
    /\ if mode
       then localStorage (run m w) = localStorage w
            /\ events (run m w) = events w
       else remote_rooms (run m w) = remote_rooms w.

(** Every child of the remote [rooms] node is a value other than null
    and undefined, as the backend keeps it: a written null removes the
    child. *)
Definition remote_children_defined (w : World) : Prop :=
  forall key v, remote_rooms w !! key = Some v -> v <> JNull /\ v <> JUndefined.

(** Whether undefined occurs in a value, at any depth. *)
Fixpoint has_undefined (v : JsVal) : bool :=
  match v with
  | JUndefined => true
  | JArr l => existsb has_undefined l
  | JObj o => existsb (fun kx => has_undefined (snd kx)) o
  | _ => false
  end.

(** A room with a member and an array element that are undefined. *)
Definition sparse_room : Props :=
  [("id", JStr "r1"); ("title", JStr "Imported"); ("password", JUndefined);
   ("messages", JArr [JUndefined; sample_message]); ("memos", JArr [])].

Definition import_error_alert : string := "파일을 읽는 중 오류가 발생했습니다.".

(** The guard of [importRoom]: the value, its identifier and its title
    are all truthy. *)
Definition import_guard (v : JsVal) : bool :=
  truthy v
  && match get_prop v "id" with Ok id => truthy id | Throw _ => false end
  && match get_prop v "title" with
     | Ok title => truthy title
     | Throw _ => false
     end.

Definition unreadable_config_error : string :=
  "설정 형식을 인식할 수 없습니다. (Javascript Object 또는 JSON 형식이 아닙니다)".
Definition not_an_object_error : string := "유효한 설정 객체가 아닙니다.".
Definition missing_fields_error (names : list string) : string :=
  "필수 값이 누락되었습니다: " +:+ join_strings ", " names.
Definition probe_failed_error (msg : string) : string := "연결 실패: " +:+ msg.

(** The dialog left open with an error, nothing asked. *)
Definition refused (message : string) (tried : list JsVal) : Dialog :=
  mkDialog message false [] tried false.

(** *** Events of the application shell *)

Section Events.
Variable toLowerCase : string -> string.
Variables UserRole_ADMIN UserRole_PARTICIPANT : JsVal.

(** One event: a delivery of the subscription, a handler, or one of
    the state setters that the modals and buttons call directly.  A
    room card can be clicked when the lobby is rendered and the room
    is among the rooms it shows. *)
Inductive app_step : App.State -> App.State -> Prop :=
| step_delivered updatedRooms s s' :
    App.onRoomsDelivered updatedRooms s = Some (Ok s') -> app_step s s'
| step_create env title password w s s' :
    result (App.onCreateRoom UserRole_ADMIN env title password s) w = Ok s' ->
    app_step s s'
| step_delete_click roomId s : app_step s (App.handleDeleteClick roomId s)
| step_confirm_delete w s s' :
    result (App.onConfirmDelete s) w = Ok s' -> app_step s s'
| step_cancel_delete s : app_step s (App.with_roomToDelete JNull s)
| step_join room shown s :
    App.in_chat s = false ->
    App.filteredRooms toLowerCase s = Ok shown -> List.In room shown ->
    app_step s (App.handleJoinRoom UserRole_ADMIN room s)
| step_confirm_join nickname password s :
    app_step s (App.confirmJoin UserRole_PARTICIPANT nickname password s)
| step_cancel_join s : app_step s (App.with_joinModalRoom JNull s)
| step_exit s : app_step s (App.handleExitRoom s)
| step_disconnect_click s : app_step s (App.handleDisconnectCloud s)
| step_confirm_disconnect w s s' nav :
    result (App.confirmDisconnect s) w = Ok (s', nav) -> app_step s s'
| step_admin_mode b s : app_step s (App.with_isAdminMode b s)
| step_create_modal b s : app_step s (App.with_showCreateModal b s)
| step_admin_login b s : app_step s (App.with_showAdminLogin b s)
| step_cloud_setup b s : app_step s (App.with_showCloudSetup b s)
| step_disconnect_modal b s : app_step s (App.with_showDisconnectModal b s)
| step_search term s : app_step s (App.with_searchTerm term s).

(** The states the shell can be in, from the first render on. *)
Inductive reachable : App.State -> Prop :=
| reach_initial : reachable App.initial
| reach_step s s' : reachable s -> app_step s s' -> reachable s'.
End Events.

(** A record with a string title, which is what the lobby can show. *)
Definition titled (r : JsVal) : Prop :=
  exists o title, r = JObj o /\ obj_get "title" o = JStr title.

(** Newest first. *)
Definition newest_first (l : list JsVal) : Prop :=
  StronglySorted (fun a b => App.stamp b <= App.stamp a) l.

(** The rooms of [l] created at the instant [n], in their order. *)
Definition created_at (n : Z) (l : list JsVal) : list JsVal :=
  List.filter (fun r => App.stamp r =? n) l.

Definition older_room : JsVal :=
  JObj [("id", JStr "r1"); ("title", JStr "First"); ("createdAt", JNum 1)].
Definition newer_room : JsVal :=
  JObj [("id", JStr "r2"); ("title", JStr "Second"); ("createdAt", JNum 2)].

(** A room file whose title is a number. *)
Definition numbered_title_room : Props :=
  [("id", JStr "r1"); ("title", JNum 5)].

(** No white-space character starts anywhere in the text. *)
Definition spaceless (cs : list ascii) : Prop :=
  forall pre suf, cs = (pre ++ suf)%list -> App.strip_space suf = None.

(** The characters of an escaped URI component. *)
Definition url_safe (c : ascii) : bool :=
  App.unreserved c || Ascii.eqb c "%".

Definition export_prefix : string := "data:text/json;charset=utf-8,".
(** ** Further states used in the statements *)

(** A remote backend that takes requests and holds one room, [r1]. *)
Definition one_room_cloud : World :=
  mkWorld ∅ true {["r1" := JObj [("id", JStr "r1")]]} None [] [] [] [].

(** A page whose local storage holds only a configuration text. *)
Definition world_with_config (text : string) : World :=
  mkWorld {[FIREBASE_CONFIG_KEY := text]} false ∅ None [] [] [] [].

(** The stored form of a complete configuration. *)
Definition complete_config_text : string :=
  string_of_list_ascii (json_text (JObj complete_config)).

(** A setup run in which the pasted text does not evaluate as an object
    literal. *)
Definition no_evaluation : SetupEnv := mkSetupEnv None false None.

(** ** Facts about numerals *)

Lemma uint_beq_refl d : Decimal.uint_beq d d = true.
Proof. induction d; simpl; auto. Qed.

Lemma uint_beq_eq d d' : Decimal.uint_beq d d' = true -> d = d'.
Proof.
  revert d'; induction d; destruct d'; simpl; intros H;
    try discriminate; try reflexivity; f_equal; auto.
Qed.

Lemma canonical_to_uint n : canonical (N.to_uint n) = true.
Proof.
  unfold canonical.
  rewrite <- DecimalN.Unsigned.to_of, DecimalN.Unsigned.of_to.
  apply uint_beq_refl.
Qed.

Lemma canonical_of_uint d : canonical d = true -> N.to_uint (N.of_uint d) = d.
Proof.
  unfold canonical; intros H. apply uint_beq_eq in H.
  now rewrite DecimalN.Unsigned.to_of.
Qed.

Lemma take_digits_chars d rest :
  match rest with [] => True | c :: _ => digit_of c = None end ->
  take_digits (uint_chars d ++ rest) = (d, rest).
Proof.
  intros Hrest.
  induction d; simpl; try (rewrite IHd; reflexivity).
  destruct rest as [|c r]; simpl; [reflexivity|]. now rewrite Hrest.
Qed.

Lemma delim_not_digit rest :
  delim rest -> match rest with [] => True | c :: _ => digit_of c = None end.
Proof.
  destruct rest as [|c r]; simpl; [trivial|].
  intros [-> | [-> | ->]]; reflexivity.
Qed.

Lemma parse_nat_chars n rest :
  delim rest -> parse_nat (N_chars n ++ rest) = Some (n, rest).
Proof.
  intros Hd. unfold parse_nat, N_chars.
  rewrite take_digits_chars by now apply delim_not_digit.
  rewrite canonical_to_uint, DecimalN.Unsigned.of_to.
  destruct rest as [|c r]; [reflexivity|].
  destruct Hd as [-> | [-> | ->]]; reflexivity.
Qed.

(** The first character of a numeral is a digit. *)
Lemma N_chars_head n : exists c tl D, N_chars n = c :: tl /\ digit_of c = Some D.
Proof.
  unfold N_chars. pose proof (canonical_to_uint n) as Hc.
  destruct (N.to_uint n); simpl; try (do 3 eexists; split; reflexivity).
  discriminate Hc.
Qed.

(** ** Facts about string literals *)

Lemma parse_string_body_esc c tl acc :
  parse_string_body (esc_char c ++ tl) acc = parse_string_body tl (c :: acc).
Proof.
  destruct c as [b0 b1 b2 b3 b4 b5 b6 b7].
  destruct b0, b1, b2, b3, b4, b5, b6, b7; reflexivity.
Qed.

Lemma parse_string_body_escaped cs rest acc :
  parse_string_body (flat_map esc_char cs ++ dq :: rest) acc
  = Some (string_of_list_ascii (rev acc ++ cs), rest).
Proof.
  revert acc; induction cs as [|c cs IH]; intros acc; simpl.
  - now rewrite app_nil_r.
  - rewrite <- app_assoc, parse_string_body_esc, IH. simpl.
    now rewrite <- app_assoc.
Qed.

Lemma parse_string_body_quote s rest :
  parse_string_body (tl (quote s) ++ rest) [] = Some (s, rest).
Proof.
  unfold quote; simpl. rewrite <- app_assoc. simpl.
  rewrite parse_string_body_escaped. simpl.
  unfold chars. now rewrite string_of_list_ascii_of_string.
Qed.

(** ** Reading back what was written *)

Lemma digit_dispatch c D :
  digit_of c = Some D ->
  is_ws c = false /\ Ascii.eqb c "n" = false /\ Ascii.eqb c "t" = false /\
  Ascii.eqb c "f" = false /\ Ascii.eqb c dq = false /\
  Ascii.eqb c "[" = false /\ Ascii.eqb c "{" = false /\
  Ascii.eqb c "-" = false /\ Ascii.eqb c "]" = false /\
  Ascii.eqb c "}" = false.
Proof.
  unfold digit_of.
  repeat match goal with
         | |- context [Ascii.eqb c ?d] =>
             destruct (Ascii.eqb_spec c d) as [->|_];
             [intros _; repeat split; reflexivity|]
         end.
  discriminate.
Qed.

Lemma quote_start s : value_start (quote s).
Proof. unfold quote; simpl; auto. Qed.

Lemma json_text_start v : value_start (json_text v).
Proof.
  destruct v as [| |[]|n|s|l|o]; try (simpl; auto; fail).
  - simpl. unfold Z_chars. destruct (n <? 0); [simpl; auto|].
    destruct (N_chars_head (Z.to_N n)) as (c & tl & D & -> & HD).
    apply digit_dispatch in HD. simpl. tauto.
Qed.

Lemma skip_ws_start cs : value_start cs -> skip_ws cs = cs.
Proof. destruct cs as [|c r]; simpl; [tauto|]. now intros [-> _]. Qed.

Lemma skip_ws_delim c r :
  c = ","%char \/ c = "]"%char \/ c = "}"%char \/ c = ":"%char ->
  skip_ws (c :: r) = c :: r.
Proof. intros [-> | [-> | [-> | ->]]]; reflexivity. Qed.

Lemma parse_value_num fuel n rest :
  delim rest ->
  parse_value (S fuel) (Z_chars n ++ rest) = Some (JNum n, rest).
Proof.
  intros Hd. unfold Z_chars. destruct (Z.ltb_spec n 0) as [Hn|Hn].
  - simpl. rewrite parse_nat_chars by assumption.
    do 3 f_equal. rewrite N2Z.inj_abs_N. lia.
  - destruct (N_chars_head (Z.to_N n)) as (c & tl & D & Heq & HD).
    pose proof (parse_nat_chars (Z.to_N n) rest Hd) as Hp.
    rewrite Heq in *. apply digit_dispatch in HD.
    destruct HD as (Hw & H1 & H2 & H3 & H4 & H5 & H6 & H7 & _).
    cbn [parse_value app skip_ws]. rewrite Hw, H1, H2, H3, H4, H5, H6, H7.
    change (c :: (tl ++ rest)%list) with ((c :: tl) ++ rest)%list. rewrite Hp.
    do 3 f_equal. lia.
Qed.

Lemma parse_value_str fuel s rest :
  parse_value (S fuel) (quote s ++ rest) = Some (JStr s, rest).
Proof.
  pose proof (parse_string_body_quote s rest) as Hp.
  unfold quote in *. cbn [tl] in Hp.
  cbn [parse_value app skip_ws is_ws Ascii.eqb Bool.eqb orb].
  now rewrite Hp.
Qed.

Lemma parse_elems_text l :
  Forall reads_back l -> l <> [] ->
  forall fuel acc rest,
    (List.length (elems_text json_text l) + 1 <= fuel)%nat ->
    parse_elems fuel (elems_text json_text l ++ "]"%char :: rest) acc
    = Some (JArr (rev acc ++ map eclean l), rest).
Proof.
  induction 1 as [|x l Hx Hl IH]; [congruence|].
  intros _ fuel acc rest Hf.
  destruct fuel as [|fuel]; [lia|].
  destruct l as [|y l'].
  - cbn [elems_text] in *. rewrite app_nil_r in *.
    cbn [parse_elems]. rewrite Hx; [|simpl; auto|lia].
    reflexivity.
  - remember (y :: l') as l eqn:El.
    assert (Ht : elems_text json_text (x :: l)
                 = (json_text x ++ ","%char :: elems_text json_text l)%list)
      by (subst l; reflexivity).
    rewrite Ht in *. rewrite length_app in Hf. cbn [List.length] in Hf.
    rewrite <- app_assoc. cbn [parse_elems app].
    rewrite Hx; [|simpl; auto|lia].
    cbn [skip_ws is_ws Ascii.eqb Bool.eqb orb].
    rewrite IH; [|subst l; congruence|lia].
    cbn. now rewrite <- app_assoc.
Qed.

Lemma jclean_obj o : jclean (JObj o) = JObj (fold_left mstep o []).
Proof. reflexivity. Qed.

Lemma undefined_or_not (x : JsVal) : x = JUndefined \/ x <> JUndefined.
Proof. destruct x; auto; right; discriminate. Qed.

Lemma eclean_defined x : x <> JUndefined -> eclean x = jclean x.
Proof. destruct x; congruence || reflexivity. Qed.

Lemma mstep_defined acc k x :
  x <> JUndefined -> mstep acc (k, x) = obj_set k (jclean x) acc.
Proof. destruct x; congruence || reflexivity. Qed.

Lemma members_text_defined first k x o :
  x <> JUndefined ->
  members_text json_text first ((k, x) :: o)
  = ((if first then [] else [","%char]) ++ quote k
       ++ ":"%char :: json_text x ++ members_text json_text false o)%list.
Proof. destruct x; congruence || reflexivity. Qed.

Lemma members_text_false o :
  members_text json_text false o
  = match members_text json_text true o with
    | [] => []
    | t => ","%char :: t
    end.
Proof.
  induction o as [|[k x] o IH]; [reflexivity|].
  destruct (undefined_or_not x) as [->|Hx]; [exact IH|].
  rewrite !members_text_defined by assumption. reflexivity.
Qed.

Lemma members_nil_fold o acc :
  members_text json_text true o = [] -> fold_left mstep o acc = acc.
Proof.
  induction o as [|[k x] o IH]; [reflexivity|].
  destruct (undefined_or_not x) as [->|Hx]; [exact IH|].
  rewrite members_text_defined by assumption. discriminate.
Qed.

Lemma parse_members_step f k r acc :
  parse_members (S f) (quote k ++ ":"%char :: r) acc
  = match parse_value f r with
    | Some (v, r3) =>
        match skip_ws r3 with
        | c' :: r4 =>
            if Ascii.eqb c' ","
            then parse_members f r4 (obj_set k v acc)
            else if Ascii.eqb c' "}"
            then Some (JObj (obj_set k v acc), r4)
            else None
        | [] => None
        end
    | None => None
    end.
Proof.
  pose proof (parse_string_body_quote k (":"%char :: r)) as Hp.
  unfold quote in *. cbn [tl] in Hp.
  cbn [parse_members app skip_ws is_ws Ascii.eqb Bool.eqb orb].
  rewrite Hp. reflexivity.
Qed.

Lemma parse_members_text o :
  Forall (fun kx => reads_back (snd kx)) o ->
  forall fuel acc rest,
    members_text json_text true o <> [] ->
    (List.length (members_text json_text true o) + 1 <= fuel)%nat ->
    parse_members fuel (members_text json_text true o ++ "}"%char :: rest) acc
    = Some (JObj (fold_left mstep o acc), rest).
Proof.
  induction 1 as [|[k x] o Hx Ho IH];
    [intros ? ? ? Hne; now destruct Hne|].
  intros fuel acc rest Hne Hf. cbn [snd] in Hx.
  destruct (undefined_or_not x) as [->|Hd]; [now apply IH|].
  cbn [fold_left]. rewrite mstep_defined by assumption.
  rewrite members_text_defined in * by assumption. cbn [app] in *.
  rewrite !length_app in Hf. cbn [List.length] in Hf. rewrite length_app in Hf.
  destruct fuel as [|fuel]; [lia|].
  rewrite <- app_assoc. cbn [app]. rewrite <- app_assoc.
  rewrite parse_members_step.
  rewrite members_text_false in *.
  destruct (members_text json_text true o) as [|c t] eqn:Et.
  - cbn [app]. rewrite Hx; [|simpl; auto|lia].
    cbn. rewrite members_nil_fold by assumption.
    now rewrite eclean_defined.
  - cbn [app]. rewrite Hx; [|simpl; auto|lia].
    cbn [skip_ws is_ws Ascii.eqb Bool.eqb orb].
    rewrite eclean_defined by assumption.
    change (c :: (t ++ "}"%char :: rest)%list)
      with ((c :: t) ++ "}"%char :: rest)%list.
    apply IH; [discriminate|]. cbn [List.length] in *. lia.
Qed.

Lemma members_text_start o :
  members_text json_text true o <> [] ->
  exists tl, members_text json_text true o = dq :: tl.
Proof.
  induction o as [|[k x] o IH]; [intros H; now destruct H|].
  destruct (undefined_or_not x) as [->|Hx]; [exact IH|].
  rewrite members_text_defined by assumption. intros _.
  unfold quote. cbn. eauto.
Qed.

(** Every value is read back from its own text, with the fuel its length
    provides. *)
Lemma parse_value_text v : reads_back v.
Proof.
  induction v as [| |b|n|s|l IH|o IH] using JsVal_nested_ind;
    intros fuel rest Hd Hf.
  - destruct fuel; [simpl in Hf; lia|reflexivity].
  - destruct fuel; [simpl in Hf; lia|reflexivity].
  - destruct fuel; [destruct b; simpl in Hf; lia|destruct b; reflexivity].
  - destruct fuel as [|fuel].
    + pose proof (json_text_start (JNum n)) as Hs.
      destruct (json_text (JNum n)); [destruct Hs|simpl in Hf; lia].
    + now apply parse_value_num.
  - destruct fuel as [|fuel]; [simpl in Hf; lia|].
    apply parse_value_str.
  - destruct fuel as [|fuel]; [simpl in Hf; lia|].
    cbn [json_text eclean jclean] in *.
    cbn [List.length] in Hf. rewrite length_app in Hf.
    cbn [List.length] in Hf.
    cbn [app parse_value skip_ws is_ws Ascii.eqb Bool.eqb orb].
    rewrite <- app_assoc. cbn [app].
    destruct l as [|x l'].
    + reflexivity.
    + remember (x :: l') as l eqn:El.
      assert (Hs : value_start (elems_text json_text l ++ "]"%char :: rest)%list).
      { subst l. cbn [elems_text]. pose proof (json_text_start x) as Hx.
        destruct (json_text x); [destruct Hx|exact Hx]. }
      rewrite skip_ws_start by assumption.
      destruct (elems_text json_text l ++ "]"%char :: rest)%list
        as [|c r] eqn:Er; [destruct Hs|].
      destruct Hs as (_ & -> & _). rewrite <- Er.
      rewrite parse_elems_text; [reflexivity|assumption|subst l; congruence|lia].
  - destruct fuel as [|fuel]; [simpl in Hf; lia|].
    cbn [json_text eclean] in *. rewrite jclean_obj.
    cbn [List.length] in Hf. rewrite length_app in Hf.
    cbn [List.length] in Hf.
    cbn [app parse_value skip_ws is_ws Ascii.eqb Bool.eqb orb].
    rewrite <- app_assoc. cbn [app].
    destruct (members_text json_text true o) as [|c t] eqn:Et.
    + cbn. now rewrite (members_nil_fold o []).
    + rewrite <- Et in *.
      assert (Hne : members_text json_text true o <> []) by congruence.
      destruct (members_text_start o Hne) as [tl Htl].
      rewrite Htl at 1. cbn [app skip_ws is_ws Ascii.eqb Bool.eqb orb].
      rewrite (parse_members_text o IH fuel [] rest); [reflexivity|assumption|].
      lia.
Qed.

(** [JSON.parse] inverts [JSON.stringify] up to [jclean]. *)
Theorem JSON_parse_stringify v s :
  JSON_stringify v = Some s -> JSON_parse s = Some (jclean v).
Proof.
  intros Hs. assert (Hv : v <> JUndefined) by (intros ->; discriminate).
  assert (s = string_of_list_ascii (json_text v))
    by (destruct v; try discriminate; injection Hs as <-; reflexivity).
  subst s. unfold JSON_parse, chars.
  rewrite list_ascii_of_string_of_list_ascii.
  pose proof (parse_value_text v (S (List.length (json_text v))) []) as Hp.
  rewrite app_nil_r in Hp. rewrite Hp; [|exact I|lia].
  now rewrite eclean_defined.
Qed.

(** ** Plain JSON data *)

Lemma obj_has_In k o : obj_has k o = true <-> List.In k (keys o).
Proof.
  induction o as [|[k' x] o IH]; simpl; [split; [discriminate|tauto]|].
  rewrite orb_true_iff, IH, String.eqb_eq. intuition congruence.
Qed.

Lemma keys_replace k x o : keys (obj_replace k x o) = keys o.
Proof.
  induction o as [|[k' x'] o IH]; simpl; [reflexivity|].
  destruct (String.eqb k k'); simpl; congruence.
Qed.

Lemma In_keys_insert a i k x o :
  List.In a (keys (obj_insert_index i k x o)) <-> a = k \/ List.In a (keys o).
Proof.
  induction o as [|[k' x'] o IH]; simpl; [intuition congruence|].
  destruct (array_index k') as [j|]; [destruct (i <? j)%N|]; simpl;
    rewrite ?IH; intuition congruence.
Qed.

Lemma NoDup_insert i k x o :
  List.NoDup (keys o) -> ~ List.In k (keys o) ->
  List.NoDup (keys (obj_insert_index i k x o)).
Proof.
  induction o as [|[k' x'] o IH]; simpl; intros Hnd Hk.
  - constructor; [tauto|constructor].
  - apply List.NoDup_cons_iff in Hnd as [Hk' Hnd].
    destruct (array_index k') as [j|]; [destruct (i <? j)%N|]; simpl.
    + constructor; [simpl; tauto|now constructor].
    + constructor; [|apply IH; tauto].
      rewrite In_keys_insert. intuition congruence.
    + constructor; [simpl; tauto|now constructor].
Qed.

Lemma sorted_insert i k x o :
  array_index k = Some i ->
  StronglySorted key_before (keys o) ->
  StronglySorted key_before (keys (obj_insert_index i k x o)).
Proof.
  intros Hk. induction o as [|[k' x'] o IH]; simpl; intros Hs.
  - repeat constructor.
  - apply StronglySorted_inv in Hs as [Hs Hall].
    destruct (array_index k') as [j|] eqn:Ek'.
    + destruct (N.ltb_spec i j) as [Hlt|Hge]; simpl.
      * constructor; [now constructor|].
        constructor.
        { unfold key_before. rewrite Hk, Ek'. lia. }
        rewrite List.Forall_forall in *. intros b Hb.
        specialize (Hall b Hb). unfold key_before in *.
        rewrite Hk. rewrite Ek' in Hall.
        destruct (array_index b); [lia|trivial].
      * constructor; [now apply IH|].
        rewrite List.Forall_forall in *. intros b Hb.
        apply (In_keys_insert b i k x o) in Hb as [->|Hb]; [|now apply Hall].
        unfold key_before. rewrite Hk, Ek'. lia.
    + simpl. constructor; [now constructor|].
      constructor.
      { unfold key_before. now rewrite Hk, Ek'. }
      rewrite List.Forall_forall in *. intros b Hb.
      specialize (Hall b Hb). unfold key_before in *.
      rewrite Ek' in Hall. rewrite Hk.
      destruct (array_index b); [destruct Hall|trivial].
Qed.

Lemma sorted_snoc ks k :
  array_index k = None ->
  StronglySorted key_before ks -> StronglySorted key_before (ks ++ [k]).
Proof.
  intros Hk. induction ks as [|a ks IH]; simpl; intros Hs.
  - repeat constructor.
  - apply StronglySorted_inv in Hs as [Hs Hall].
    constructor; [now apply IH|].
    apply List.Forall_app; split; [assumption|].
    constructor; [|constructor].
    unfold key_before. rewrite Hk. now destruct (array_index a).
Qed.

Lemma keys_ordered_set k x o : keys_ordered o -> keys_ordered (obj_set k x o).
Proof.
  intros [Hnd Hs]. unfold obj_set, keys_ordered.
  destruct (obj_has k o) eqn:Eh.
  - now rewrite keys_replace.
  - assert (Hk : ~ List.In k (keys o))
      by (rewrite <- obj_has_In; congruence).
    destruct (array_index k) as [i|] eqn:Ek.
    + split; [now apply NoDup_insert|now apply sorted_insert].
    + unfold keys. rewrite map_app. simpl. split.
      * apply List.NoDup_app; [assumption| |].
        -- constructor; [simpl; tauto|constructor].
        -- intros a Ha [<-|[]]. contradiction.
      * now apply sorted_snoc.
Qed.

Lemma plain_values_replace k x o :
  plain x -> Forall (fun kx => plain (snd kx)) o ->
  Forall (fun kx => plain (snd kx)) (obj_replace k x o).
Proof.
  intros Hx. induction 1 as [|[k' x'] o Hx' Ho IH]; simpl; [constructor|].
  destruct (String.eqb k k'); constructor; auto.
Qed.

Lemma plain_values_insert i k x o :
  plain x -> Forall (fun kx => plain (snd kx)) o ->
  Forall (fun kx => plain (snd kx)) (obj_insert_index i k x o).
Proof.
  intros Hx. induction 1 as [|[k' x'] o Hx' Ho IH]; simpl.
  - now repeat constructor.
  - destruct (array_index k') as [j|]; [destruct (i <? j)%N|];
      repeat (constructor; auto).
Qed.

Lemma plain_obj_set k x o :
  plain x -> plain (JObj o) -> plain (JObj (obj_set k x o)).
Proof.
  intros Hx Ho. inversion Ho as [| | | | |o' Hk Hv]; subst.
  constructor; [now apply keys_ordered_set|].
  unfold obj_set. destruct (obj_has k o).
  - now apply plain_values_replace.
  - destruct (array_index k).
    + now apply plain_values_insert.
    + apply List.Forall_app; split; [assumption|now repeat constructor].
Qed.

Lemma sorted_app_mid (R : string -> string -> Prop) l1 x l2 :
  StronglySorted R (l1 ++ x :: l2) -> Forall (fun y => R y x) l1.
Proof.
  induction l1 as [|a l1 IH]; simpl; intros Hs; [constructor|].
  apply StronglySorted_inv in Hs as [Hs Hall].
  constructor; [|now apply IH].
  rewrite List.Forall_forall in Hall. apply Hall.
  apply List.in_or_app. right. now left.
Qed.

Lemma insert_at_end i k x o :
  array_index k = Some i ->
  Forall (fun a => key_before a k) (keys o) ->
  obj_insert_index i k x o = (o ++ [(k, x)])%list.
Proof.
  intros Hk. induction o as [|[k' x'] o IH]; simpl; intros Hall;
    [reflexivity|].
  apply List.Forall_cons_iff in Hall as [Hb Hall].
  unfold key_before in Hb. rewrite Hk in Hb.
  destruct (array_index k') as [j|]; [|destruct Hb].
  destruct (N.ltb_spec i j); [lia|]. now rewrite IH.
Qed.

Lemma obj_set_snoc k x o :
  ~ List.In k (keys o) -> Forall (fun a => key_before a k) (keys o) ->
  obj_set k x o = (o ++ [(k, x)])%list.
Proof.
  intros Hk Hall. unfold obj_set.
  destruct (obj_has k o) eqn:Eh; [apply obj_has_In in Eh; contradiction|].
  destruct (array_index k) eqn:Ek; [now apply insert_at_end|reflexivity].
Qed.

Lemma plain_defined x : plain x -> x <> JUndefined.
Proof. intros H ->. inversion H. Qed.

Lemma rebuild_app l :
  forall acc,
    keys_ordered (acc ++ l) ->
    Forall (fun kx => snd kx <> JUndefined /\ jclean (snd kx) = snd kx) l ->
    fold_left mstep l acc = (acc ++ l)%list.
Proof.
  induction l as [|[k x] l IH]; intros acc Hord Hl; simpl.
  - now rewrite app_nil_r.
  - apply List.Forall_cons_iff in Hl as [[Hd Hc] Hl]. simpl in Hd, Hc.
    rewrite mstep_defined, Hc by assumption.
    destruct Hord as [Hnd Hs]. unfold keys in Hnd, Hs.
    rewrite map_app in Hnd, Hs. simpl in Hnd, Hs.
    rewrite obj_set_snoc.
    + rewrite IH; [now rewrite <- app_assoc|  |assumption].
      unfold keys_ordered, keys. rewrite <- app_assoc. simpl.
      rewrite map_app. simpl. tauto.
    + apply List.NoDup_remove_2 in Hnd. intros Hin. apply Hnd.
      apply List.in_or_app. now left.
    + now apply sorted_app_mid in Hs.
Qed.

(** Plain data is unchanged by a round trip through JSON text. *)
Lemma plain_jclean v : plain v -> jclean v = v.
Proof.
  induction v as [| |b|n|s|l IH|o IH] using JsVal_nested_ind;
    intros Hp; try reflexivity.
  - inversion Hp as [| | | |l' Hl|]; subst. simpl. f_equal.
    clear Hp. induction l as [|x l IHl]; [reflexivity|].
    apply List.Forall_cons_iff in IH as [Hx IH].
    apply List.Forall_cons_iff in Hl as [Hpx Hl].
    simpl. rewrite IHl by assumption. f_equal.
    change (eclean x = x).
    now rewrite eclean_defined, Hx by (try apply plain_defined; assumption).
  - inversion Hp as [| | | | |o' Hk Hv]; subst. rewrite jclean_obj.
    f_equal. rewrite rebuild_app; [reflexivity|assumption|].
    rewrite List.Forall_forall in *. intros kx Hin.
    split; [apply plain_defined|apply IH]; auto.
Qed.

Ltac case_on_match H :=
  match type of H with
  | match ?x with _ => _ end = _ => destruct x eqn:?
  end.

Lemma parse_lit_plain p v cs w r :
  plain v -> parse_lit p v cs = Some (w, r) -> plain w.
Proof.
  unfold parse_lit. intros Hv H. case_on_match H; congruence.
Qed.

Lemma parse_plain fuel :
  (forall cs v r, parse_value fuel cs = Some (v, r) -> plain v) /\
  (forall cs acc v r,
      Forall plain acc -> parse_elems fuel cs acc = Some (v, r) -> plain v) /\
  (forall cs acc v r,
      plain (JObj acc) -> parse_members fuel cs acc = Some (v, r) -> plain v).
Proof.
  induction fuel as [|fuel (IHv & IHe & IHm)];
    [repeat split; intros; discriminate|].
  repeat split.
  - intros cs v r H. cbn [parse_value] in H.
    case_on_match H; [discriminate|].
    case_on_match H; [eapply parse_lit_plain; [constructor|eassumption]|].
    case_on_match H; [eapply parse_lit_plain; [constructor|eassumption]|].
    case_on_match H; [eapply parse_lit_plain; [constructor|eassumption]|].
    case_on_match H.
    { case_on_match H; [|discriminate]. case_on_match H.
      injection H as <- <-. constructor. }
    case_on_match H.
    { case_on_match H; [discriminate|]. case_on_match H.
      - injection H as <- <-. repeat constructor.
      - eapply IHe; [|eassumption]. constructor. }
    case_on_match H.
    { case_on_match H; [discriminate|]. case_on_match H.
      - injection H as <- <-. repeat constructor.
      - eapply IHm; [|eassumption]. repeat constructor. }
    case_on_match H.
    { case_on_match H; [|discriminate]. case_on_match H.
      injection H as <- <-. constructor. }
    case_on_match H; [|discriminate]. case_on_match H.
    injection H as <- <-. constructor.
  - intros cs acc v r Hacc H. cbn [parse_elems] in H.
    case_on_match H; [|discriminate]. case_on_match H.
    case_on_match H; [discriminate|].
    assert (plain j) by eauto.
    case_on_match H; [eapply IHe; [|eassumption]; now constructor|].
    case_on_match H; [|discriminate].
    injection H as <- <-. constructor.
    change (Forall plain (rev (j :: acc))).
    apply List.Forall_rev. now constructor.
  - intros cs acc v r Hacc H. cbn [parse_members] in H.
    case_on_match H; [discriminate|].
    case_on_match H; [|discriminate].
    case_on_match H; [|discriminate]. case_on_match H.
    case_on_match H; [discriminate|].
    case_on_match H; [|discriminate].
    case_on_match H; [|discriminate]. case_on_match H.
    assert (plain j) by eauto.
    case_on_match H; [discriminate|].
    case_on_match H; [eapply IHm; [|eassumption]; now apply plain_obj_set|].
    case_on_match H; [|discriminate].
    injection H as <- <-. now apply plain_obj_set.
Qed.

(** Whatever [JSON.parse] returns is plain data. *)
Theorem JSON_parse_plain s v : JSON_parse s = Some v -> plain v.
Proof.
  unfold JSON_parse. intros H.
  case_on_match H; [|discriminate]. case_on_match H.
  case_on_match H; [|discriminate]. injection H as <-.
  eapply (proj1 (parse_plain _)); eassumption.
Qed.

Lemma plain_filter f l : plain (JArr l) -> plain (JArr (List.filter f l)).
Proof.
  intros H. inversion H as [| | | |l' Hl|]; subst. constructor.
  rewrite List.Forall_forall in *. intros x Hx.
  apply List.filter_In in Hx. apply Hl, Hx.
Qed.

(** ** The fuel of the reader is enough

    A successful reading takes at most as much fuel as it consumes
    characters, so the fuel [JSON_parse] provides never cuts a reading
    short. *)

Lemma skip_ws_length cs : (List.length (skip_ws cs) <= List.length cs)%nat.
Proof.
  induction cs as [|c r IH]; simpl; [lia|]. destruct (is_ws c); simpl; lia.
Qed.

Lemma skip_ws_cons cs c r :
  skip_ws cs = c :: r -> (S (List.length r) <= List.length cs)%nat.
Proof.
  intros H. pose proof (skip_ws_length cs) as Hl. rewrite H in Hl. exact Hl.
Qed.

Lemma strip_prefix_length p cs r :
  strip_prefix p cs = Some r -> (List.length r <= List.length cs)%nat.
Proof.
  revert cs; induction p as [|a p IH]; intros [|c cs] H; simpl in *;
    try discriminate; try (injection H as <-; simpl; lia).
  destruct (Ascii.eqb a c); [|discriminate]. apply IH in H. lia.
Qed.

Lemma parse_lit_length p v cs w r :
  parse_lit p v cs = Some (w, r) -> (List.length r <= List.length cs)%nat.
Proof.
  unfold parse_lit. intros H. case_on_match H; [|discriminate].
  injection H as _ <-. eauto using strip_prefix_length.
Qed.

Ltac lengths :=
  simpl in *;
  repeat match goal with
         | Hq : _ = _ |- _ => clear Hq
         | Hq : forall _, _ |- _ => clear Hq
         end;
  lia.

Lemma parse_string_body_length cs acc s r :
  parse_string_body cs acc = Some (s, r) ->
  (List.length r < List.length cs)%nat.
Proof.
  revert acc. induction cs as [cs IH] using (induction_ltof1 _ (@List.length ascii)).
  unfold ltof in IH. intros acc H.
  destruct cs as [|c r0]; simpl in H; [discriminate|].
  case_on_match H; [injection H as _ <-; simpl; lia|].
  case_on_match H.
  - case_on_match H; [discriminate|]. case_on_match H.
    + do 4 (case_on_match H; [discriminate|]).
      do 2 (case_on_match H; [|discriminate]).
      apply IH in H; lengths.
    + case_on_match H; [|discriminate].
      apply IH in H; lengths.
  - case_on_match H; [discriminate|].
    apply IH in H; lengths.
Qed.

Lemma take_digits_length cs d r :
  take_digits cs = (d, r) ->
  (List.length r <= List.length cs)%nat /\ (d <> Decimal.Nil -> List.length r < List.length cs)%nat.
Proof.
  revert d r; induction cs as [|c cs IH]; simpl; intros d r H.
  - injection H as <- <-. simpl. split; [lia|congruence].
  - destruct (digit_of c) as [D|].
    + destruct (take_digits cs) as [d' r'] eqn:Et. injection H as <- <-.
      destruct (IH d' r' eq_refl) as [Hl _]. simpl. split; [lia|intros _; lia].
    + injection H as <- <-. split; [simpl; lia|congruence].
Qed.

Lemma parse_nat_length cs n r :
  parse_nat cs = Some (n, r) -> (List.length r < List.length cs)%nat.
Proof.
  unfold parse_nat. destruct (take_digits cs) as [d r'] eqn:Et. intros H.
  destruct (canonical d) eqn:Ec; [|discriminate].
  assert (Hd : d <> Decimal.Nil) by (intros ->; discriminate Ec).
  destruct (take_digits_length cs d r' Et) as [_ Hl]. specialize (Hl Hd).
  destruct r' as [|c r'']; [injection H as _ <-; exact Hl|].
  case_on_match H; [discriminate|]. injection H as _ <-. exact Hl.
Qed.

Lemma parse_fuel fuel :
  (forall cs v r,
      parse_value fuel cs = Some (v, r) ->
      (List.length r < List.length cs)%nat
      /\ forall f', (List.length cs - List.length r <= f')%nat ->
                    parse_value f' cs = Some (v, r))
  /\ (forall cs acc v r,
        parse_elems fuel cs acc = Some (v, r) ->
        (List.length r < List.length cs)%nat
        /\ forall f', (List.length cs - List.length r <= f')%nat ->
                      parse_elems f' cs acc = Some (v, r))
  /\ (forall cs acc v r,
        parse_members fuel cs acc = Some (v, r) ->
        (List.length r < List.length cs)%nat
        /\ forall f', (List.length cs - List.length r <= f')%nat ->
                      parse_members f' cs acc = Some (v, r)).
Proof.
  induction fuel as [|fuel (IHv & IHe & IHm)];
    [repeat split; intros; discriminate|].
  repeat apply conj.
  - intros cs v r H. cbn [parse_value] in H.
    destruct (skip_ws cs) as [|c r0] eqn:Es; [discriminate|].
    pose proof (skip_ws_cons cs c r0 Es) as Hlen.
    assert (Hatom : forall k : option (JsVal * list ascii),
               k = Some (v, r) -> (List.length r <= List.length r0)%nat ->
               (forall g, parse_value (S g) cs = k) ->
               (List.length r < List.length cs)%nat
               /\ forall f', (List.length cs - List.length r <= f')%nat ->
                             parse_value f' cs = Some (v, r)).
    { intros k Hk Hl Hg. split; [lia|]. intros [|g] Hf; [lia|].
      now rewrite Hg. }
    destruct (Ascii.eqb c "n") eqn:E1.
    { apply (Hatom _ H); [eauto using parse_lit_length|].
      intros g. cbn [parse_value]. now rewrite Es, E1. }
    destruct (Ascii.eqb c "t") eqn:E2.
    { apply (Hatom _ H); [eauto using parse_lit_length|].
      intros g. cbn [parse_value]. now rewrite Es, E1, E2. }
    destruct (Ascii.eqb c "f") eqn:E3.
    { apply (Hatom _ H); [eauto using parse_lit_length|].
      intros g. cbn [parse_value]. now rewrite Es, E1, E2, E3. }
    destruct (Ascii.eqb c dq) eqn:E4.
    { apply (Hatom _ H).
      - destruct (parse_string_body r0 []) as [[s r']|] eqn:Ep; [|discriminate].
        injection H as _ <-. apply parse_string_body_length in Ep. lia.
      - intros g. cbn [parse_value]. now rewrite Es, E1, E2, E3, E4. }
    destruct (Ascii.eqb c "[") eqn:E5.
    { destruct (skip_ws r0) as [|c' r'] eqn:Es2; [discriminate|].
      pose proof (skip_ws_cons r0 c' r' Es2) as Hlen2.
      destruct (Ascii.eqb c' "]") eqn:E6.
      - apply (Hatom _ H); [injection H as _ <-; lia|].
        intros g. cbn [parse_value]. now rewrite Es, E1, E2, E3, E4, E5, Es2, E6.
      - destruct (IHe _ _ _ _ H) as [Hl Hf]. split; [lia|].
        intros [|g] Hg; [lia|]. cbn [parse_value].
        rewrite Es, E1, E2, E3, E4, E5, Es2, E6. apply Hf. lia. }
    destruct (Ascii.eqb c "{") eqn:E7.
    { destruct (skip_ws r0) as [|c' r'] eqn:Es2; [discriminate|].
      pose proof (skip_ws_cons r0 c' r' Es2) as Hlen2.
      destruct (Ascii.eqb c' "}") eqn:E6.
      - apply (Hatom _ H); [injection H as _ <-; lia|].
        intros g. cbn [parse_value].
        now rewrite Es, E1, E2, E3, E4, E5, E7, Es2, E6.
      - destruct (IHm _ _ _ _ H) as [Hl Hf]. split; [lia|].
        intros [|g] Hg; [lia|]. cbn [parse_value].
        rewrite Es, E1, E2, E3, E4, E5, E7, Es2, E6. apply Hf. lia. }
    destruct (Ascii.eqb c "-") eqn:E8.
    { apply (Hatom _ H).
      - destruct (parse_nat r0) as [[n r']|] eqn:Ep; [|discriminate].
        injection H as _ <-. apply parse_nat_length in Ep. lia.
      - intros g. cbn [parse_value].
        now rewrite Es, E1, E2, E3, E4, E5, E7, E8. }
    destruct (parse_nat (c :: r0)) as [[n r']|] eqn:Ep; [|discriminate].
    pose proof (parse_nat_length _ _ _ Ep) as Hl. simpl in Hl.
    injection H as <- <-. split; [lia|].
    intros [|g] Hg; [lia|]. cbn [parse_value].
    now rewrite Es, E1, E2, E3, E4, E5, E7, E8, Ep.
  - intros cs acc v r H. cbn [parse_elems] in H.
    destruct (parse_value fuel cs) as [[v1 r1]|] eqn:Ev; [|discriminate].
    destruct (IHv _ _ _ Ev) as [Hl1 Hf1].
    destruct (skip_ws r1) as [|c r1'] eqn:Es; [discriminate|].
    pose proof (skip_ws_cons r1 c r1' Es) as Hlen.
    destruct (Ascii.eqb c ",") eqn:E1.
    + destruct (IHe _ _ _ _ H) as [Hl2 Hf2]. split; [lia|].
      intros [|g] Hg; [lia|]. cbn [parse_elems].
      rewrite (Hf1 g) by lia. rewrite Es, E1. apply Hf2. lia.
    + destruct (Ascii.eqb c "]") eqn:E2; [|discriminate].
      injection H as <- <-. split; [lia|].
      intros [|g] Hg; [lia|]. cbn [parse_elems].
      rewrite (Hf1 g) by lia. now rewrite Es, E1, E2.
  - intros cs acc v r H. cbn [parse_members] in H.
    destruct (skip_ws cs) as [|q r0] eqn:Es0; [discriminate|].
    pose proof (skip_ws_cons cs q r0 Es0) as Hlen0.
    destruct (Ascii.eqb q dq) eqn:Eq; [|discriminate].
    destruct (parse_string_body r0 []) as [[k rk]|] eqn:Ek; [|discriminate].
    pose proof (parse_string_body_length _ _ _ _ Ek) as Hlk.
    destruct (skip_ws rk) as [|c r2] eqn:Es1; [discriminate|].
    pose proof (skip_ws_cons rk c r2 Es1) as Hlen1.
    destruct (Ascii.eqb c ":") eqn:Ec; [|discriminate].
    destruct (parse_value fuel r2) as [[v1 r3]|] eqn:Ev; [|discriminate].
    destruct (IHv _ _ _ Ev) as [Hl1 Hf1].
    destruct (skip_ws r3) as [|c' r4] eqn:Es2; [discriminate|].
    pose proof (skip_ws_cons r3 c' r4 Es2) as Hlen2.
    destruct (Ascii.eqb c' ",") eqn:E1.
    + destruct (IHm _ _ _ _ H) as [Hl2 Hf2]. split; [lia|].
      intros [|g] Hg; [lia|]. cbn [parse_members].
      rewrite Es0, Eq, Ek, Es1, Ec. rewrite (Hf1 g) by lia.
      rewrite Es2, E1. apply Hf2. lia.
    + destruct (Ascii.eqb c' "}") eqn:E2; [|discriminate].
      injection H as <- <-. split; [lia|].
      intros [|g] Hg; [lia|]. cbn [parse_members].
      rewrite Es0, Eq, Ek, Es1, Ec. rewrite (Hf1 g) by lia.
      now rewrite Es2, E1, E2.
Qed.

(** Whatever the recursive-descent reader accepts with some amount of
    fuel, [JSON_parse] accepts with the same result. *)
Theorem JSON_parse_fuel fuel s v r :
  parse_value fuel (chars s) = Some (v, r) -> skip_ws r = [] ->
  JSON_parse s = Some v.
Proof.
  intros H Hr. destruct (proj1 (parse_fuel fuel) _ _ _ H) as [Hl Hf].
  unfold JSON_parse. rewrite Hf by lia. now rewrite Hr.
Qed.
(** ** The reader accepts JSON only

    Whatever [JSON_parse] reads is JSON by the grammar, so a text that is
    not JSON is refused by the reader as it is by [JSON.parse]. *)

Lemma is_digit_digit_of c :
  is_digit c = match digit_of c with Some _ => true | None => false end.
Proof. destruct c as [[] [] [] [] [] [] [] []]; reflexivity. Qed.

Lemma take_digits_rest cs : snd (take_digits cs) = skip_digits cs.
Proof.
  induction cs as [|c r IH]; [reflexivity|]. simpl.
  rewrite is_digit_digit_of. destruct (digit_of c) as [D|]; [|reflexivity].
  destruct (take_digits r) as [d r'] eqn:Et. simpl in *. exact IH.
Qed.

Lemma canonical_zero d : canonical (Decimal.D0 d) = true -> d = Decimal.Nil.
Proof.
  unfold canonical, Decimal.unorm. simpl Decimal.nzhead. intros H.
  destruct (Decimal.nzhead d) eqn:En.
  - apply uint_beq_eq in H. now injection H.
  - apply uint_beq_eq in H. rewrite <- En in H.
    exfalso. apply (DecimalFacts.nzhead_nonzero d d). now rewrite H at 1.
  - apply uint_beq_eq in H; discriminate H.
  - apply uint_beq_eq in H; discriminate H.
  - apply uint_beq_eq in H; discriminate H.
  - apply uint_beq_eq in H; discriminate H.
  - apply uint_beq_eq in H; discriminate H.
  - apply uint_beq_eq in H; discriminate H.
  - apply uint_beq_eq in H; discriminate H.
  - apply uint_beq_eq in H; discriminate H.
  - apply uint_beq_eq in H; discriminate H.
Qed.

Lemma scan_tail_integer r :
  match r with
  | c :: _ => Ascii.eqb c "." || Ascii.eqb c "e" || Ascii.eqb c "E"
  | [] => false
  end = false ->
  match scan_frac r with Some r2 => scan_exp r2 | None => None end = Some r.
Proof.
  destruct r as [|c r]; [reflexivity|]. intros H.
  apply orb_false_elim in H as [H He2]. apply orb_false_elim in H as [Hp He1].
  unfold scan_frac. rewrite Hp. unfold scan_exp. now rewrite He1, He2.
Qed.

Lemma parse_nat_scan cs n r :
  parse_nat cs = Some (n, r) -> scan_unsigned cs = Some r.
Proof.
  unfold parse_nat. pose proof (take_digits_rest cs) as Hr.
  destruct (take_digits cs) as [d r'] eqn:Et. simpl in Hr. intros H.
  destruct (canonical d) eqn:Ec; [|discriminate].
  assert (Hr' : r' = r /\ match r with
                          | c :: _ => Ascii.eqb c "." || Ascii.eqb c "e"
                                      || Ascii.eqb c "E"
                          | [] => false
                          end = false).
  { destruct r' as [|c r'']; [injection H as _ <-; auto|].
    destruct (Ascii.eqb c "." || Ascii.eqb c "e" || Ascii.eqb c "E") eqn:E;
      [discriminate|]. injection H as _ <-. auto. }
  destruct Hr' as [-> Htail]. clear H.
  unfold scan_unsigned.
  destruct cs as [|c r0]; [injection Et as <- _; cbv in Ec; discriminate Ec|].
  simpl in Et. simpl in Hr. rewrite is_digit_digit_of in Hr. simpl scan_int.
  rewrite is_digit_digit_of.
  destruct (digit_of c) as [D|] eqn:Ed;
    [|injection Et as <- _; cbv in Ec; discriminate Ec].
  destruct (take_digits r0) as [d' r1] eqn:Et0. injection Et as <- <-.
  destruct (Ascii.eqb c "0") eqn:E0.
  - apply Ascii.eqb_eq in E0 as ->. injection Ed as <-.
    apply canonical_zero in Ec as ->.
    assert (r0 = r1) as ->.
    { destruct r0 as [|c0 r0]; [now injection Et0|]. simpl in Et0.
      unfold digit_of in Et0.
      repeat match type of Et0 with
             | context [if ?b then _ else _] => destruct b
             end;
        try (destruct (take_digits r0); discriminate Et0).
      now injection Et0. }
    now apply scan_tail_integer.
  - rewrite <- Hr. now apply scan_tail_integer.
Qed.

Lemma parse_string_body_scan cs acc s r :
  parse_string_body cs acc = Some (s, r) -> scan_string cs = Some r.
Proof.
  revert acc.
  induction cs as [cs IH] using (induction_ltof1 _ (@List.length ascii)).
  unfold ltof in IH. intros acc H.
  destruct cs as [|c r0]; simpl in *; [discriminate|].
  destruct (Ascii.eqb c dq); [now injection H as _ <-|].
  destruct (Ascii.eqb c bsl).
  - destruct r0 as [|e r1]; [discriminate|].
    destruct (Ascii.eqb e "u").
    + destruct r1 as [|h1 [|h2 [|h3 [|h4 r2]]]]; try discriminate.
      destruct (hex4 h1 h2 h3 h4) as [code|]; [|discriminate].
      destruct (utf8_encode code); [|discriminate].
      apply IH in H; [exact H|simpl; lia].
    + destruct (unescape e); [|discriminate].
      apply IH in H; [exact H|simpl; lia].
  - destruct (N_of_ascii c <? 32)%N; [discriminate|].
    apply IH in H; [exact H|simpl; lia].
Qed.

Lemma parse_scan fuel :
  (forall cs v r, parse_value fuel cs = Some (v, r) ->
                  scan_value fuel cs = Some r)
  /\ (forall cs acc v r, parse_elems fuel cs acc = Some (v, r) ->
                         scan_elems fuel cs = Some r)
  /\ (forall cs acc v r, parse_members fuel cs acc = Some (v, r) ->
                         scan_members fuel cs = Some r).
Proof.
  induction fuel as [|fuel (IHv & IHe & IHm)];
    [repeat split; intros; discriminate|].
  repeat apply conj.
  - intros cs v r H. cbn [parse_value] in H. cbn [scan_value].
    destruct (skip_ws cs) as [|c r0]; [discriminate|].
    destruct (Ascii.eqb c "n").
    { unfold parse_lit in H.
      destruct (strip_prefix (chars "ull") r0); [now injection H as _ <-|discriminate]. }
    destruct (Ascii.eqb c "t").
    { unfold parse_lit in H.
      destruct (strip_prefix (chars "rue") r0); [now injection H as _ <-|discriminate]. }
    destruct (Ascii.eqb c "f").
    { unfold parse_lit in H.
      destruct (strip_prefix (chars "alse") r0); [now injection H as _ <-|discriminate]. }
    destruct (Ascii.eqb c dq).
    { destruct (parse_string_body r0 []) as [[s r']|] eqn:Ep; [|discriminate].
      injection H as _ <-. eauto using parse_string_body_scan. }
    destruct (Ascii.eqb c "[").
    { destruct (skip_ws r0) as [|c' r']; [discriminate|].
      destruct (Ascii.eqb c' "]"); [now injection H as _ <-|eauto]. }
    destruct (Ascii.eqb c "{").
    { destruct (skip_ws r0) as [|c' r']; [discriminate|].
      destruct (Ascii.eqb c' "}"); [now injection H as _ <-|eauto]. }
    destruct (Ascii.eqb c "-").
    { destruct (parse_nat r0) as [[n r']|] eqn:Ep; [|discriminate].
      injection H as _ <-. eauto using parse_nat_scan. }
    destruct (parse_nat (c :: r0)) as [[n r']|] eqn:Ep; [|discriminate].
    injection H as _ <-. eauto using parse_nat_scan.
  - intros cs acc v r H. cbn [parse_elems] in H. cbn [scan_elems].
    destruct (parse_value fuel cs) as [[v1 r1]|] eqn:Ev; [|discriminate].
    rewrite (IHv _ _ _ Ev).
    destruct (skip_ws r1) as [|c r1']; [discriminate|].
    destruct (Ascii.eqb c ","); [eauto|].
    destruct (Ascii.eqb c "]"); [now injection H as _ <-|discriminate].
  - intros cs acc v r H. cbn [parse_members] in H. cbn [scan_members].
    destruct (skip_ws cs) as [|q r0]; [discriminate|].
    destruct (Ascii.eqb q dq); [|discriminate].
    destruct (parse_string_body r0 []) as [[k rk]|] eqn:Ek; [|discriminate].
    rewrite (parse_string_body_scan _ _ _ _ Ek).
    destruct (skip_ws rk) as [|c r2]; [discriminate|].
    destruct (Ascii.eqb c ":"); [|discriminate].
    destruct (parse_value fuel r2) as [[v1 r3]|] eqn:Ev; [|discriminate].
    rewrite (IHv _ _ _ Ev).
    destruct (skip_ws r3) as [|c' r4]; [discriminate|].
    destruct (Ascii.eqb c' ","); [eauto|].
    destruct (Ascii.eqb c' "}"); [now injection H as _ <-|discriminate].
Qed.

Lemma JSON_parse_is_JSON s v : JSON_parse s = Some v -> is_JSON s = true.
Proof.
  unfold JSON_parse, is_JSON. intros H.
  destruct (parse_value (S (List.length (chars s))) (chars s)) as [[v' r]|] eqn:E;
    [|discriminate].
  rewrite (proj1 (parse_scan _) _ _ _ E).
  destruct (skip_ws r); [reflexivity|discriminate].
Qed.

(** A text that is not JSON makes the reader fail. *)
Lemma not_JSON_refused s : is_JSON s = false -> JSON_parse s = None.
Proof.
  intros H. destruct (JSON_parse s) as [v|] eqn:E; [|reflexivity].
  apply JSON_parse_is_JSON in E. congruence.
Qed.
(** ** The fuel of the grammar check is enough *)

Lemma skip_digits_length cs : (List.length (skip_digits cs) <= List.length cs)%nat.
Proof.
  induction cs as [|c r IH]; simpl; [lia|]. destruct (is_digit c); simpl; lia.
Qed.

Lemma scan_digits_length cs r :
  scan_digits cs = Some r -> (List.length r < List.length cs)%nat.
Proof.
  destruct cs as [|c r0]; simpl; [discriminate|].
  destruct (is_digit c); [|discriminate]. intros [= <-].
  pose proof (skip_digits_length r0). lia.
Qed.

Lemma scan_unsigned_length cs r :
  scan_unsigned cs = Some r -> (List.length r < List.length cs)%nat.
Proof.
  unfold scan_unsigned. intros H.
  destruct (scan_int cs) as [r1|] eqn:E1; [|discriminate].
  assert (H1 : (List.length r1 < List.length cs)%nat).
  { destruct cs as [|c r0]; simpl in E1; [discriminate|].
    destruct (Ascii.eqb c "0"); [injection E1 as <-; simpl; lia|].
    destruct (is_digit c); [|discriminate]. injection E1 as <-.
    pose proof (skip_digits_length r0). simpl. lia. }
  destruct (scan_frac r1) as [r2|] eqn:E2; [|discriminate].
  assert (H2 : (List.length r2 <= List.length r1)%nat).
  { destruct r1 as [|c r0]; simpl in E2; [injection E2 as <-; simpl; lia|].
    destruct (Ascii.eqb c "."); [|injection E2 as <-; lia].
    apply scan_digits_length in E2. simpl. lia. }
  assert (H3 : (List.length r <= List.length r2)%nat).
  { destruct r2 as [|c r0]; simpl in H; [injection H as <-; simpl; lia|].
    destruct (Ascii.eqb c "e" || Ascii.eqb c "E"); [|injection H as <-; lia].
    destruct r0 as [|s r']; [discriminate|].
    destruct (Ascii.eqb s "+" || Ascii.eqb s "-");
      apply scan_digits_length in H; simpl in *; lia. }
  lia.
Qed.

Lemma scan_string_length cs r :
  scan_string cs = Some r -> (List.length r < List.length cs)%nat.
Proof.
  induction cs as [cs IH] using (induction_ltof1 _ (@List.length ascii)).
  unfold ltof in IH. intros H.
  destruct cs as [|c r0]; simpl in H; [discriminate|].
  destruct (Ascii.eqb c dq); [injection H as <-; simpl; lia|].
  destruct (Ascii.eqb c bsl).
  - destruct r0 as [|e r1]; [discriminate|].
    destruct (Ascii.eqb e "u").
    + destruct r1 as [|h1 [|h2 [|h3 [|h4 r2]]]]; try discriminate.
      destruct (hex4 h1 h2 h3 h4); [|discriminate].
      apply IH in H; simpl in *; lia.
    + destruct (unescape e); [|discriminate].
      apply IH in H; simpl in *; lia.
  - destruct (N_of_ascii c <? 32)%N; [discriminate|].
    apply IH in H; simpl in *; lia.
Qed.

Lemma scan_fuel fuel :
  (forall cs r,
      scan_value fuel cs = Some r ->
      (List.length r < List.length cs)%nat
      /\ forall f', (List.length cs - List.length r <= f')%nat ->
                    scan_value f' cs = Some r)
  /\ (forall cs r,
        scan_elems fuel cs = Some r ->
        (List.length r < List.length cs)%nat
        /\ forall f', (List.length cs - List.length r <= f')%nat ->
                      scan_elems f' cs = Some r)
  /\ (forall cs r,
        scan_members fuel cs = Some r ->
        (List.length r < List.length cs)%nat
        /\ forall f', (List.length cs - List.length r <= f')%nat ->
                      scan_members f' cs = Some r).
Proof.
  induction fuel as [|fuel (IHv & IHe & IHm)];
    [repeat split; intros; discriminate|].
  repeat apply conj.
  - intros cs r H. cbn [scan_value] in H.
    destruct (skip_ws cs) as [|c r0] eqn:Es; [discriminate|].
    pose proof (skip_ws_cons cs c r0 Es) as Hlen.
    assert (Hatom : forall k : option (list ascii),
               k = Some r -> (List.length r <= List.length r0)%nat ->
               (forall g, scan_value (S g) cs = k) ->
               (List.length r < List.length cs)%nat
               /\ forall f', (List.length cs - List.length r <= f')%nat ->
                             scan_value f' cs = Some r).
    { intros k Hk Hl Hg. split; [lia|]. intros [|g] Hf; [lia|].
      now rewrite Hg. }
    destruct (Ascii.eqb c "n") eqn:E1.
    { apply (Hatom _ H); [eauto using strip_prefix_length|].
      intros g. cbn [scan_value]. now rewrite Es, E1. }
    destruct (Ascii.eqb c "t") eqn:E2.
    { apply (Hatom _ H); [eauto using strip_prefix_length|].
      intros g. cbn [scan_value]. now rewrite Es, E1, E2. }
    destruct (Ascii.eqb c "f") eqn:E3.
    { apply (Hatom _ H); [eauto using strip_prefix_length|].
      intros g. cbn [scan_value]. now rewrite Es, E1, E2, E3. }
    destruct (Ascii.eqb c dq) eqn:E4.
    { apply (Hatom _ H).
      - apply scan_string_length in H. lia.
      - intros g. cbn [scan_value]. now rewrite Es, E1, E2, E3, E4. }
    destruct (Ascii.eqb c "[") eqn:E5.
    { destruct (skip_ws r0) as [|c' r'] eqn:Es2; [discriminate|].
      pose proof (skip_ws_cons r0 c' r' Es2) as Hlen2.
      destruct (Ascii.eqb c' "]") eqn:E6.
      - apply (Hatom _ H); [injection H as <-; lia|].
        intros g. cbn [scan_value]. now rewrite Es, E1, E2, E3, E4, E5, Es2, E6.
      - destruct (IHe _ _ H) as [Hl Hf]. split; [lia|].
        intros [|g] Hg; [lia|]. cbn [scan_value].
        rewrite Es, E1, E2, E3, E4, E5, Es2, E6. apply Hf. lia. }
    destruct (Ascii.eqb c "{") eqn:E7.
    { destruct (skip_ws r0) as [|c' r'] eqn:Es2; [discriminate|].
      pose proof (skip_ws_cons r0 c' r' Es2) as Hlen2.
      destruct (Ascii.eqb c' "}") eqn:E6.
      - apply (Hatom _ H); [injection H as <-; lia|].
        intros g. cbn [scan_value].
        now rewrite Es, E1, E2, E3, E4, E5, E7, Es2, E6.
      - destruct (IHm _ _ H) as [Hl Hf]. split; [lia|].
        intros [|g] Hg; [lia|]. cbn [scan_value].
        rewrite Es, E1, E2, E3, E4, E5, E7, Es2, E6. apply Hf. lia. }
    destruct (Ascii.eqb c "-") eqn:E8.
    { apply (Hatom _ H).
      - apply scan_unsigned_length in H. lia.
      - intros g. cbn [scan_value].
        now rewrite Es, E1, E2, E3, E4, E5, E7, E8. }
    pose proof (scan_unsigned_length _ _ H) as Hl. simpl in Hl.
    split; [lia|].
    intros [|g] Hg; [lia|]. cbn [scan_value].
    now rewrite Es, E1, E2, E3, E4, E5, E7, E8.
  - intros cs r H. cbn [scan_elems] in H.
    destruct (scan_value fuel cs) as [r1|] eqn:Ev; [|discriminate].
    destruct (IHv _ _ Ev) as [Hl1 Hf1].
    destruct (skip_ws r1) as [|c r1'] eqn:Es; [discriminate|].
    pose proof (skip_ws_cons r1 c r1' Es) as Hlen.
    destruct (Ascii.eqb c ",") eqn:E1.
    + destruct (IHe _ _ H) as [Hl2 Hf2]. split; [lia|].
      intros [|g] Hg; [lia|]. cbn [scan_elems].
      rewrite (Hf1 g) by lia. rewrite Es, E1. apply Hf2. lia.
    + destruct (Ascii.eqb c "]") eqn:E2; [|discriminate].
      injection H as <-. split; [lia|].
      intros [|g] Hg; [lia|]. cbn [scan_elems].
      rewrite (Hf1 g) by lia. now rewrite Es, E1, E2.
  - intros cs r H. cbn [scan_members] in H.
    destruct (skip_ws cs) as [|q r0] eqn:Es0; [discriminate|].
    pose proof (skip_ws_cons cs q r0 Es0) as Hlen0.
    destruct (Ascii.eqb q dq) eqn:Eq; [|discriminate].
    destruct (scan_string r0) as [rk|] eqn:Ek; [|discriminate].
    pose proof (scan_string_length _ _ Ek) as Hlk.
    destruct (skip_ws rk) as [|c r2] eqn:Es1; [discriminate|].
    pose proof (skip_ws_cons rk c r2 Es1) as Hlen1.
    destruct (Ascii.eqb c ":") eqn:Ec; [|discriminate].
    destruct (scan_value fuel r2) as [r3|] eqn:Ev; [|discriminate].
    destruct (IHv _ _ Ev) as [Hl1 Hf1].
    destruct (skip_ws r3) as [|c' r4] eqn:Es2; [discriminate|].
    pose proof (skip_ws_cons r3 c' r4 Es2) as Hlen2.
    destruct (Ascii.eqb c' ",") eqn:E1.
    + destruct (IHm _ _ H) as [Hl2 Hf2]. split; [lia|].
      intros [|g] Hg; [lia|]. cbn [scan_members].
      rewrite Es0, Eq, Ek, Es1, Ec. rewrite (Hf1 g) by lia.
      rewrite Es2, E1. apply Hf2. lia.
    + destruct (Ascii.eqb c' "}") eqn:E2; [|discriminate].
      injection H as <-. split; [lia|].
      intros [|g] Hg; [lia|]. cbn [scan_members].
      rewrite Es0, Eq, Ek, Es1, Ec. rewrite (Hf1 g) by lia.
      now rewrite Es2, E1, E2.
Qed.

(** Whatever the grammar check accepts with some amount of fuel,
    [is_JSON] accepts. *)
Lemma is_JSON_fuel fuel s r :
  scan_value fuel (chars s) = Some r -> skip_ws r = [] -> is_JSON s = true.
Proof.
  intros H Hr. destruct (proj1 (scan_fuel fuel) _ _ H) as [Hl Hf].
  unfold is_JSON. rewrite Hf by lia. now rewrite Hr.
Qed.

(** Texts that are JSON and lie outside the model: the reader does not
    read a number with a fraction or an exponent. *)
Lemma JSON_outside_model :
  is_JSON "[1.5]" = true /\ JSON_parse "[1.5]" = None
  /\ is_JSON "1e3" = true /\ JSON_parse "1e3" = None.
Proof. repeat split. Qed.

(** ** Reading the local store *)

Lemma getLocalRooms_cases w :
  (getLocalRooms w = (w, Ok (JArr []))
   /\ (localStorage w !! ROOMS_KEY = None \/ localStorage w !! ROOMS_KEY = Some ""))
  \/ (exists s v, localStorage w !! ROOMS_KEY = Some s /\ s <> ""
                  /\ JSON_parse s = Some v /\ getLocalRooms w = (w, Ok v))
  \/ (exists s, localStorage w !! ROOMS_KEY = Some s /\ s <> ""
                /\ JSON_parse s = None
                /\ getLocalRooms w
                   = (with_console
                        ("Failed to parse rooms from localStorage" :: console w) w,
                      Ok (JArr []))).
Proof.
  unfold getLocalRooms, try_catch, bind, getItem, lift, ret, JSON_parse_js,
    console_error.
  destruct (localStorage w !! ROOMS_KEY) as [s|] eqn:Es; [|left; auto].
  destruct (String.eqb_spec s "") as [->|Hs]; [left; auto|]. simpl.
  destruct (JSON_parse s) as [v|] eqn:Ep.
  - right; left. exists s, v. auto.
  - right; right. exists s. auto.
Qed.

Lemma getLocalRooms_storage w :
  localStorage (run getLocalRooms w) = localStorage w
  /\ remote_rooms (run getLocalRooms w) = remote_rooms w
  /\ isCloudEnabled (run getLocalRooms w) = isCloudEnabled w
  /\ unhandled (run getLocalRooms w) = unhandled w.
Proof.
  unfold run.
  destruct (getLocalRooms_cases w)
    as [[-> _]|[(s & v & _ & _ & _ & ->)|(s & _ & _ & _ & ->)]]; auto.
Qed.

Lemma getLocalRooms_plain w :
  exists v, result getLocalRooms w = Ok v /\ plain v.
Proof.
  unfold result.
  destruct (getLocalRooms_cases w)
    as [[-> _]|[(s & v & _ & _ & Hp & ->)|(s & _ & _ & _ & ->)]]; simpl.
  - eexists; split; [reflexivity|repeat constructor].
  - eexists; split; [reflexivity|]. eapply JSON_parse_plain; eassumption.
  - eexists; split; [reflexivity|repeat constructor].
Qed.

(** C9. [getLocalRooms] never throws and never changes local storage.
    It answers the empty list when nothing is stored, when the stored
    text is empty, and when the stored text is not JSON, in the last case
    after one console line.  A stored text that the reader reads is
    answered by the value read, whatever its shape, so the answer is a
    list exactly when the text is a serialized list. *)
Theorem getLocalRooms_total (w : World) :
  let stored := localStorage w !! ROOMS_KEY in
  (exists v, result getLocalRooms w = Ok v)
  /\ localStorage (run getLocalRooms w) = localStorage w
  /\ (stored = None \/ stored = Some "" ->
      getLocalRooms w = (w, Ok (JArr [])))
  /\ (forall s,
        stored = Some s -> s <> "" -> is_JSON s = false ->
        getLocalRooms w
        = (with_console
             ("Failed to parse rooms from localStorage" :: console w) w,
           Ok (JArr [])))
  /\ (forall s v,
        stored = Some s -> JSON_parse s = Some v -> exact v = true ->
        getLocalRooms w = (w, Ok v)
        /\ (Array_isArray v = true <-> exists l, JSON_parse s = Some (JArr l))).
Proof.
  intros stored. subst stored.
  pose proof (getLocalRooms_storage w) as (Hls & _).
  repeat match goal with |- _ /\ _ => split end; try exact Hls.
  - unfold result.
    destruct (getLocalRooms_cases w)
      as [[-> _]|[(s & v & _ & _ & _ & ->)|(s & _ & _ & _ & ->)]];
      eexists; reflexivity.
  - intros Hk.
    destruct (getLocalRooms_cases w)
      as [[Hg _]|[(s & v & Hs & Hne & _)|(s & Hs & Hne & _)]];
      [exact Hg| |]; destruct Hk as [Hk|Hk]; rewrite Hk in Hs;
      try discriminate; injection Hs as <-; now destruct Hne.
  - intros s Hs Hne Hj. apply not_JSON_refused in Hj.
    destruct (getLocalRooms_cases w)
      as [[_ [Hk|Hk]]|[(s' & v & Hs' & _ & Hp & _)|(s' & Hs' & _ & _ & Hg)]];
      rewrite Hs in *; try discriminate.
    + injection Hk as ->. now destruct Hne.
    + injection Hs' as <-. congruence.
    + exact Hg.
  - intros s v Hs Hp _. split.
    + destruct (getLocalRooms_cases w)
        as [[_ [Hk|Hk]]|[(s' & v' & Hs' & _ & Hp' & Hg)|(s' & Hs' & _ & Hp' & _)]];
        rewrite Hs in *; try discriminate.
      * injection Hk as ->. discriminate Hp.
      * injection Hs' as <-. congruence.
      * injection Hs' as <-. congruence.
    + split.
      * destruct v; try discriminate. intros _. eauto.
      * intros (l & Hl). rewrite Hl in Hp. now injection Hp as <-.
Qed.

Lemma getLocalRooms_total_witness :
  getLocalRooms (world_with_text "{not json")
  = (with_console ["Failed to parse rooms from localStorage"]
       (world_with_text "{not json"),
     Ok (JArr []))
  /\ getLocalRooms one_room_world
     = (one_room_world, Ok (JArr [JObj [("id", JStr "r1")]])).
Proof.
  destruct (getLocalRooms_total (world_with_text "{not json"))
    as (_ & _ & _ & Hbad & _).
  destruct (getLocalRooms_total one_room_world) as (_ & _ & _ & _ & Hgood).
  assert (Hne : "{not json" <> "") by discriminate.
  split; [exact (Hbad "{not json" eq_refl Hne eq_refl)|].
  exact (proj1 (Hgood (stringify_array [JObj [("id", JStr "r1")]])
                  (JArr [JObj [("id", JStr "r1")]]) eq_refl eq_refl eq_refl)).
Defined.


(** C9, as stated, fails: a stored text that parses to something other
    than a list is answered as parsed, so the answer is not always a
    list. *)
Lemma getLocalRooms_returns_non_list :
  localStorage (world_with_text "{}") !! ROOMS_KEY = Some "{}"
  /\ result getLocalRooms (world_with_text "{}") = Ok (JObj [])
  /\ ~ (exists l, result getLocalRooms (world_with_text "{}") = Ok (JArr l)).
Proof.
  repeat split. intros (l & Hl). discriminate Hl.
Qed.

(** ** Stepping through computations *)

Lemma run_result {A} (m : M A) w : m w = (run m w, result m w).
Proof. unfold run, result. now destruct (m w). Qed.

Lemma bind_ok {A B} (m : M A) (k : A -> M B) w w' a :
  m w = (w', Ok a) -> bind m k w = k a w'.
Proof. unfold bind. now intros ->. Qed.

Lemma bind_throw {A B} (m : M A) (k : A -> M B) w w' e :
  m w = (w', Throw e) -> bind m k w = (w', Throw e).
Proof. unfold bind. now intros ->. Qed.

Lemma stringify_array_not_empty l : stringify_array l <> "".
Proof. unfold stringify_array. simpl. discriminate. Qed.

Lemma stringify_array_parse l :
  plain (JArr l) -> JSON_parse (stringify_array l) = Some (JArr l).
Proof.
  intros Hp. rewrite (JSON_parse_stringify (JArr l) (stringify_array l) eq_refl).
  now rewrite plain_jclean.
Qed.

(** A list written by the service is read back as it was. *)
Lemma getLocalRooms_written w l :
  plain (JArr l) ->
  localStorage w !! ROOMS_KEY = Some (stringify_array l) ->
  getLocalRooms w = (w, Ok (JArr l)).
Proof.
  intros Hp Hk. pose proof (stringify_array_parse l Hp) as Hparse.
  destruct (getLocalRooms_cases w)
    as [[_ [Hn|He]]|[(s & v & Hs & _ & Hv & Hg)|(s & Hs & _ & Hv & _)]];
    rewrite Hk in *; try discriminate.
  - injection Hs as <-. rewrite Hparse in Hv. now injection Hv as <-.
  - injection Hs as <-. congruence.
Qed.

Lemma list_find_none (p : JsVal -> Res bool) (l : list JsVal) :
  Forall (fun r => p r = Ok false) l -> find_first p l = Ok JUndefined.
Proof. induction 1 as [|r l Hr Hl IH]; simpl; [reflexivity|]. now rewrite Hr. Qed.
(** ** Mutators on a room that is not stored *)

Lemma with_remote_rooms_same w : with_remote_rooms (remote_rooms w) w = w.
Proof. now destruct w. Qed.

Lemma transaction_absent key update w :
  remote_rooms w !! key = None -> remote_fault w = None ->
  update JNull = Ok JNull ->
  silent_no_op (detach (remote_transaction key update)) w.
Proof.
  intros Hk Hf Hu.
  unfold silent_no_op, detach, remote_transaction, child_value, write_child.
  rewrite Hk, Hf, Hu, (delete_id _ _ Hk). now rewrite with_remote_rooms_same.
Qed.

Lemma find_first_null p l1 l2 :
  Forall (fun r => p r = Ok false) l1 ->
  find_first p (l1 ++ JNull :: l2) = match p JNull with
                                     | Ok true => Ok JNull
                                     | Ok false => find_first p l2
                                     | Throw e => Throw e
                                     end.
Proof. induction 1 as [|r l Hr Hl IH]; simpl; [reflexivity|]. now rewrite Hr. Qed.

(** The search that opens the local branch of the three mutators. *)
Lemma local_search_fails roomId w (k : JsVal -> M unit) :
  unsearchable roomId w ->
  throws_TypeError
    (let* stored := getLocalRooms in
     let* rooms := lift (receiver "find" stored) in
     let* room := lift (find_first (has_id roomId) rooms) in
     k room) w.
Proof.
  intros (v & Hg & Hv). unfold throws_TypeError.
  rewrite (bind_ok _ _ w _ _ Hg). unfold bind, lift.
  destruct Hv as [Hv|(l1 & l2 & -> & Hl1)].
  - destruct v; try discriminate Hv; simpl; eexists; reflexivity.
  - simpl. rewrite (find_first_null _ _ _ Hl1). simpl. eexists; reflexivity.
Qed.

(** C10. [addMessage], [addMemo] and [deleteMemo] called with the
    identifier of a room that is not in the store do nothing at all, in
    cloud mode when the backend takes requests and in local mode when
    the stored text reads without a parse failure as a list none of
    whose entries is null: they return normally and leave both stores,
    the console, the window events, the alerts and the unhandled
    rejections as they were.  In local mode, on a store that reads as
    something other than a list, or as a list with a null entry before
    any room with that identifier, they throw a TypeError and change
    nothing. *)
Theorem mutators_on_absent_room (w : World) (roomId memoId : string)
    (item : JsVal) :
  (absent_from_store roomId w ->
   silent_no_op (addMessage roomId item) w
   /\ silent_no_op (addMemo roomId item) w
   /\ silent_no_op (deleteMemo roomId memoId) w)
  /\ (isCloudEnabled w = false -> unsearchable roomId w ->
      throws_TypeError (addMessage roomId item) w
      /\ throws_TypeError (addMemo roomId item) w
      /\ throws_TypeError (deleteMemo roomId memoId) w).
Proof.
  split.
  - unfold absent_from_store, silent_no_op, addMessage, addMemo, deleteMemo,
      local_append.
    destruct (isCloudEnabled w) eqn:Ec.
    + intros [Hk Hf]. repeat split; now apply transaction_absent.
    + intros (l & Hg & Hall).
      repeat split; rewrite (bind_ok _ _ w _ _ Hg); unfold bind, lift; simpl;
        now rewrite (list_find_none _ _ Hall).
  - intros Ec Hu.
    unfold throws_TypeError, addMessage, addMemo, deleteMemo, local_append.
    rewrite Ec. repeat split; exact (local_search_fails roomId w _ Hu).
Qed.

Lemma mutators_on_absent_room_witness :
  silent_no_op (addMessage "r9" sample_message) one_room_world
  /\ silent_no_op (addMemo "r9" sample_message) one_room_world
  /\ silent_no_op (deleteMemo "r9" "memo1") one_room_world.
Proof.
  apply (proj1 (mutators_on_absent_room one_room_world "r9" "memo1"
                  sample_message)).
  exists [JObj [("id", JStr "r1")]]. split; [reflexivity|].
  repeat constructor.
Defined.

(** C10, as stated, fails: the local store holds a null entry and no
    room [r9]; [addMessage] with that identifier throws. *)
Lemma addMessage_throws_on_null_entry :
  result getLocalRooms (world_with_text "[null]") = Ok (JArr [JNull])
  /\ result (addMessage "r9" sample_message) (world_with_text "[null]")
     = Throw (TypeError "Cannot read properties of null").
Proof. split; reflexivity. Qed.

(** ** Deleting a room *)

Lemma getLocalRooms_same_store w w' :
  localStorage w = localStorage w' ->
  result getLocalRooms w = result getLocalRooms w'.
Proof.
  intros Hst. unfold result, getLocalRooms, try_catch, bind, getItem, lift, ret,
    console_error.
  rewrite Hst. destruct (localStorage w' !! ROOMS_KEY) as [s|]; [|reflexivity].
  destruct (negb (String.eqb s "")); [|reflexivity].
  now destruct (JSON_parse_js (Some s)).
Qed.

Lemma deleteRoom_local w roomId v :
  isCloudEnabled w = false -> result getLocalRooms w = Ok v ->
  deleteRoom roomId w
  = match receiver "filter" v with
    | Ok l =>
        match filter_res (other_id roomId) l with
        | Ok l' => (local_write l' (run getLocalRooms w), Ok tt)
        | Throw e => (run getLocalRooms w, Throw e)
        end
    | Throw e => (run getLocalRooms w, Throw e)
    end.
Proof.
  intros Hc Hv. unfold deleteRoom. rewrite Hc.
  rewrite (bind_ok _ _ w _ _ (eq_trans (run_result getLocalRooms w)
                                 (f_equal (pair _) Hv))).
  unfold bind, lift. destruct (receiver "filter" v) as [l|e]; [|reflexivity].
  destruct (filter_res (other_id roomId) l) as [l'|e]; reflexivity.
Qed.

Lemma filter_res_again (p : JsVal -> Res bool) (l l' : list JsVal) :
  filter_res p l = Ok l' -> filter_res p l' = Ok l'.
Proof.
  revert l'; induction l as [|x l IH]; simpl; intros l' H.
  - now injection H as <-.
  - destruct (p x) as [b|e] eqn:Ex; [|discriminate].
    destruct (filter_res p l) as [r|e]; [|discriminate].
    specialize (IH r eq_refl). injection H as <-.
    destruct b; [|exact IH]. simpl. now rewrite Ex, IH.
Qed.

Lemma filter_res_subset (p : JsVal -> Res bool) (l l' : list JsVal) x :
  filter_res p l = Ok l' -> List.In x l' -> List.In x l.
Proof.
  revert l'; induction l as [|y l IH]; simpl; intros l' H Hin.
  - injection H as <-. destruct Hin.
  - destruct (p y) as [b|e]; [|discriminate].
    destruct (filter_res p l) as [r|e]; [|discriminate].
    injection H as <-. destruct b; [destruct Hin as [->|Hin]|]; eauto.
Qed.

Lemma filter_res_plain (p : JsVal -> Res bool) (l l' : list JsVal) :
  filter_res p l = Ok l' -> plain (JArr l) -> plain (JArr l').
Proof.
  intros Hf Hp. inversion Hp as [| | | |l0 Hl|]; subst. constructor.
  rewrite List.Forall_forall in *. eauto using filter_res_subset.
Qed.

Lemma filter_res_all (p : JsVal -> Res bool) (l : list JsVal) :
  Forall (fun r => p r = Ok true) l -> filter_res p l = Ok l.
Proof.
  induction 1 as [|r l Hr Hl IH]; simpl; [reflexivity|]. now rewrite Hr, IH.
Qed.

Lemma receiver_array method v l : receiver method v = Ok l -> v = JArr l.
Proof. destruct v; simpl; unfold not_a_function; congruence. Qed.

Lemma local_write_reads l w :
  plain (JArr l) -> getLocalRooms (local_write l w) = (local_write l w, Ok (JArr l)).
Proof.
  intros Hp. apply getLocalRooms_written; [assumption|].
  unfold local_write. simpl. apply lookup_insert_eq.
Qed.

Lemma deleteRoom_local_outcome w roomId :
  isCloudEnabled w = false ->
  (exists e, deleteRoom roomId w = (run getLocalRooms w, Throw e)
             /\ ~ every_other_id roomId w)
  \/ (exists l l', result getLocalRooms w = Ok (JArr l)
                   /\ plain (JArr l')
                   /\ filter_res (other_id roomId) l = Ok l'
                   /\ deleteRoom roomId w
                      = (local_write l' (run getLocalRooms w), Ok tt)).
Proof.
  intros Hc. destruct (getLocalRooms_plain w) as (v & Hv & Hplain).
  rewrite (deleteRoom_local w roomId v Hc Hv).
  destruct (receiver "filter" v) as [l|e] eqn:Er.
  - apply receiver_array in Er as ->.
    destruct (filter_res (other_id roomId) l) as [l'|e] eqn:Efl.
    + right. exists l, l'. eauto using filter_res_plain.
    + left. exists e. split; [reflexivity|].
      intros (l0 & Hl & Hall). rewrite Hv in Hl. injection Hl as <-.
      rewrite (filter_res_all _ _ Hall) in Efl. discriminate Efl.
  - left. exists e. split; [reflexivity|].
    intros (l0 & Hl & Hall). rewrite Hv in Hl. injection Hl as ->.
    discriminate Er.
Qed.

Lemma deleteRoom_local_again w roomId l' :
  isCloudEnabled w = false -> plain (JArr l') ->
  filter_res (other_id roomId) l' = Ok l' ->
  deleteRoom roomId (local_write l' w)
  = (local_write l' (local_write l' w), Ok tt).
Proof.
  intros Hc Hp Hf. pose proof (local_write_reads l' w Hp) as Hread.
  rewrite (deleteRoom_local (local_write l' w) roomId (JArr l') Hc
             (f_equal snd Hread)).
  simpl receiver. cbv iota. rewrite Hf. unfold run. now rewrite Hread.
Qed.

Lemma deleteRoom_local_failed w roomId e :
  isCloudEnabled w = false ->
  deleteRoom roomId w = (run getLocalRooms w, Throw e) ->
  deleteRoom roomId (run getLocalRooms w)
  = (run getLocalRooms (run getLocalRooms w), Throw e).
Proof.
  intros Hc Hd. destruct (getLocalRooms_plain w) as (v & Hv & _).
  pose proof (getLocalRooms_storage w) as (Hls & _ & Hce & _).
  assert (Hv1 : result getLocalRooms (run getLocalRooms w) = Ok v)
    by (rewrite <- Hv; now apply getLocalRooms_same_store).
  rewrite (deleteRoom_local w roomId v Hc Hv) in Hd.
  rewrite (deleteRoom_local _ roomId v (eq_trans Hce Hc) Hv1).
  destruct (receiver "filter" v) as [l|e0].
  - destruct (filter_res (other_id roomId) l) as [l'|e1];
      [discriminate|]. congruence.
  - congruence.
Qed.



(** ** Creating a room *)

Lemma Z_chars_inj a b : Z_chars a = Z_chars b -> a = b.
Proof.
  intros H. pose proof (parse_value_num 0 a [] I) as Ha.
  pose proof (parse_value_num 0 b [] I) as Hb.
  rewrite H in Ha. rewrite Ha in Hb. now injection Hb.
Qed.

Lemma Z_chars_no_underscore n : ~ List.In "_"%char (Z_chars n).
Proof.
  assert (Hu : forall d, ~ List.In "_"%char (uint_chars d)).
  { induction d; simpl; [tauto|..];
      (intros [Hc|Hc]; [discriminate Hc|auto]). }
  unfold Z_chars, N_chars. destruct (n <? 0); simpl.
  - intros [Hc|Hc]; [discriminate Hc|now apply Hu in Hc].
  - apply Hu.
Qed.

Lemma split_at_separator (sep : ascii) (a a' b b' : list ascii) :
  ~ List.In sep a -> ~ List.In sep a' ->
  (a ++ sep :: b = a' ++ sep :: b')%list -> a = a' /\ b = b'.
Proof.
  revert a'; induction a as [|x a IH]; intros [|y a'] Ha Ha' H; simpl in *.
  - injection H as ->. auto.
  - injection H as <- _. tauto.
  - injection H as -> _. tauto.
  - injection H as -> H. destruct (IH a') as [-> ->]; auto.
Qed.

Lemma chars_append s t : chars (s +:+ t) = (chars s ++ chars t)%list.
Proof.
  unfold chars. induction s as [|a s IH]; [reflexivity|].
  simpl. now rewrite IH.
Qed.

Lemma chars_inj s t : chars s = chars t -> s = t.
Proof.
  intros H. apply (f_equal string_of_list_ascii) in H.
  unfold chars in H. now rewrite !string_of_list_ascii_of_string in H.
Qed.

Lemma chars_Z_string n : chars (Z_string n) = Z_chars n.
Proof. unfold chars, Z_string. apply list_ascii_of_string_of_list_ascii. Qed.

(** The fallback identifier determines the timestamp and the random
    suffix it was built from. *)
Lemma fallback_id_inj t t' s s' :
  "room_" +:+ Z_string t +:+ "_" +:+ s = "room_" +:+ Z_string t' +:+ "_" +:+ s' ->
  t = t' /\ s = s'.
Proof.
  intros H. apply (f_equal chars) in H.
  rewrite !chars_append, !chars_Z_string in H. simpl in H.
  injection H as H.
  apply split_at_separator in H as [Ht Hs]; auto using Z_chars_no_underscore.
  split; [now apply Z_chars_inj|now apply chars_inj].
Qed.

Lemma saveRoom_local w room v :
  isCloudEnabled w = false -> result getLocalRooms w = Ok v ->
  saveRoom room w
  = match receiver "findIndex" v with
    | Ok l =>
        match find_index (same_id room) l 0 with
        | Ok idx =>
            (local_write
               (match idx with
                | Some i => <[i := room]> l
                | None => (l ++ [room])%list
                end) (run getLocalRooms w), Ok tt)
        | Throw e => (run getLocalRooms w, Throw e)
        end
    | Throw e => (run getLocalRooms w, Throw e)
    end.
Proof.
  intros Hc Hv. unfold saveRoom. rewrite Hc.
  rewrite (bind_ok _ _ w _ _ (eq_trans (run_result getLocalRooms w)
                                 (f_equal (pair _) Hv))).
  unfold bind, lift. destruct (receiver "findIndex" v) as [l|e]; [|reflexivity].
  destruct (find_index (same_id room) l 0) as [idx|e]; reflexivity.
Qed.

Lemma saveRoom_cloud_ok w o :
  isCloudEnabled w = true -> remote_fault w = None ->
  saveRoom (JObj o) w
  = (with_remote_rooms
       (<[room_key (obj_get "id" o) := jclean (JObj o)]> (remote_rooms w)) w,
     Ok tt).
Proof.
  intros Hc Hf. unfold saveRoom. rewrite Hc.
  unfold try_catch, bind, lift, JSON_parse_js, remote_set.
  change (JSON_stringify (JObj o))
    with (Some (string_of_list_ascii (json_text (JObj o)))).
  cbv beta iota.
  rewrite (JSON_parse_stringify (JObj o) _ eq_refl). simpl get_prop.
  rewrite Hf. reflexivity.
Qed.

Lemma saveRoom_cloud_fault w o msg :
  isCloudEnabled w = true -> remote_fault w = Some msg ->
  saveRoom (JObj o) w
  = (with_console ("Error saving room to cloud:" :: console w) w,
     Throw (Error msg)).
Proof.
  intros Hc Hf. unfold saveRoom. rewrite Hc.
  unfold try_catch, bind, lift, JSON_parse_js, remote_set.
  change (JSON_stringify (JObj o))
    with (Some (string_of_list_ascii (json_text (JObj o)))).
  cbv beta iota.
  rewrite (JSON_parse_stringify (JObj o) _ eq_refl). simpl get_prop.
  rewrite Hf. reflexivity.
Qed.

(** What was written is read back in its JSON form. *)
Lemma local_write_reads_clean l w :
  getLocalRooms (local_write l w) = (local_write l w, Ok (JArr (map eclean l))).
Proof.
  assert (Hk : localStorage (local_write l w) !! ROOMS_KEY
               = Some (stringify_array l))
    by (unfold local_write; simpl; apply lookup_insert_eq).
  pose proof (JSON_parse_stringify (JArr l) (stringify_array l) eq_refl) as Hp.
  destruct (getLocalRooms_cases (local_write l w))
    as [[_ [Hn|He]]|[(s & v & Hs & _ & Hv & Hg)|(s & Hs & _ & Hv & _)]];
    rewrite Hk in *; try discriminate.
  - injection Hs as <-. rewrite Hp in Hv. injection Hv as <-. exact Hg.
  - injection Hs as <-. rewrite Hp in Hv. discriminate.
Qed.

Lemma find_index_bound (p : JsVal -> Res bool) (l : list JsVal) k i :
  find_index p l k = Ok (Some i) -> (k <= i < k + List.length l)%nat.
Proof.
  revert k; induction l as [|x l IH]; simpl; intros k H; [discriminate|].
  destruct (p x) as [[]|e]; [injection H as <-; lia| |discriminate].
  apply IH in H. lia.
Qed.

Lemma find_index_total (p : JsVal -> Res bool) (l : list JsVal) k :
  Forall (fun r => exists b, p r = Ok b) l -> exists idx, find_index p l k = Ok idx.
Proof.
  intros Hall; revert k; induction Hall as [|r l [b Hr] Hl IH]; simpl; intros k.
  - eauto.
  - rewrite Hr. destruct b; eauto.
Qed.

Lemma same_id_total o r :
  r <> JNull -> r <> JUndefined -> exists b, same_id (JObj o) r = Ok b.
Proof. unfold same_id. destruct r; simpl; eauto; congruence. Qed.

Lemma plain_no_undefined l :
  plain (JArr l) -> Forall (fun r => r <> JUndefined) l.
Proof.
  intros H. inversion H as [| | | |l0 Hl|]; subst.
  rewrite List.Forall_forall in *. intros r Hr. apply plain_defined. auto.
Qed.

(** [saveRoom] of an object either returns normally, and then the JSON
    form of the object is in the store, or throws. *)
Lemma saveRoom_outcome w o :
  (result (saveRoom (JObj o)) w = Ok tt
   /\ stored_under (room_key (obj_get "id" o)) (jclean (JObj o))
                   (run (saveRoom (JObj o)) w))
  \/ (exists e, result (saveRoom (JObj o)) w = Throw e).
Proof.
  unfold stored_under.
  destruct (isCloudEnabled w) eqn:Ec.
  - destruct (remote_fault w) as [msg|] eqn:Ef.
    + right. exists (Error msg). unfold result.
      now rewrite (saveRoom_cloud_fault w o msg Ec Ef).
    + left. pose proof (saveRoom_cloud_ok w o Ec Ef) as Hs.
      unfold run, result. rewrite Hs. simpl. rewrite Ec.
      split; [reflexivity|apply lookup_insert_eq].
  - destruct (getLocalRooms_plain w) as (v & Hv & Hp).
    pose proof (saveRoom_local w (JObj o) v Ec Hv) as Hs.
    destruct (receiver "findIndex" v) as [l|e] eqn:Er;
      [|right; exists e; unfold result; now rewrite Hs].
    destruct (find_index (same_id (JObj o)) l 0) as [idx|e] eqn:Hidx;
      [|right; exists e; unfold result; now rewrite Hs].
    left.
    pose proof (getLocalRooms_storage w) as (_ & _ & Hce & _).
    set (l' := match idx with
               | Some i => <[i := JObj o]> l
               | None => (l ++ [JObj o])%list
               end) in *.
    assert (Hrun : run (saveRoom (JObj o)) w = local_write l' (run getLocalRooms w))
      by (unfold run at 1; now rewrite Hs).
    assert (Hres : result (saveRoom (JObj o)) w = Ok tt)
      by (unfold result; now rewrite Hs).
    rewrite Hrun, Hres.
    change (isCloudEnabled (local_write l' (run getLocalRooms w)))
      with (isCloudEnabled (run getLocalRooms w)).
    rewrite Hce, Ec. split; [reflexivity|].
    exists (map eclean l'). unfold result.
    rewrite local_write_reads_clean. split; [reflexivity|].
    apply (List.in_map eclean _ (JObj o)). subst l'.
    destruct idx as [i|].
    + apply find_index_bound in Hidx.
      apply list_elem_of_In, list_elem_of_lookup. exists i.
      apply list_lookup_insert_eq. lia.
    + apply List.in_or_app. right. now left.
Qed.

(** On a backend that takes writes [saveRoom] of an object returns
    normally. *)
Lemma saveRoom_accepted w o :
  store_accepts w -> result (saveRoom (JObj o)) w = Ok tt.
Proof.
  unfold store_accepts.
  destruct (isCloudEnabled w) eqn:Ec.
  - intros Hf. unfold result. now rewrite (saveRoom_cloud_ok w o Ec Hf).
  - intros (l & Hl & Hnn).
    destruct (getLocalRooms_plain w) as (v & Hv & Hp).
    rewrite Hl in Hv. injection Hv as <-.
    pose proof (saveRoom_local w (JObj o) (JArr l) Ec Hl) as Hs.
    simpl receiver in Hs. cbv iota in Hs.
    destruct (find_index_total (same_id (JObj o)) l 0) as [idx Hidx].
    { pose proof (plain_no_undefined l Hp) as Hnu.
      rewrite List.Forall_forall in *. intros r Hr.
      apply same_id_total; auto. }
    rewrite Hidx in Hs. unfold result. now rewrite Hs.
Qed.

(** C1. [createRoom] builds a record whose identifier is the platform's
    random UUID when there is one and otherwise [room_], the millisecond
    timestamp, [_] and up to seven base-36 characters of a random draw,
    and whose messages are exactly one system message carrying the date
    text.  The record is returned only when the awaited write has
    succeeded, with its JSON form then in the store; a failed write makes
    the call throw instead; on a backend that takes writes the record is
    returned.  Identifiers of two creations differ whenever their draws
    differ: different UUIDs, or a different timestamp or random suffix. *)
Theorem createRoom_record (admin : JsVal) (env : Entropy) (title : string)
    (password : option string) (w : World) :
  let room := newRoom admin env title password in
  let call := createRoom admin env title password in
  (get_prop room "id" = Ok (JStr (uniqueId env))
   /\ get_prop room "messages" = Ok (JArr [systemMessage admin env])
   /\ get_prop (systemMessage admin env) "type" = Ok (JStr "system")
   /\ get_prop (systemMessage admin env) "senderName" = Ok (JStr "System")
   /\ get_prop (systemMessage admin env) "text" = Ok (JStr (dateText env)))
  /\ ((result call w = Ok room
       /\ stored_under (uniqueId env) (jclean room) (run call w))
      \/ (exists e, result call w = Throw e))
  /\ (store_accepts w -> result call w = Ok room)
  /\ (forall env',
        crypto_randomUUID env = None -> crypto_randomUUID env' = None ->
        id_time env <> id_time env'
        \/ substring 2 7 (id_random36 env) <> substring 2 7 (id_random36 env') ->
        uniqueId env <> uniqueId env')
  /\ (forall env' u u',
        crypto_randomUUID env = Some u -> crypto_randomUUID env' = Some u' ->
        u <> u' -> uniqueId env <> uniqueId env').
Proof.
  intros room call. subst room call.
  split; [repeat split; reflexivity|].
  unfold createRoom, newRoom.
  match goal with
  | |- context [saveRoom (JObj ?props)] => set (o := props)
  end.
  assert (Hbind : forall r, result (saveRoom (JObj o)) w = r ->
            result (saveRoom (JObj o);; ret (JObj o)) w
            = match r with Ok _ => Ok (JObj o) | Throw e => Throw e end
            /\ run (saveRoom (JObj o);; ret (JObj o)) w
               = run (saveRoom (JObj o)) w).
  { intros r <-. unfold result, run, bind, ret.
    destruct (saveRoom (JObj o) w) as [w' [[]|e]]; auto. }
  split; [|split; [|split]].
  - destruct (saveRoom_outcome w o) as [[Hok Hst]|[e He]].
    + left. destruct (Hbind _ Hok) as [-> ->]. split; [reflexivity|exact Hst].
    + right. exists e. now destruct (Hbind _ He) as [-> _].
  - intros Hacc. now destruct (Hbind _ (saveRoom_accepted w o Hacc)) as [-> _].
  - intros env' Hn Hn' Hdiff Heq. unfold uniqueId in Heq.
    rewrite Hn, Hn' in Heq. apply fallback_id_inj in Heq. tauto.
  - intros env' u u' Hu Hu' Hne. unfold uniqueId. rewrite Hu, Hu'. exact Hne.
Qed.

Lemma createRoom_record_witness :
  result (createRoom (JStr "ADMIN") sample_entropy "General" None) empty_local
  = Ok (newRoom (JStr "ADMIN") sample_entropy "General" None)
  /\ uniqueId sample_entropy <> uniqueId later_entropy.
Proof.
  pose proof (createRoom_record (JStr "ADMIN") sample_entropy "General" None
                empty_local) as (_ & _ & Hret & Hfresh & _).
  split.
  - apply Hret. exists []. split; [reflexivity|constructor].
  - apply Hfresh; [reflexivity|reflexivity|]. left. discriminate.
Defined.

(** C1, as stated, fails: two creations that receive the same timestamp
    and the same random draw on a platform without [crypto.randomUUID]
    get the same identifier, and the second record replaces the first in
    the store. *)
Lemma createRoom_same_draw_collides :
  exists first second stored,
    result (createRoom (JStr "ADMIN") sample_entropy "First" None) empty_local
    = Ok first
    /\ result (createRoom (JStr "ADMIN") sample_entropy "Second" None)
         (run (createRoom (JStr "ADMIN") sample_entropy "First" None) empty_local)
       = Ok second
    /\ get_prop first "id" = get_prop second "id"
    /\ result getLocalRooms
         (run (createRoom (JStr "ADMIN") sample_entropy "Second" None)
            (run (createRoom (JStr "ADMIN") sample_entropy "First" None)
               empty_local))
       = Ok (JArr [stored])
    /\ get_prop stored "title" = Ok (JStr "Second").
Proof.
  do 3 eexists. repeat split; vm_compute; reflexivity.
Qed.

(** ** Reading and writing properties *)

Lemma obj_get_replace_same k x o :
  obj_has k o = true -> obj_get k (obj_replace k x o) = x.
Proof.
  induction o as [|[k' x'] o IH]; simpl; [discriminate|].
  destruct (String.eqb k k') eqn:Ek; simpl; rewrite Ek; auto.
Qed.

Lemma obj_get_replace_other k k' x o :
  k <> k' -> obj_get k (obj_replace k' x o) = obj_get k o.
Proof.
  intros Hne. induction o as [|[k0 x0] o IH]; simpl; [reflexivity|].
  destruct (String.eqb_spec k' k0) as [<-|Hk0]; simpl.
  - destruct (String.eqb_spec k k'); [contradiction|reflexivity].
  - now rewrite IH.
Qed.

Lemma obj_get_insert_same i k x o :
  obj_has k o = false -> obj_get k (obj_insert_index i k x o) = x.
Proof.
  induction o as [|[k' x'] o IH]; simpl.
  - now rewrite String.eqb_refl.
  - intros H. apply orb_false_iff in H as [Ek Ho].
    destruct (array_index k') as [j|]; [destruct (i <? j)%N|]; simpl;
      rewrite ?String.eqb_refl, ?Ek; auto.
Qed.

Lemma obj_get_insert_other i k k' x o :
  k <> k' -> obj_get k (obj_insert_index i k' x o) = obj_get k o.
Proof.
  intros Hne. apply String.eqb_neq in Hne.
  induction o as [|[k0 x0] o IH]; simpl; [now rewrite Hne|].
  destruct (array_index k0) as [j|]; [destruct (i <? j)%N|]; simpl;
    rewrite ?Hne, ?IH; reflexivity.
Qed.

Lemma obj_get_snoc_same k x o :
  obj_has k o = false -> obj_get k (o ++ [(k, x)]) = x.
Proof.
  induction o as [|[k' x'] o IH]; simpl.
  - now rewrite String.eqb_refl.
  - intros H. apply orb_false_iff in H as [-> Ho]. auto.
Qed.

Lemma obj_get_snoc_other k k' x o :
  k <> k' -> obj_get k (o ++ [(k', x)]) = obj_get k o.
Proof.
  intros Hne. apply String.eqb_neq in Hne.
  induction o as [|[k0 x0] o IH]; simpl; [now rewrite Hne|].
  now rewrite IH.
Qed.

(** Reading a property that was just set gives the value set. *)
Lemma obj_get_set_same k x o : obj_get k (obj_set k x o) = x.
Proof.
  unfold obj_set. destruct (obj_has k o) eqn:Eh.
  - now apply obj_get_replace_same.
  - destruct (array_index k);
      [now apply obj_get_insert_same|now apply obj_get_snoc_same].
Qed.

(** Setting one property leaves the others as they were. *)
Lemma obj_get_set_other k k' x o :
  k <> k' -> obj_get k (obj_set k' x o) = obj_get k o.
Proof.
  intros Hne. unfold obj_set. destruct (obj_has k' o).
  - now apply obj_get_replace_other.
  - destruct (array_index k');
      [now apply obj_get_insert_other|now apply obj_get_snoc_other].
Qed.

(** ** What the subscription delivers *)

Lemma values_or_empty_array r field x :
  values_or_empty r field = Ok x -> exists items, x = JArr items.
Proof.
  unfold values_or_empty. destruct (get_prop r field) as [y|e]; [|discriminate].
  destruct (truthy y); [|intros [= <-]; eauto].
  destruct (Object_values y) as [l|e]; [|discriminate]. intros [= <-]. eauto.
Qed.

Lemma reshape_sequences r r' : reshape r = Ok r' -> sequences r'.
Proof.
  unfold reshape.
  destruct (values_or_empty r "messages") as [ms|e] eqn:Ems; [|discriminate].
  destruct (values_or_empty r "memos") as [mm|e] eqn:Emm; [|discriminate].
  intros [= <-].
  apply values_or_empty_array in Ems as [ims ->].
  apply values_or_empty_array in Emm as [imm ->].
  eexists _, ims, imm. split; [reflexivity|]. split.
  - rewrite obj_get_set_other by discriminate. apply obj_get_set_same.
  - apply obj_get_set_same.
Qed.

Lemma map_res_all {A B} (f : A -> Res B) (P : B -> Prop) l l' :
  (forall x y, f x = Ok y -> P y) -> map_res f l = Ok l' -> Forall P l'.
Proof.
  intros Hf. revert l'; induction l as [|x l IH]; simpl; intros l' H.
  - injection H as <-. constructor.
  - destruct (f x) as [y|e] eqn:Ex; [|discriminate].
    destruct (map_res f l) as [r|e]; [|discriminate].
    injection H as <-. constructor; eauto.
Qed.

Lemma map_res_total {A B} (f : A -> Res B) (l : list A) :
  Forall (fun x => exists y, f x = Ok y) l -> exists l', map_res f l = Ok l'.
Proof.
  induction 1 as [|x l [y Hy] Hl [l' IH]]; simpl; [eauto|].
  rewrite Hy, IH. eauto.
Qed.

Lemma values_or_empty_total r field :
  r <> JNull -> r <> JUndefined -> exists x, values_or_empty r field = Ok x.
Proof.
  intros Hn Hu. unfold values_or_empty.
  destruct (get_prop r field) as [y|e] eqn:Ey.
  - destruct y; simpl; eauto. destruct b; eauto.
    destruct (n =? 0); simpl; eauto. destruct (String.eqb s ""); simpl; eauto.
  - destruct r; simpl in Ey; congruence.
Qed.

Lemma reshape_total r :
  r <> JNull -> r <> JUndefined -> exists r', reshape r = Ok r'.
Proof.
  intros Hn Hu. unfold reshape.
  destruct (values_or_empty_total r "messages" Hn Hu) as [ms ->].
  destruct (values_or_empty_total r "memos" Hn Hu) as [mm ->]. eauto.
Qed.

Lemma loadLocal_parsed w s v :
  localStorage w !! ROOMS_KEY = Some s -> JSON_parse s = Some v ->
  loadLocal w = (w, Ok v).
Proof.
  intros Hs Hv. unfold loadLocal, bind, getItem, lift, JSON_parse_js.
  rewrite Hs. destruct (String.eqb_spec s "") as [->|Hne]; [discriminate|].
  simpl. now rewrite Hv.
Qed.

(** C2. In cloud mode every collection handed to the subscriber is a list
    of records whose [messages] and [memos] are arrays, whatever the
    snapshot value was; a snapshot without data, such as that of an empty
    remote node, yields the empty list; and the listener does hand over a
    collection whenever no child of the snapshot is null.  In local mode
    the subscriber receives the stored collection exactly as it parses,
    and the empty list when nothing is stored. *)
Theorem subscription_delivers :
  (forall data delivered,
      onRoomsValue data = Ok delivered ->
      exists l, delivered = JArr l /\ Forall sequences l)
  /\ (forall data, truthy data = false -> onRoomsValue data = Ok (JArr []))
  /\ (forall w, isCloudEnabled w = true -> remote_rooms w = ∅ ->
                result subscribeToRooms w = Ok (Some (JArr [])))
  /\ (forall data children,
        Object_values data = Ok children ->
        Forall (fun r => r <> JNull /\ r <> JUndefined) children ->
        exists delivered, onRoomsValue data = Ok delivered)
  /\ (forall w s v,
        isCloudEnabled w = false -> localStorage w !! ROOMS_KEY = Some s ->
        JSON_parse s = Some v -> result subscribeToRooms w = Ok (Some v))
  /\ (forall w,
        isCloudEnabled w = false -> localStorage w !! ROOMS_KEY = None ->
        result subscribeToRooms w = Ok (Some (JArr []))).
Proof.
  repeat apply conj.
  - intros data delivered. unfold onRoomsValue.
    destruct (truthy data); [|intros [= <-]; exists []; split; [reflexivity|constructor]].
    destruct (Object_values data) as [children|e]; [|discriminate].
    destruct (map_res reshape children) as [l|e] eqn:El; [|discriminate].
    intros [= <-]. exists l. split; [reflexivity|].
    eapply map_res_all; [|exact El]. apply reshape_sequences.
  - intros data Hd. unfold onRoomsValue. now rewrite Hd.
  - intros w Hc He. unfold result, subscribeToRooms, deliver. rewrite Hc.
    unfold rooms_snapshot. rewrite He. reflexivity.
  - intros data children Hv Hall. unfold onRoomsValue.
    destruct (truthy data); [|eauto]. rewrite Hv.
    destruct (map_res_total reshape children) as [l ->]; [|eauto].
    rewrite List.Forall_forall in *. intros r Hr.
    apply reshape_total; now apply Hall.
  - intros w s v Hc Hs Hv. unfold result, subscribeToRooms, deliver.
    rewrite Hc. unfold bind. now rewrite (loadLocal_parsed w s v Hs Hv).
  - intros w Hc Hs. unfold result, subscribeToRooms, deliver. rewrite Hc.
    unfold bind, loadLocal, getItem, bind. now rewrite Hs.
Qed.

Lemma subscription_delivers_witness :
  exists delivered,
    onRoomsValue (JObj [("r1", mapped_room)]) = Ok delivered
    /\ exists l, delivered = JArr l /\ Forall sequences l.
Proof.
  destruct subscription_delivers as (Hshape & _ & _ & Htotal & _).
  destruct (Htotal (JObj [("r1", mapped_room)]) [mapped_room] eq_refl)
    as [delivered Hd].
  - repeat constructor; discriminate.
  - exists delivered. split; [exact Hd|]. exact (Hshape _ _ Hd).
Defined.

(** C2, as stated, fails in local mode: a file whose messages are a
    key-indexed mapping is accepted by [importRoom], and the subscriber
    then receives that record with its mapping, not a sequence. *)
Lemma local_subscription_delivers_mapping :
  exists r ms,
    result (importRoom mapped_room) empty_local = Ok true
    /\ result subscribeToRooms (run (importRoom mapped_room) empty_local)
       = Ok (Some (JArr [r]))
    /\ get_prop r "messages" = Ok (JObj ms)
    /\ Array_isArray (JObj ms) = false.
Proof.
  do 2 eexists. repeat split; vm_compute; reflexivity.
Qed.

(** ** Failures of the remote backend *)

Lemma deleteRoom_cloud_fault w roomId msg :
  isCloudEnabled w = true -> remote_fault w = Some msg ->
  deleteRoom roomId w
  = (with_console ("Error deleting room from cloud:" :: console w) w,
     Throw (Error msg)).
Proof.
  intros Hc Hf. unfold deleteRoom. rewrite Hc.
  unfold try_catch, remote_remove. now rewrite Hf.
Qed.

Lemma transaction_fault key update w msg :
  remote_fault w = Some msg ->
  detach (remote_transaction key update) w
  = (with_unhandled (Error msg :: unhandled w) w, Ok tt).
Proof. intros Hf. unfold detach, remote_transaction. now rewrite Hf. Qed.

(** C4. A failed remote write or remove reaches the caller of [saveRoom],
    [deleteRoom] and [createRoom] as the backend's error, and
    [handleCreateRoom], which awaits [createRoom], turns it into an alert
    and enters no room.  [addMessage], [addMemo] and [deleteMemo] start
    their transaction without awaiting it: the caller gets a normal
    return and the rejection stays unhandled.  A failure of the
    subscription is logged, the callback is not called, and nothing else
    changes. *)
Theorem failure_policy (admin : JsVal) (env : Entropy) (title : string)
    (password : option string) (o : Props) (roomId memoId : string)
    (item : JsVal) :
  propagates_failure (saveRoom (JObj o))
  /\ propagates_failure (deleteRoom roomId)
  /\ propagates_failure (createRoom admin env title password)
  /\ (forall w msg,
        isCloudEnabled w = true -> remote_fault w = Some msg ->
        result (handleCreateRoom admin env title password) w = Ok None
        /\ alerts (run (handleCreateRoom admin env title password) w)
           = create_failed_alert :: alerts w
        /\ remote_rooms (run (handleCreateRoom admin env title password) w)
           = remote_rooms w)
  /\ swallows_failure (addMessage roomId item)
  /\ swallows_failure (addMemo roomId item)
  /\ swallows_failure (deleteMemo roomId memoId)
  /\ (forall w e,
        isCloudEnabled w = true ->
        deliver (SnapshotError e) w
        = (with_console ("RTDB sync error:" :: console w) w, Ok None)).
Proof.
  assert (Hcreate : forall w msg,
             isCloudEnabled w = true -> remote_fault w = Some msg ->
             createRoom admin env title password w
             = (with_console ("Error saving room to cloud:" :: console w) w,
                Throw (Error msg))).
  { intros w msg Hc Hf. unfold createRoom, newRoom.
    apply bind_throw. now apply saveRoom_cloud_fault. }
  repeat apply conj.
  - intros w msg Hc Hf. unfold result.
    now rewrite (saveRoom_cloud_fault w o msg Hc Hf).
  - intros w msg Hc Hf. unfold result.
    now rewrite (deleteRoom_cloud_fault w roomId msg Hc Hf).
  - intros w msg Hc Hf. unfold result. now rewrite (Hcreate w msg Hc Hf).
  - intros w msg Hc Hf. unfold result, run, handleCreateRoom, try_catch.
    rewrite (bind_throw _ _ w _ _ (Hcreate w msg Hc Hf)). auto.
  - intros w msg Hc Hf. unfold result, run, addMessage. rewrite Hc.
    rewrite (transaction_fault _ _ w msg Hf). auto.
  - intros w msg Hc Hf. unfold result, run, addMemo. rewrite Hc.
    rewrite (transaction_fault _ _ w msg Hf). auto.
  - intros w msg Hc Hf. unfold result, run, deleteMemo. rewrite Hc.
    rewrite (transaction_fault _ _ w msg Hf). auto.
  - intros w e Hc. unfold deliver. now rewrite Hc.
Qed.

Lemma failure_policy_witness :
  result (saveRoom sample_room) failing_cloud = Throw (Error "PERMISSION_DENIED")
  /\ result (addMessage "r1" sample_message) failing_cloud = Ok tt.
Proof.
  destruct (failure_policy (JStr "ADMIN") sample_entropy "General" None
              [("id", JStr "r1"); ("title", JStr "Imported");
               ("messages", JArr [sample_message]); ("memos", JArr [])]
              "r1" "memo1" sample_message)
    as (Hsave & _ & _ & _ & Hadd & _).
  split.
  - apply Hsave; reflexivity.
  - apply (Hadd failing_cloud "PERMISSION_DENIED"); reflexivity.
Defined.

(** C4, as stated, fails: the failure of the remote transaction started
    by [addMessage] does not reach its caller. *)
Lemma addMessage_failure_not_propagated :
  ~ propagates_failure (addMessage "r1" sample_message).
Proof.
  intros H.
  specialize (H failing_cloud "PERMISSION_DENIED" eq_refl eq_refl).
  vm_compute in H. discriminate H.
Qed.

(** ** Importing a room *)

(** [importRoom] always returns a flag. *)
Lemma importRoom_never_throws roomData w :
  exists b, result (importRoom roomData) w = Ok b.
Proof.
  unfold result, importRoom, try_catch, bind, lift, ret, detach.
  destruct (truthy roomData) eqn:Et; simpl; [|eauto].
  destruct (get_prop roomData "id") as [id|e]; simpl; [|eauto].
  destruct (truthy id); simpl; [|eauto].
  destruct (get_prop roomData "title") as [title|e]; simpl; [|eauto].
  destruct (truthy title); simpl; [|eauto].
  destruct (saveRoom roomData w) as [w' [[]|e]]; eauto.
Qed.

(** A value without a usable identifier or title is refused and the
    world stays as it was. *)
Lemma importRoom_refuses roomData w :
  truthy roomData = false
  \/ (exists id, get_prop roomData "id" = Ok id /\ truthy id = false)
  \/ (exists title, get_prop roomData "title" = Ok title /\ truthy title = false) ->
  importRoom roomData w = (w, Ok false).
Proof.
  unfold importRoom, try_catch, bind, lift, ret.
  intros [Hr|[(id & Hid & Ht)|(title & Hti & Ht)]].
  - now rewrite Hr.
  - destruct (truthy roomData); [|reflexivity]. simpl. rewrite Hid, Ht.
    reflexivity.
  - destruct (truthy roomData); [|reflexivity]. simpl.
    destruct (get_prop roomData "id") as [id|e]; [|reflexivity].
    destruct (truthy id); [|reflexivity]. simpl. rewrite Hti, Ht. reflexivity.
Qed.

(** C7. With the remote backend refusing the write, [importRoom] of a
    valid room returns true although no room was stored; the rejection
    of the write is left unhandled. *)
Theorem importRoom_true_without_upsert :
  result (importRoom sample_room) failing_cloud = Ok true
  /\ remote_rooms (run (importRoom sample_room) failing_cloud) = ∅
  /\ localStorage (run (importRoom sample_room) failing_cloud) = ∅
  /\ unhandled (run (importRoom sample_room) failing_cloud)
     = [Error "PERMISSION_DENIED"].
Proof. repeat split; vm_compute; reflexivity. Qed.

(** [handleConfirmDelete] does not await [deleteRoom]: when the remote
    remove fails the handler still returns normally, the room stays, and
    the rejection is left unhandled. *)
Lemma handleConfirmDelete_drops_failure :
  result (handleConfirmDelete (Some "r1")) failing_cloud = Ok tt
  /\ unhandled (run (handleConfirmDelete (Some "r1")) failing_cloud)
     = [Error "PERMISSION_DENIED"]
  /\ alerts (run (handleConfirmDelete (Some "r1")) failing_cloud) = [].
Proof. repeat split; vm_compute; reflexivity. Qed.

Lemma stored_under_same key r w w' :
  isCloudEnabled w' = isCloudEnabled w -> remote_rooms w' = remote_rooms w ->
  localStorage w' = localStorage w ->
  stored_under key r w -> stored_under key r w'.
Proof.
  unfold stored_under. intros -> -> Hls.
  now rewrite (getLocalRooms_same_store w' w Hls).
Qed.

Lemma getLocalRooms_alerts w : alerts (run getLocalRooms w) = alerts w.
Proof.
  unfold run.
  destruct (getLocalRooms_cases w)
    as [[-> _]|[(s & v & _ & _ & _ & ->)|(s & _ & _ & _ & ->)]]; reflexivity.
Qed.

Lemma saveRoom_alerts o w : alerts (run (saveRoom (JObj o)) w) = alerts w.
Proof.
  destruct (isCloudEnabled w) eqn:Ec.
  - destruct (remote_fault w) as [msg|] eqn:Ef; unfold run.
    + now rewrite (saveRoom_cloud_fault w o msg Ec Ef).
    + now rewrite (saveRoom_cloud_ok w o Ec Ef).
  - destruct (getLocalRooms_plain w) as (v & Hv & _).
    unfold run at 1. rewrite (saveRoom_local w (JObj o) v Ec Hv).
    destruct (receiver "findIndex" v) as [l|e];
      [destruct (find_index (same_id (JObj o)) l 0) as [idx|e]|];
      simpl; apply getLocalRooms_alerts.
Qed.

(** C6. A room that is JSON data and has a non-empty identifier and
    title is read back unchanged from its exported file, and importing
    that file on a backend that takes writes reports success and leaves
    the very same record, hence the original identifier, title, messages
    and memos, in the store. *)
Theorem export_import_round_trip (w : World) (o : Props) (file : string) :
  jclean (JObj o) = JObj o ->
  truthy (obj_get "id" o) = true ->
  truthy (obj_get "title" o) = true ->
  store_accepts w ->
  exportedFile (JObj o) = Some file ->
  JSON_parse file = Some (JObj o)
  /\ result (importRoom (JObj o)) w = Ok true
  /\ alerts (run (handleFileLoaded file) w) = import_ok_alert :: alerts w
  /\ stored_under (room_key (obj_get "id" o)) (JObj o)
                  (run (handleFileLoaded file) w).
Proof.
  intros Hclean Hid Htitle Hacc Hfile.
  pose proof (JSON_parse_stringify (JObj o) file Hfile) as Hparse.
  rewrite Hclean in Hparse.
  destruct (saveRoom_outcome w o) as [[Hok Hst]|[e He]];
    [|rewrite (saveRoom_accepted w o Hacc) in He; discriminate].
  rewrite Hclean in Hst.
  assert (Himp : importRoom (JObj o) w = (run (saveRoom (JObj o)) w, Ok true)).
  { unfold importRoom, try_catch, bind, lift, ret, detach. simpl.
    rewrite Hid, Htitle. simpl.
    rewrite (run_result (saveRoom (JObj o)) w), Hok. reflexivity. }
  assert (Hload : handleFileLoaded file w
                  = (with_alerts (import_ok_alert :: alerts (run (saveRoom (JObj o)) w))
                       (run (saveRoom (JObj o)) w), Ok tt)).
  { unfold handleFileLoaded, try_catch, bind, lift, JSON_parse_js.
    rewrite Hparse, Himp. reflexivity. }
  assert (Hfinal : run (handleFileLoaded file) w
                   = with_alerts
                       (import_ok_alert :: alerts (run (saveRoom (JObj o)) w))
                       (run (saveRoom (JObj o)) w))
    by (unfold run at 1; now rewrite Hload).
  split; [exact Hparse|]. split; [unfold result; now rewrite Himp|].
  rewrite Hfinal. split.
  - simpl. now rewrite saveRoom_alerts.
  - eapply stored_under_same; [| | |exact Hst]; reflexivity.
Qed.

Lemma export_import_round_trip_witness :
  JSON_parse sample_file = Some sample_room
  /\ result (importRoom sample_room) empty_local = Ok true
  /\ alerts (run (handleFileLoaded sample_file) empty_local)
     = import_ok_alert :: alerts empty_local
  /\ stored_under "r1" sample_room
                  (run (handleFileLoaded sample_file) empty_local).
Proof.
  apply (export_import_round_trip empty_local
           [("id", JStr "r1"); ("title", JStr "Imported");
            ("messages", JArr [sample_message]); ("memos", JArr [])]).
  - reflexivity.
  - reflexivity.
  - reflexivity.
  - exists []. split; [reflexivity|constructor].
  - reflexivity.
Defined.

(** C6, as stated, fails: a room created with an empty title exports to a
    file that the import refuses, and nothing is stored. *)
Lemma untitled_room_is_not_imported :
  exists file,
    exportedFile untitled_room = Some file
    /\ alerts (run (handleFileLoaded file) empty_local) = [import_invalid_alert]
    /\ localStorage (run (handleFileLoaded file) empty_local) = ∅
    /\ result getLocalRooms (run (handleFileLoaded file) empty_local)
       = Ok (JArr []).
Proof.
  eexists. repeat split; vm_compute; reflexivity.
Qed.

(** ** The credential setup dialog *)

Lemma reportError_shown e shown tried : error (reportError e shown tried) <> "".
Proof.
  unfold reportError. simpl.
  destruct (String.eqb_spec (error_message e) ""); [discriminate|assumption].
Qed.

(** C8. For a parsed configuration with a project identifier and no
    database URL, the URL proposed is
    [https://<projectId>-default-rtdb.firebaseio.com], the project
    identifier being put in as a template literal does.  When the API key
    is present too, the user is asked once to confirm that URL; if the
    user declines, nothing is persisted, nothing is probed, the dialog
    stays open and shows an error, which is the missing-URL message when
    the API key is present; and the dialog persists a configuration and
    closes only after the user has confirmed, the persisted text then
    being the configuration with that URL added. *)
Theorem handleSave_missing_databaseURL (configJson : string) (env : SetupEnv)
    (w : World) (o : Props) :
  parseConfig configJson env = Ok (JObj o) ->
  truthy (obj_get "projectId" o) = true ->
  truthy (obj_get "databaseURL" o) = false ->
  let url := inferredUrl (obj_get "projectId" o) in
  let w' := fst (handleSave configJson env w) in
  let dialog := snd (handleSave configJson env w) in
  (forall projectId,
     obj_get "projectId" o = JStr projectId ->
     url = "https://" +:+ projectId +:+ "-default-rtdb.firebaseio.com")
  /\ (truthy (obj_get "apiKey" o) = true -> prompts dialog = [confirmText url])
  /\ (confirm_answer env = false ->
      w' = w /\ closed dialog = false /\ probed dialog = []
      /\ error dialog <> ""
      /\ (truthy (obj_get "apiKey" o) = true -> error dialog = missing_databaseURL))
  /\ (closed dialog = true ->
      confirm_answer env = true
      /\ prompts dialog = [confirmText url]
      /\ probed dialog = [JObj (obj_set "databaseURL" (JStr url) o)]
      /\ localStorage w' !! FIREBASE_CONFIG_KEY
         = JSON_stringify (JObj (obj_set "databaseURL" (JStr url) o)))
  /\ (closed dialog = false -> w' = w).
Proof.
  intros Hparse Hpid Hurl url w' dialog. subst url w' dialog.
  split; [intros projectId ->; reflexivity|].
  unfold handleSave. rewrite Hparse. simpl get_prop. simpl truthy.
  simpl typeof_object. cbv iota beta. simpl negb. simpl orb. cbv iota.
  unfold missingFields. rewrite Hpid, Hurl. simpl negb.
  destruct (truthy (obj_get "apiKey" o)) eqn:Eapi;
    [destruct (confirm_answer env) eqn:Ec;
     [destruct (probe_failure env) as [msg|]|]|];
    simpl;
    repeat (repeat match goal with |- _ /\ _ => split end; intros);
    try discriminate; try reflexivity.
  apply lookup_insert_eq.
Qed.

Lemma handleSave_missing_databaseURL_witness :
  inferredUrl (JStr "demo-chat")
  = "https://demo-chat-default-rtdb.firebaseio.com"
  /\ prompts (snd (handleSave "{ apiKey: 'AIzaSy-example', projectId: 'demo-chat' }"
                     declining_user empty_local))
     = [confirmText "https://demo-chat-default-rtdb.firebaseio.com"]
  /\ fst (handleSave "{ apiKey: 'AIzaSy-example', projectId: 'demo-chat' }"
            declining_user empty_local) = empty_local
  /\ closed (snd (handleSave "{ apiKey: 'AIzaSy-example', projectId: 'demo-chat' }"
                    declining_user empty_local)) = false
  /\ probed (snd (handleSave "{ apiKey: 'AIzaSy-example', projectId: 'demo-chat' }"
                    declining_user empty_local)) = []
  /\ error (snd (handleSave "{ apiKey: 'AIzaSy-example', projectId: 'demo-chat' }"
                   declining_user empty_local)) = missing_databaseURL.
Proof.
  destruct (handleSave_missing_databaseURL
              "{ apiKey: 'AIzaSy-example', projectId: 'demo-chat' }"
              declining_user empty_local
              [("apiKey", JStr "AIzaSy-example"); ("projectId", JStr "demo-chat")]
              eq_refl eq_refl eq_refl)
    as (Hu & Hp & Hd & _).
  destruct (Hd eq_refl) as (Hw & Hc & Hpr & _ & He).
  pose proof (Hu "demo-chat" eq_refl) as Hurl.
  split; [exact Hurl|]. split; [exact (Hp eq_refl)|].
  split; [exact Hw|]. split; [exact Hc|]. split; [exact Hpr|exact (He eq_refl)].
Defined.

(** ** Concurrent appends *)

Lemma JsVal_eqb_eq a : forall b, JsVal_eqb a b = true -> a = b.
Proof.
  induction a as [| |x|x|x|l IH|o IH] using JsVal_nested_ind;
    intros [| |y|y|y|l'|o']; simpl; try discriminate; try reflexivity.
  - intros H. apply Bool.eqb_prop in H. now subst.
  - intros H. apply Z.eqb_eq in H. now subst.
  - intros H. apply String.eqb_eq in H. now subst.
  - intros H. f_equal. revert l' H.
    induction IH as [|x l Hx Hl IHl]; intros [|y l'] H;
      simpl in H; try discriminate H; try reflexivity.
    apply andb_true_iff in H as [Hxy H]. f_equal; auto.
  - intros H. f_equal. revert o' H.
    induction IH as [|[k x] o Hx Ho IHo]; intros [|[k' y] o'] H;
      simpl in H; try discriminate H; try reflexivity.
    apply andb_true_iff in H as [H Ht]. apply andb_true_iff in H as [Hk Hxy].
    apply String.eqb_eq in Hk. subst. f_equal; [f_equal|]; auto.
Qed.

Lemma JsVal_eqb_refl a : JsVal_eqb a a = true.
Proof.
  induction a as [| |x|x|x|l IH|o IH] using JsVal_nested_ind; simpl;
    try reflexivity.
  - now destruct x.
  - apply Z.eqb_refl.
  - apply String.eqb_refl.
  - induction IH as [|x l Hx Hl IHl]; [reflexivity|]. now rewrite Hx, IHl.
  - induction IH as [|[k x] o Hx Ho IHo]; [reflexivity|].
    simpl in Hx. now rewrite String.eqb_refl, Hx, IHo.
Qed.

Lemma as_array_truthy v : truthy v = true -> exists l, as_array v = Ok l.
Proof. destruct v; simpl; try discriminate; eauto. Qed.

(** On an object the update function of [addMessage] and [addMemo]
    returns the object with the item appended. *)
Lemma append_to_object field item o :
  append_to field item (JObj o) = Ok (JObj (appended field item o)).
Proof.
  unfold append_to, appended, field_items. simpl.
  destruct (truthy (obj_get field o)) eqn:Et; simpl.
  - destruct (as_array_truthy _ Et) as [l ->]. reflexivity.
  - now rewrite obj_get_set_same.
Qed.

Lemma append_to_null field item : append_to field item JNull = Ok JNull.
Proof. reflexivity. Qed.

Lemma field_items_appended field item o :
  field_items field (appended field item o) = (field_items field o ++ [item])%list.
Proof.
  unfold appended. unfold field_items at 1. now rewrite obj_get_set_same.
Qed.

Lemma append_to_view field item v :
  view_ok v -> exists n, append_to field item v = Ok n /\ n <> JUndefined /\ view_ok n.
Proof.
  intros [->|[o ->]].
  - exists JNull. repeat split; [discriminate|now left].
  - exists (JObj (appended field item o)).
    rewrite append_to_object. repeat split; [discriminate|right; eauto].
Qed.

Lemma move_keeps_phase update srv p p' srv' :
  (forall v, view_ok v -> exists n, update v = Ok n /\ n <> JUndefined) ->
  view_ok srv -> phase_ok update p ->
  Txn.move update srv p p' srv' -> phase_ok update p'.
Proof.
  intros Hu Hsrv Hp Hm. destruct Hm; simpl in *; auto.
  - destruct (Hu view Hp) as (n & Hn & Hd). congruence.
  - destruct (Hu view Hp) as (n & Hn & Hd). congruence.
Qed.

Lemma server_ok_object m1 m2 r0 s :
  server_ok m1 m2 r0 s -> exists o, Txn.server s = JObj o.
Proof.
  unfold server_ok. destruct (Txn.first s), (Txn.second s); intros H;
    try (destruct H as [H|H]); eauto.
Qed.

Lemma appenders_inv_step m1 m2 r0 s s' :
  appenders_inv m1 m2 r0 s ->
  Txn.step (append_to "messages" m1) (append_to "messages" m2) s s' ->
  appenders_inv m1 m2 r0 s'.
Proof.
  assert (Hu : forall m v, view_ok v ->
             exists n, append_to "messages" m v = Ok n /\ n <> JUndefined).
  { intros m v Hv. destruct (append_to_view "messages" m v Hv) as (n & ? & ? & _).
    eauto. }
  intros (H1 & H2 & Hs) Hstep.
  assert (Hsrv : view_ok (Txn.server s))
    by (right; eapply server_ok_object; eassumption).
  destruct Hstep as [srv p p' srv' q Hm|srv p q q' srv' Hm];
    unfold appenders_inv, server_ok in *; simpl in *.
  - split; [eapply move_keeps_phase; eauto|]. split.
    { exact H2. }
    destruct Hm as [view new Hn Hd|view Ha|view e He|view new He|view new He];
      simpl in *.
    + destruct q; auto.
    + destruct (Hu m1 view H1) as (n & Hn & Hd). congruence.
    + destruct (Hu m1 view H1) as (n & Hn & Hd). congruence.
    + apply JsVal_eqb_eq in He. subst view. destruct H1 as [_ Hn].
      destruct q; simpl in *; try contradiction; rewrite Hs in Hn;
        rewrite append_to_object in Hn; injection Hn as <-; auto.
    + destruct q; auto.
  - split; [exact H1|]. split; [eapply move_keeps_phase; eauto|].
    destruct Hm as [view new Hn Hd|view Ha|view e He|view new He|view new He];
      simpl in *.
    + destruct p; auto.
    + destruct (Hu m2 view H2) as (n & Hn & Hd). congruence.
    + destruct (Hu m2 view H2) as (n & Hn & Hd). congruence.
    + apply JsVal_eqb_eq in He. subst view. destruct H2 as [_ Hn].
      destruct p; simpl in *; try contradiction; rewrite Hs in Hn;
        rewrite append_to_object in Hn; injection Hn as <-; auto.
    + destruct p; auto.
Qed.

Lemma appenders_inv_steps m1 m2 r0 s s' :
  appenders_inv m1 m2 r0 s ->
  Txn.steps (append_to "messages" m1) (append_to "messages" m2) s s' ->
  appenders_inv m1 m2 r0 s'.
Proof.
  intros Hinv Hsteps. induction Hsteps; eauto using appenders_inv_step.
Qed.

Lemma phase_cost_shift srv srv' p :
  (Txn.phase_cost srv' p <= Txn.phase_cost srv p + 2)%nat.
Proof.
  destruct p; simpl; try lia.
  - destruct (JsVal_eqb srv' view), (JsVal_eqb srv view); lia.
  - destruct (JsVal_eqb srv' view), (JsVal_eqb srv view); lia.
Qed.

Lemma move_cost update srv p p' srv' q :
  Txn.move update srv p p' srv' ->
  (Txn.phase_cost srv' p' + Txn.phase_cost srv' q
   < Txn.phase_cost srv p + Txn.phase_cost srv q)%nat.
Proof.
  intros Hm. destruct Hm; simpl.
  - destruct (JsVal_eqb srv view); lia.
  - destruct (JsVal_eqb srv view); lia.
  - destruct (JsVal_eqb srv view); lia.
  - rewrite H. pose proof (phase_cost_shift srv new q). lia.
  - rewrite H, JsVal_eqb_refl. lia.
Qed.

Lemma step_cost u1 u2 s s' :
  Txn.step u1 u2 s s' -> (Txn.cost s' < Txn.cost s)%nat.
Proof.
  intros [srv p p' srv' q Hm|srv p q q' srv' Hm]; unfold Txn.cost; simpl.
  - now apply (move_cost u1).
  - pose proof (move_cost u2 srv q q' srv' p Hm). lia.
Qed.

Lemma phase_can_move update srv p :
  (forall v, view_ok v -> exists n, update v = Ok n /\ n <> JUndefined) ->
  phase_ok update p -> p <> Txn.Committed ->
  exists p' srv', Txn.move update srv p p' srv'.
Proof.
  intros Hu Hp Hne. destruct p as [view|view new| | |e]; simpl in Hp;
    try contradiction.
  - destruct (Hu view Hp) as (n & Hn & Hd).
    exists (Txn.Sent view n), srv. now constructor.
  - destruct (JsVal_eqb srv view) eqn:Ee.
    + exists Txn.Committed, new. now constructor.
    + exists (Txn.Trying srv), srv. now constructor.
Qed.

Lemma phase_committed_dec (p : Txn.Phase) :
  p = Txn.Committed \/ p <> Txn.Committed.
Proof. destruct p; auto; right; discriminate. Qed.

Lemma appenders_progress m1 m2 r0 s :
  appenders_inv m1 m2 r0 s -> ~ Txn.done s ->
  exists s', Txn.step (append_to "messages" m1) (append_to "messages" m2) s s'.
Proof.
  assert (Hu : forall m v, view_ok v ->
             exists n, append_to "messages" m v = Ok n /\ n <> JUndefined).
  { intros m v Hv. destruct (append_to_view "messages" m v Hv) as (n & ? & ? & _).
    eauto. }
  intros (H1 & H2 & _) Hnd. destruct s as [srv p q]. simpl in *.
  destruct (phase_committed_dec p) as [->|Hp].
  - destruct (phase_committed_dec q) as [->|Hq]; [exfalso; apply Hnd; split; reflexivity|].
    destruct (phase_can_move _ srv q (Hu m2) H2 Hq) as (q' & srv' & Hm).
    eexists. apply Txn.step_second. exact Hm.
  - destruct (phase_can_move _ srv p (Hu m1) H1 Hp) as (p' & srv' & Hm).
    eexists. apply Txn.step_first. exact Hm.
Qed.

Lemma appenders_outcome (m1 m2 : JsVal) (r0 : Props) (v1 v2 : JsVal) :
  view_ok v1 -> view_ok v2 ->
  let update1 := append_to "messages" m1 in
  let update2 := append_to "messages" m2 in
  let start := two_appenders r0 v1 v2 in
  (forall s,
      Txn.steps update1 update2 start s -> Txn.done s ->
      Txn.server s = JObj (appended "messages" m2 (appended "messages" m1 r0))
      \/ Txn.server s
         = JObj (appended "messages" m1 (appended "messages" m2 r0)))
  /\ (forall s,
        Txn.steps update1 update2 start s -> ~ Txn.done s ->
        exists s', Txn.step update1 update2 s s')
  /\ (forall s s', Txn.step update1 update2 s s' -> (Txn.cost s' < Txn.cost s)%nat)
  /\ (exists s, Txn.steps update1 update2 start s /\ Txn.done s).
Proof.
  intros Hv1 Hv2 update1 update2 start. subst update1 update2 start.
  assert (Hstart : appenders_inv m1 m2 r0 (two_appenders r0 v1 v2))
    by (repeat split; assumption).
  assert (Hsafe : forall s,
             appenders_inv m1 m2 r0 s -> Txn.done s ->
             Txn.server s
             = JObj (appended "messages" m2 (appended "messages" m1 r0))
             \/ Txn.server s
                = JObj (appended "messages" m1 (appended "messages" m2 r0))).
  { intros [srv p q] (_ & _ & Hs) [Hp Hq]. simpl in *. subst p q.
    unfold server_ok in Hs. simpl in Hs. exact Hs. }
  repeat apply conj.
  - intros s Hsteps. apply Hsafe. eapply appenders_inv_steps; eassumption.
  - intros s Hsteps. apply appenders_progress with (r0 := r0).
    eapply appenders_inv_steps; eassumption.
  - intros s s'. apply step_cost.
  - assert (Hrun : forall n s,
               (Txn.cost s <= n)%nat ->
               Txn.steps (append_to "messages" m1) (append_to "messages" m2)
                 (two_appenders r0 v1 v2) s ->
               exists s',
                 Txn.steps (append_to "messages" m1) (append_to "messages" m2)
                   (two_appenders r0 v1 v2) s' /\ Txn.done s').
    { induction n as [|n IH]; intros s Hc Hsteps.
      - destruct (phase_committed_dec (Txn.first s)) as [Hp|Hp];
          [destruct (phase_committed_dec (Txn.second s)) as [Hq|Hq]|].
        + exists s. split; [assumption|split; assumption].
        + destruct (appenders_progress m1 m2 r0 s) as [s' Hs'].
          * eapply appenders_inv_steps; eassumption.
          * intros [_ Hd]. contradiction.
          * apply step_cost in Hs'. lia.
        + destruct (appenders_progress m1 m2 r0 s) as [s' Hs'].
          * eapply appenders_inv_steps; eassumption.
          * intros [Hd _]. contradiction.
          * apply step_cost in Hs'. lia.
      - destruct (phase_committed_dec (Txn.first s)) as [Hp|Hp];
          [destruct (phase_committed_dec (Txn.second s)) as [Hq|Hq]|].
        + exists s. split; [assumption|split; assumption].
        + destruct (appenders_progress m1 m2 r0 s) as [s' Hs'].
          * eapply appenders_inv_steps; eassumption.
          * intros [_ Hd]. contradiction.
          * apply (IH s'); [apply step_cost in Hs'; lia|].
            econstructor; eassumption.
        + destruct (appenders_progress m1 m2 r0 s) as [s' Hs'].
          * eapply appenders_inv_steps; eassumption.
          * intros [Hd _]. contradiction.
          * apply (IH s'); [apply step_cost in Hs'; lia|].
            econstructor; eassumption. }
    apply (Hrun _ (two_appenders r0 v1 v2) (Nat.le_refl _)). constructor.
Qed.


(** ** The transactions that [addMessage] starts *)

Lemma append_to_outcome field item v :
  match append_to field item v with
  | Ok n => (n = JUndefined -> v = JUndefined) /\ (n = JNull -> v = JNull)
  | Throw _ => True
  end.
Proof.
  destruct v as [| |b|n|s|l|o]; try (split; congruence).
  - destruct b; simpl; [exact I|split; congruence].
  - unfold append_to. destruct (truthy (JNum n)); [exact I|split; congruence].
  - unfold append_to. destruct (truthy (JStr s)); [exact I|split; congruence].
  - rewrite append_to_object. split; discriminate.
Qed.

Lemma replica_child key v : child_value key (replica key v) = v.
Proof.
  unfold child_value, replica. cbn [remote_rooms].
  destruct v; try reflexivity; now rewrite lookup_singleton_eq.
Qed.

(** What [addMessage] proposes on a client's copy of the room is what
    its update function makes of that copy. *)
Lemma proposed_addMessage roomId m v :
  proposed (addMessage roomId m) roomId v = append_to "messages" m v.
Proof.
  unfold proposed, run, addMessage, detach, remote_transaction.
  assert (Hc : isCloudEnabled (replica roomId v) = true) by reflexivity.
  assert (Hf : remote_fault (replica roomId v) = None) by reflexivity.
  rewrite Hc, Hf, replica_child.
  pose proof (append_to_outcome "messages" m v) as Ho.
  destruct (append_to "messages" m v) as [n|e]; [|reflexivity].
  destruct Ho as [Hu Hn].
  destruct n;
    try (unfold write_child, with_remote_rooms, child_value, replica;
         cbn [fst unhandled remote_rooms];
         rewrite ?lookup_insert_eq, ?lookup_delete_eq; reflexivity).
  cbn [fst]. replace (unhandled (replica roomId v)) with (@nil JsError)
    by reflexivity.
  now rewrite replica_child, (Hu eq_refl).
Qed.

Lemma move_ext (u u' : JsVal -> Res JsVal) srv p p' srv' :
  (forall v, u v = u' v) ->
  Txn.move u srv p p' srv' -> Txn.move u' srv p p' srv'.
Proof.
  intros He Hm. destruct Hm;
    [apply Txn.move_compute|apply Txn.move_abort|apply Txn.move_fail
    |apply Txn.move_commit|apply Txn.move_retry];
    rewrite <- ?He; assumption.
Qed.

Lemma step_ext (u1 u2 u1' u2' : JsVal -> Res JsVal) s s' :
  (forall v, u1 v = u1' v) -> (forall v, u2 v = u2' v) ->
  Txn.step u1 u2 s s' -> Txn.step u1' u2' s s'.
Proof.
  intros H1 H2 Hs. destruct Hs;
    [apply Txn.step_first|apply Txn.step_second]; eauto using move_ext.
Qed.

Lemma steps_ext (u1 u2 u1' u2' : JsVal -> Res JsVal) s s' :
  (forall v, u1 v = u1' v) -> (forall v, u2 v = u2' v) ->
  Txn.steps u1 u2 s s' -> Txn.steps u1' u2' s s'.
Proof.
  intros H1 H2 Hs. induction Hs; [constructor|].
  econstructor; eauto using step_ext.
Qed.

(** [addMessage] on a backend that takes requests and holds the room. *)
Lemma addMessage_cloud_run roomId m w o :
  isCloudEnabled w = true -> remote_fault w = None ->
  remote_rooms w !! roomId = Some (JObj o) ->
  addMessage roomId m w
  = (with_remote_rooms
       (<[roomId := JObj (appended "messages" m o)]> (remote_rooms w)) w,
     Ok tt).
Proof.
  intros Hc Hf Hr.
  unfold addMessage, detach, remote_transaction, child_value.
  now rewrite Hc, Hf, Hr, append_to_object.
Qed.

Lemma addMessage_twice roomId m m' w o :
  isCloudEnabled w = true -> remote_fault w = None ->
  remote_rooms w !! roomId = Some (JObj o) ->
  remote_rooms (run (addMessage roomId m;; addMessage roomId m') w) !! roomId
  = Some (JObj (appended "messages" m' (appended "messages" m o))).
Proof.
  intros Hc Hf Hr. unfold run.
  rewrite (bind_ok _ _ w _ _ (addMessage_cloud_run roomId m w o Hc Hf Hr)).
  rewrite (addMessage_cloud_run roomId m' _ (appended "messages" m o));
    try assumption; simpl; now rewrite lookup_insert_eq.
Qed.



(** ** The stored configuration *)

Lemma getFirebaseConfig_cases w :
  (getFirebaseConfig w = (w, Ok JNull)
   /\ (localStorage w !! FIREBASE_CONFIG_KEY = None
       \/ localStorage w !! FIREBASE_CONFIG_KEY = Some ""
       \/ exists s, localStorage w !! FIREBASE_CONFIG_KEY = Some s
                    /\ JSON_parse s = None))
  \/ (exists s v, localStorage w !! FIREBASE_CONFIG_KEY = Some s /\ s <> ""
                  /\ JSON_parse s = Some v /\ getFirebaseConfig w = (w, Ok v)).
Proof.
  unfold getFirebaseConfig, try_catch, bind, getItem.
  destruct (localStorage w !! FIREBASE_CONFIG_KEY) as [s|] eqn:Es;
    [|left; split; [reflexivity|auto]].
  destruct (String.eqb_spec s "") as [->|Hne]; simpl;
    [left; split; [reflexivity|auto]|].
  unfold lift, JSON_parse_js.
  destruct (JSON_parse s) as [v|] eqn:Ep.
  - right. exists s, v. auto.
  - left. split; [reflexivity|]. right. right. exists s. auto.
Qed.

Lemma JSON_parse_empty : JSON_parse "" = None.
Proof. reflexivity. Qed.

(** X1. [getFirebaseConfig] never throws and changes nothing.  It
    answers null when no configuration is stored, when the stored text is
    empty and when the stored text is not JSON; for a stored text that
    the reader reads, with numbers that JavaScript holds exactly, it
    answers the value read. *)
Theorem getFirebaseConfig_total (w : World) :
  let stored := localStorage w !! FIREBASE_CONFIG_KEY in
  (exists v, getFirebaseConfig w = (w, Ok v))
  /\ (stored = None \/ stored = Some "" ->
      result getFirebaseConfig w = Ok JNull)
  /\ (forall s, stored = Some s -> is_JSON s = false ->
                result getFirebaseConfig w = Ok JNull)
  /\ (forall s v, stored = Some s -> JSON_parse s = Some v ->
                  exact v = true -> result getFirebaseConfig w = Ok v).
Proof.
  intros stored. subst stored. unfold result.
  destruct (getFirebaseConfig_cases w)
    as [[Hg [Hn | [He | (s & Hs & Hp)]]] | (s & v & Hs & Hne & Hp & Hg)];
    rewrite Hg; (split; [eexists; reflexivity|]); simpl.
  - rewrite Hn. repeat split; auto; intros; discriminate.
  - rewrite He. repeat split; auto.
    intros s v [= <-] Hp. rewrite JSON_parse_empty in Hp. discriminate.
  - rewrite Hs. repeat split; auto.
    intros s' v' [= <-] Hp'. congruence.
  - rewrite Hs. repeat split.
    + intros [Hk|Hk]; [discriminate|]. injection Hk as ->. now destruct Hne.
    + intros s' [= <-] Hj. apply not_JSON_refused in Hj. congruence.
    + intros s' v' [= <-] Hp' _. congruence.
Qed.

Lemma getFirebaseConfig_total_witness :
  result getFirebaseConfig (world_with_config "{not json") = Ok JNull
  /\ result getFirebaseConfig (world_with_config complete_config_text)
     = Ok (JObj complete_config).
Proof.
  destruct (getFirebaseConfig_total (world_with_config "{not json"))
    as (_ & _ & Hbad & _).
  destruct (getFirebaseConfig_total (world_with_config complete_config_text))
    as (_ & _ & _ & Hgood).
  split; [exact (Hbad "{not json" eq_refl eq_refl)|].
  exact (Hgood complete_config_text (JObj complete_config)
           eq_refl eq_refl eq_refl).
Defined.


Lemma getFirebaseConfig_stored w s v :
  localStorage w !! FIREBASE_CONFIG_KEY = Some s -> JSON_parse s = Some v ->
  getFirebaseConfig w = (w, Ok v).
Proof.
  intros Hs Hp.
  destruct (getFirebaseConfig_cases w)
    as [[Hg [Hn | [He | (s' & Hs' & Hp')]]] | (s' & v' & Hs' & Hne & Hp' & Hg)];
    rewrite Hs in *; try discriminate.
  - injection He as ->. rewrite JSON_parse_empty in Hp. discriminate.
  - injection Hs' as <-. congruence.
  - injection Hs' as <-. congruence.
Qed.

Lemma getFirebaseConfig_unreadable w s :
  localStorage w !! FIREBASE_CONFIG_KEY = Some s -> JSON_parse s = None ->
  getFirebaseConfig w = (w, Ok JNull).
Proof.
  intros Hs Hp.
  destruct (getFirebaseConfig_cases w)
    as [[Hg _] | (s' & v' & Hs' & Hne & Hp' & Hg)]; [exact Hg|].
  rewrite Hs in Hs'. injection Hs' as <-. congruence.
Qed.

Lemma saveFirebaseConfig_store config w :
  saveFirebaseConfig config w
  = (with_localStorage
       (<[FIREBASE_CONFIG_KEY :=
            match JSON_stringify config with
            | Some text => text
            | None => "undefined"
            end]> (localStorage w)) w, Ok tt).
Proof. unfold saveFirebaseConfig. now destruct (JSON_stringify config). Qed.

(** X2. What [saveFirebaseConfig] stores is what [getFirebaseConfig]
    reads next: the configuration in its JSON form (members that are
    undefined are gone), which is the configuration itself when it came
    from a JSON text; storing undefined reads back as null.  No other key
    of local storage is touched. *)
Theorem saveFirebaseConfig_read_back (config : JsVal) (w : World) :
  let w' := run (saveFirebaseConfig config) w in
  result (saveFirebaseConfig config) w = Ok tt
  /\ result getFirebaseConfig w'
     = Ok (match config with JUndefined => JNull | _ => jclean config end)
  /\ (plain config -> result getFirebaseConfig w' = Ok config)
  /\ (forall key, key <> FIREBASE_CONFIG_KEY ->
                  localStorage w' !! key = localStorage w !! key).
Proof.
  intros w'. subst w'. unfold run, result.
  rewrite saveFirebaseConfig_store. cbn [fst snd].
  set (w' := with_localStorage _ w).
  assert (Hk : localStorage w' !! FIREBASE_CONFIG_KEY
               = Some (match JSON_stringify config with
                       | Some text => text
                       | None => "undefined"
                       end))
    by (subst w'; simpl; apply lookup_insert_eq).
  assert (Hread : getFirebaseConfig w'
                  = (w', Ok (match config with
                             | JUndefined => JNull
                             | _ => jclean config
                             end))).
  { destruct (JSON_stringify config) as [text|] eqn:Et.
    - rewrite (getFirebaseConfig_stored w' text (jclean config) Hk
                 (JSON_parse_stringify config text Et)).
      destruct config; try reflexivity. discriminate.
    - destruct config; try discriminate.
      now rewrite (getFirebaseConfig_unreadable w' "undefined" Hk eq_refl). }
  split; [reflexivity|]. rewrite Hread. cbn [snd].
  split; [reflexivity|]. split.
  - intros Hp. rewrite (plain_jclean config Hp).
    destruct config; try reflexivity. inversion Hp.
  - intros key Hne. subst w'. simpl. now apply lookup_insert_ne.
Qed.

(** ** Page load and disconnection *)

Lemma getFirebaseConfig_pure w :
  exists v, getFirebaseConfig w = (w, Ok v).
Proof.
  destruct (getFirebaseConfig_cases w) as [[Hg _] | (s & v & _ & _ & _ & Hg)];
    eauto.
Qed.

Lemma initFirebase_outcome sdk w :
  initFirebase sdk w
  = match result getFirebaseConfig w with
    | Ok config =>
        if truthy config then
          if sdk config then (with_isCloudEnabled true w, Ok tt)
          else (with_isCloudEnabled false
                  (with_console ("Failed to initialize Firebase" :: console w) w),
                Ok tt)
        else (w, Ok tt)
    | Throw e => (w, Throw e)
    end.
Proof.
  destruct (getFirebaseConfig_pure w) as (v & Hg).
  unfold initFirebase, bind, result. rewrite Hg. cbn [snd].
  destruct (truthy v); [|reflexivity]. now destruct (sdk v).
Qed.

Lemma getFirebaseConfig_same_store w w' :
  localStorage w' = localStorage w ->
  result getFirebaseConfig w' = result getFirebaseConfig w.
Proof.
  intros Hs. unfold result, getFirebaseConfig, try_catch, bind, getItem.
  rewrite Hs. destruct (localStorage w !! FIREBASE_CONFIG_KEY) as [s|];
    [|reflexivity].
  destruct (negb (String.eqb s "")); [|reflexivity].
  unfold lift. now destruct (JSON_parse_js (Some s)).
Qed.

Lemma getLocalRooms_same_rooms w w' :
  localStorage w' !! ROOMS_KEY = localStorage w !! ROOMS_KEY ->
  result getLocalRooms w' = result getLocalRooms w.
Proof.
  intros Hs. unfold result, getLocalRooms, try_catch, bind, getItem.
  rewrite Hs. destruct (localStorage w !! ROOMS_KEY) as [s|]; [|reflexivity].
  destruct (negb (String.eqb s "")); [|reflexivity].
  unfold lift. now destruct (JSON_parse_js (Some s)).
Qed.

(** The page after a load, by what [getFirebaseConfig] reads. *)
Lemma loadPage_outcome sdk w :
  loadPage sdk w
  = match result getFirebaseConfig w with
    | Ok config =>
        if truthy config then
          if sdk config then (with_isCloudEnabled true w, Ok tt)
          else (with_isCloudEnabled false
                  (with_console ("Failed to initialize Firebase" :: console w) w),
                Ok tt)
        else (with_isCloudEnabled false w, Ok tt)
    | Throw e => (with_isCloudEnabled false w, Throw e)
    end.
Proof.
  unfold loadPage. rewrite initFirebase_outcome.
  rewrite (getFirebaseConfig_same_store w (with_isCloudEnabled false w) eq_refl).
  destruct (result getFirebaseConfig w) as [config|e]; [|reflexivity].
  destruct (truthy config); [|reflexivity]. now destruct (sdk config).
Qed.

Lemma getFirebaseConfig_result w :
  result getFirebaseConfig w
  = Ok (match localStorage w !! FIREBASE_CONFIG_KEY with
        | Some s => match JSON_parse s with Some v => v | None => JNull end
        | None => JNull
        end).
Proof.
  unfold result.
  destruct (getFirebaseConfig_cases w)
    as [[Hg [Hn | [He | (s & Hs & Hp)]]] | (s & v & Hs & Hne & Hp & Hg)];
    rewrite Hg; cbn [snd].
  - now rewrite Hn.
  - now rewrite He.
  - now rewrite Hs, Hp.
  - now rewrite Hs, Hp.
Qed.

(** X3. A page load never throws and leaves both stores as they are.
    With no stored configuration, or a stored text that is not JSON, the
    page is in local mode and nothing is logged.  With a stored text
    that the reader reads, it is in cloud mode exactly when the value is
    truthy and the database client takes it, and a truthy value that the
    client refuses is logged. *)
Theorem loadPage_mode (sdk_accepts : JsVal -> bool) (w : World) :
  let stored := localStorage w !! FIREBASE_CONFIG_KEY in
  let w' := run (loadPage sdk_accepts) w in
  result (loadPage sdk_accepts) w = Ok tt
  /\ localStorage w' = localStorage w
  /\ remote_rooms w' = remote_rooms w
  /\ (stored = None \/ (exists s, stored = Some s /\ is_JSON s = false) ->
      isCloudEnabled w' = false /\ console w' = console w)
  /\ (forall s v,
        stored = Some s -> JSON_parse s = Some v -> exact v = true ->
        isCloudEnabled w' = truthy v && sdk_accepts v
        /\ console w'
           = if truthy v && negb (sdk_accepts v)
             then "Failed to initialize Firebase" :: console w
             else console w)
  /\ (isCloudEnabled w' = true -> console w' = console w).
Proof.
  intros stored w'. subst stored w'. unfold run, result at 1.
  rewrite loadPage_outcome, getFirebaseConfig_result.
  destruct (localStorage w !! FIREBASE_CONFIG_KEY) as [s|] eqn:Es;
    [destruct (JSON_parse s) as [v|] eqn:Ep|].
  - destruct (truthy v) eqn:Ev; [destruct (sdk_accepts v) eqn:Ea|];
      cbn [fst snd]; repeat apply conj; try reflexivity; try discriminate;
      try (intros s' v' [= <-] Hp' _; rewrite Ep in Hp'; injection Hp' as <-;
           rewrite Ev, ?Ea; split; reflexivity);
      try (intros [Hn|(s' & [= <-] & Hj)];
           [discriminate|apply not_JSON_refused in Hj; congruence]).
  - simpl. repeat apply conj; try reflexivity; try discriminate;
      try (intros s' v' [= <-] Hp' _; congruence).
    intros _. split; reflexivity.
  - simpl. repeat apply conj; try reflexivity; try discriminate;
      try (intros s' v' [=]).
    intros _. split; reflexivity.
Qed.

Lemma loadPage_mode_witness :
  isCloudEnabled (run (loadPage (fun _ => true))
                    (world_with_config "{not json")) = false
  /\ isCloudEnabled (run (loadPage (fun _ => true))
                       (world_with_config complete_config_text)) = true
  /\ console (run (loadPage (fun _ => false))
                (world_with_config complete_config_text))
     = ["Failed to initialize Firebase"].
Proof.
  destruct (loadPage_mode (fun _ => true) (world_with_config "{not json"))
    as (_ & _ & _ & Hbad & _).
  destruct (loadPage_mode (fun _ => true)
              (world_with_config complete_config_text))
    as (_ & _ & _ & _ & Hgood & _).
  destruct (loadPage_mode (fun _ => false)
              (world_with_config complete_config_text))
    as (_ & _ & _ & _ & Hrefused & _).
  split; [|split].
  - apply Hbad. right. exists "{not json". split; reflexivity.
  - exact (proj1 (Hgood complete_config_text (JObj complete_config)
                    eq_refl eq_refl eq_refl)).
  - exact (proj2 (Hrefused complete_config_text (JObj complete_config)
                    eq_refl eq_refl eq_refl)).
Defined.


Lemma clearFirebaseConfig_store w :
  clearFirebaseConfig w
  = (with_localStorage (delete FIREBASE_CONFIG_KEY (localStorage w)) w, Ok ToRoot).
Proof. reflexivity. Qed.

(** X4. Disconnecting: [clearFirebaseConfig] removes the stored
    configuration and nothing else (the rooms kept locally and the rooms
    of the remote backend stay), sends the browser to the root address,
    and the page loaded next is in local mode whatever the database
    client would accept. *)
Theorem clearFirebaseConfig_disconnects (sdk_accepts : JsVal -> bool)
    (w : World) :
  let w' := run clearFirebaseConfig w in
  result clearFirebaseConfig w = Ok ToRoot
  /\ result getFirebaseConfig w' = Ok JNull
  /\ (forall key, key <> FIREBASE_CONFIG_KEY ->
                  localStorage w' !! key = localStorage w !! key)
  /\ remote_rooms w' = remote_rooms w
  /\ console w' = console w
  /\ isCloudEnabled (run (loadPage sdk_accepts) w') = false
  /\ result getLocalRooms (run (loadPage sdk_accepts) w')
     = result getLocalRooms w.
Proof.
  intros w'. subst w'.
  assert (Hrun : run clearFirebaseConfig w
                 = with_localStorage
                     (delete FIREBASE_CONFIG_KEY (localStorage w)) w)
    by reflexivity.
  rewrite Hrun. clear Hrun. unfold result at 1.
  rewrite clearFirebaseConfig_store. cbn [snd].
  set (w' := with_localStorage _ w).
  assert (Hk : localStorage w' !! FIREBASE_CONFIG_KEY = None)
    by (subst w'; simpl; apply lookup_delete_eq).
  split; [reflexivity|]. split.
  { now rewrite getFirebaseConfig_result, Hk. }
  split; [intros key Hne; subst w'; simpl; now apply lookup_delete_ne|].
  split; [reflexivity|]. split; [reflexivity|].
  assert (Hload : loadPage sdk_accepts w' = (with_isCloudEnabled false w', Ok tt)).
  { rewrite loadPage_outcome, getFirebaseConfig_result, Hk. reflexivity. }
  unfold run. rewrite Hload. cbn [fst]. split; [reflexivity|].
  apply getLocalRooms_same_rooms. subst w'. simpl.
  now apply lookup_delete_ne.
Qed.

(** ** Outcomes of the credential dialog *)

(** The one way the dialog closes: the text yields an object with an API
    key and a project identifier, a missing database URL was completed
    on confirmation, and the probe of the completed configuration
    succeeded; that configuration is then persisted. *)
Lemma handleSave_closed configJson env w :
  closed (snd (handleSave configJson env w)) = true ->
  exists o,
    parseConfig configJson env = Ok (JObj o)
    /\ truthy (obj_get "apiKey" o) = true
    /\ truthy (obj_get "projectId" o) = true
    /\ probe_failure env = None
    /\ (truthy (obj_get "databaseURL" o) = false -> confirm_answer env = true)
    /\ let config' :=
         if truthy (obj_get "databaseURL" o) then o
         else obj_set "databaseURL"
                (JStr (inferredUrl (obj_get "projectId" o))) o in
       handleSave configJson env w
       = (run (saveFirebaseConfig (JObj config')) w,
          mkDialog ""%string false
            (if truthy (obj_get "databaseURL" o) then []
             else [confirmText (inferredUrl (obj_get "projectId" o))])
            [JObj config'] true).
Proof.
  unfold handleSave.
  destruct (parseConfig configJson env) as [config|e]; [|discriminate].
  destruct config as [| |b|n|s|l|o];
    try (simpl; unfold missingFields; simpl;
         repeat match goal with
                | |- context [if ?c then _ else _] => destruct c
                end; discriminate).
  simpl get_prop. simpl truthy. simpl typeof_object. cbv iota beta.
    simpl negb. simpl orb. cbv iota.
  unfold missingFields.
  destruct (truthy (obj_get "apiKey" o)) eqn:Eapi;
    destruct (truthy (obj_get "projectId" o)) eqn:Epid;
    simpl negb; cbn [app]; cbv iota; try discriminate.
  destruct (truthy (obj_get "databaseURL" o)) eqn:Eurl; simpl negb; cbv iota.
  - destruct (probe_failure env) as [msg|] eqn:Ep; [discriminate|].
    intros _. exists o. rewrite Eapi, Epid, Eurl.
    repeat split; auto; discriminate.
  - destruct (confirm_answer env) eqn:Ec; [|discriminate].
    simpl set_prop. cbv iota.
    destruct (probe_failure env) as [msg|] eqn:Ep; [discriminate|].
    intros _. exists o. rewrite Eapi, Epid, Eurl. repeat split; auto.
Qed.

Lemma handleSave_open configJson env w :
  closed (snd (handleSave configJson env w)) = false ->
  fst (handleSave configJson env w) = w
  /\ error (snd (handleSave configJson env w)) <> "".
Proof.
  unfold handleSave.
  destruct (parseConfig configJson env) as [config|e];
    [|intros _; split; [reflexivity|apply reportError_shown]].
  destruct (negb (truthy config) || negb (typeof_object config));
    [intros _; split; [reflexivity|apply reportError_shown]|].
  destruct (get_prop config "apiKey") as [apiKey|e];
    [|intros _; split; [reflexivity|apply reportError_shown]].
  destruct (get_prop config "projectId") as [projectId|e];
    [|intros _; split; [reflexivity|apply reportError_shown]].
  destruct (get_prop config "databaseURL") as [databaseURL|e];
    [|intros _; split; [reflexivity|apply reportError_shown]].
  destruct (missingFields apiKey projectId);
    [|intros _; split; [reflexivity|apply reportError_shown]].
  destruct (negb (truthy databaseURL)).
  - destruct (confirm_answer env).
    + destruct (set_prop config "databaseURL" _) as [c|e];
        [|intros _; split; [reflexivity|apply reportError_shown]].
      destruct (probe_failure env);
        [intros _; split; [reflexivity|apply reportError_shown]|discriminate].
    + intros _. split; [reflexivity|discriminate].
  - destruct (probe_failure env);
      [intros _; split; [reflexivity|apply reportError_shown]|discriminate].
Qed.

Lemma handleSave_not_testing configJson env w :
  isTesting (snd (handleSave configJson env w)) = false.
Proof.
  unfold handleSave.
  repeat match goal with
         | |- context [match ?c with _ => _ end] => destruct c
         end; reflexivity.
Qed.

Lemma inferredUrl_truthy projectId : truthy (JStr (inferredUrl projectId)) = true.
Proof. reflexivity. Qed.

(** X5. Every run of [handleSave] ends with the testing flag off.  A run
    that does not close the dialog changes nothing and shows a non-empty
    error.  A run that closes the dialog has probed exactly one
    configuration, the probe succeeded, and that very configuration, an
    object with an API key, a project identifier and a database URL, is
    what was persisted; no other key of local storage and nothing of the
    remote backend is touched. *)
Theorem handleSave_persists_only_probed (configJson : string) (env : SetupEnv)
    (w : World) :
  let w' := fst (handleSave configJson env w) in
  let dialog := snd (handleSave configJson env w) in
  isTesting dialog = false
  /\ (closed dialog = false -> w' = w /\ error dialog <> "")
  /\ (closed dialog = true ->
      error dialog = "" /\ probe_failure env = None
      /\ exists o,
           probed dialog = [JObj o]
           /\ truthy (obj_get "apiKey" o) = true
           /\ truthy (obj_get "projectId" o) = true
           /\ truthy (obj_get "databaseURL" o) = true
           /\ localStorage w' !! FIREBASE_CONFIG_KEY = JSON_stringify (JObj o))
  /\ (forall key, key <> FIREBASE_CONFIG_KEY ->
                  localStorage w' !! key = localStorage w !! key)
  /\ remote_rooms w' = remote_rooms w
  /\ isCloudEnabled w' = isCloudEnabled w.
Proof.
  intros w' dialog. subst w' dialog.
  split; [apply handleSave_not_testing|].
  split; [apply handleSave_open|].
  assert (Hcl : closed (snd (handleSave configJson env w)) = true ->
                exists o,
                  handleSave configJson env w
                  = (run (saveFirebaseConfig (JObj o)) w,
                     mkDialog ""%string false
                       (prompts (snd (handleSave configJson env w)))
                       [JObj o] true)
                  /\ probe_failure env = None
                  /\ truthy (obj_get "apiKey" o) = true
                  /\ truthy (obj_get "projectId" o) = true
                  /\ truthy (obj_get "databaseURL" o) = true).
  { intros Hc.
    destruct (handleSave_closed configJson env w Hc)
      as (o & _ & Hapi & Hpid & Hprobe & _ & Hrun). cbv zeta in Hrun.
    destruct (truthy (obj_get "databaseURL" o)) eqn:Eurl.
    - exists o. rewrite Hrun. cbn [snd prompts]. auto.
    - exists (obj_set "databaseURL" (JStr (inferredUrl (obj_get "projectId" o))) o).
      rewrite Hrun. cbn [snd prompts].
      rewrite !obj_get_set_other by discriminate. rewrite obj_get_set_same.
      auto using inferredUrl_truthy. }
  split.
  { intros Hc. destruct (Hcl Hc) as (o & Hrun & Hprobe & Hapi & Hpid & Hurl).
    rewrite Hrun. cbn [fst snd error probed].
    split; [reflexivity|]. split; [assumption|]. exists o.
    repeat split; try assumption.
    unfold run. rewrite saveFirebaseConfig_store. cbn [fst]. simpl.
    apply lookup_insert_eq. }
  destruct (closed (snd (handleSave configJson env w))) eqn:Ec.
  - destruct (Hcl eq_refl) as (o & Hrun & _). rewrite Hrun. cbn [fst].
    unfold run. rewrite saveFirebaseConfig_store. cbn [fst].
    split; [|split; reflexivity].
    intros key Hne. simpl. now apply lookup_insert_ne.
  - destruct (handleSave_open configJson env w Ec) as [-> _]. auto.
Qed.

(** A configuration with all three fields, as pasted from the console. *)
Lemma complete_config_closes :
  closed (snd (handleSave "" (mkSetupEnv (Some (JObj complete_config)) false None)
                 empty_local)) = true.
Proof. reflexivity. Qed.

(** X6. When the dialog closes, the next page load reads the very
    configuration that was probed, in its JSON form, and is in cloud mode
    exactly when the database client takes it.  When the text was read
    as strict JSON, what is read back is the probed configuration
    itself. *)
Theorem handleSave_then_loadPage (sdk_accepts : JsVal -> bool)
    (configJson : string) (env : SetupEnv) (w : World) :
  closed (snd (handleSave configJson env w)) = true ->
  let w' := fst (handleSave configJson env w) in
  exists o,
    probed (snd (handleSave configJson env w)) = [JObj o]
    /\ result getFirebaseConfig w' = Ok (jclean (JObj o))
    /\ isCloudEnabled (run (loadPage sdk_accepts) w')
       = sdk_accepts (jclean (JObj o))
    /\ (eval_result env = None -> jclean (JObj o) = JObj o).
Proof.
  intros Hc w'. subst w'.
  destruct (handleSave_closed configJson env w Hc)
    as (o & Hparse & _ & _ & _ & _ & Hrun). cbv zeta in Hrun.
  set (o' := if truthy (obj_get "databaseURL" o) then o
             else obj_set "databaseURL"
                    (JStr (inferredUrl (obj_get "projectId" o))) o) in *.
  exists o'. rewrite Hrun. cbn [fst snd probed].
  assert (Hst : saveFirebaseConfig (JObj o') w
                = (with_localStorage
                     (<[FIREBASE_CONFIG_KEY :=
                          string_of_list_ascii (json_text (JObj o'))]>
                        (localStorage w)) w, Ok tt))
    by apply saveFirebaseConfig_store.
  assert (Hread : result getFirebaseConfig (run (saveFirebaseConfig (JObj o')) w)
                  = Ok (jclean (JObj o'))).
  { rewrite getFirebaseConfig_result. unfold run. rewrite Hst. cbn [fst].
    unfold with_localStorage. cbn [localStorage]. rewrite lookup_insert_eq.
    now rewrite (JSON_parse_stringify (JObj o') _ eq_refl). }
  split; [reflexivity|]. split; [exact Hread|]. split.
  - unfold run at 1. rewrite loadPage_outcome, Hread.
    change (truthy (jclean (JObj o'))) with true. cbv iota.
    now destruct (sdk_accepts (jclean (JObj o'))).
  - intros He. apply plain_jclean.
    unfold parseConfig in Hparse. rewrite He in Hparse.
    destruct (JSON_parse configJson) as [c|] eqn:Ep; [|discriminate].
    injection Hparse as ->. apply JSON_parse_plain in Ep.
    subst o'. destruct (truthy (obj_get "databaseURL" o)); [assumption|].
    apply plain_obj_set; [constructor|assumption].
Qed.

Lemma handleSave_then_loadPage_witness :
  exists o,
    probed (snd (handleSave "" (mkSetupEnv (Some (JObj complete_config)) false None)
                   empty_local)) = [JObj o]
    /\ result getFirebaseConfig
         (fst (handleSave "" (mkSetupEnv (Some (JObj complete_config)) false None)
                 empty_local)) = Ok (jclean (JObj o))
    /\ isCloudEnabled
         (run (loadPage (fun _ => true))
            (fst (handleSave "" (mkSetupEnv (Some (JObj complete_config)) false None)
                    empty_local)))
       = true
    /\ (eval_result (mkSetupEnv (Some (JObj complete_config)) false None) = None ->
        jclean (JObj o) = JObj o).
Proof.
  exact (handleSave_then_loadPage (fun _ => true) ""
           (mkSetupEnv (Some (JObj complete_config)) false None) empty_local
           complete_config_closes).
Defined.

(** ** Objects in JSON form *)


Lemma rebuild_map l :
  forall acc,
    keys_ordered (acc ++ l) ->
    Forall (fun kx => snd kx <> JUndefined) l ->
    fold_left mstep l acc = (acc ++ map member_clean l)%list.
Proof.
  induction l as [|[k x] l IH]; intros acc Hord Hl; simpl.
  - now rewrite app_nil_r.
  - apply List.Forall_cons_iff in Hl as [Hd Hl]. simpl in Hd.
    rewrite mstep_defined by assumption.
    destruct Hord as [Hnd Hs]. unfold keys in Hnd, Hs.
    rewrite map_app in Hnd, Hs. simpl in Hnd, Hs.
    rewrite obj_set_snoc.
    + rewrite IH; [now rewrite <- app_assoc| |assumption].
      unfold keys_ordered, keys. rewrite <- app_assoc. simpl.
      rewrite map_app. simpl. tauto.
    + apply List.NoDup_remove_2 in Hnd. intros Hin. apply Hnd.
      apply List.in_or_app. now left.
    + now apply sorted_app_mid in Hs.
Qed.

(** The JSON form of an object in own-property order that has no
    undefined member: each member in its JSON form, in place. *)
Lemma jclean_members o :
  keys_ordered o -> Forall (fun kx => snd kx <> JUndefined) o ->
  jclean (JObj o) = JObj (map member_clean o).
Proof. intros Ho Hd. rewrite jclean_obj. now rewrite (rebuild_map o []). Qed.

Lemma obj_has_map_member k o : obj_has k (map member_clean o) = obj_has k o.
Proof.
  induction o as [|[k' x] o IH]; simpl; [reflexivity|]. now rewrite IH.
Qed.

Lemma obj_replace_map_member k x o :
  map member_clean (obj_replace k x o)
  = obj_replace k (jclean x) (map member_clean o).
Proof.
  induction o as [|[k' x'] o IH]; simpl; [reflexivity|].
  destruct (String.eqb k k'); simpl; [reflexivity|]. now rewrite IH.
Qed.

Lemma obj_insert_map_member i k x o :
  map member_clean (obj_insert_index i k x o)
  = obj_insert_index i k (jclean x) (map member_clean o).
Proof.
  induction o as [|[k' x'] o IH]; simpl; [reflexivity|].
  destruct (array_index k') as [j|]; [|reflexivity].
  destruct (i <? j)%N; simpl; [reflexivity|]. now rewrite IH.
Qed.

Lemma obj_set_map_member k x o :
  map member_clean (obj_set k x o)
  = obj_set k (jclean x) (map member_clean o).
Proof.
  unfold obj_set. rewrite obj_has_map_member.
  destruct (obj_has k o); [apply obj_replace_map_member|].
  destruct (array_index k) as [i|]; [apply obj_insert_map_member|].
  now rewrite map_app.
Qed.

Lemma plain_members o : plain (JObj o) -> map member_clean o = o.
Proof.
  intros Hp. inversion Hp as [| | | | |o' Hk Hv]; subst. clear Hp Hk.
  induction Hv as [|[k x] o Hx Hv IH]; [reflexivity|].
  simpl in *. unfold member_clean at 1. simpl.
  now rewrite (plain_jclean x Hx), IH.
Qed.

Lemma defined_values_replace k x o :
  x <> JUndefined -> Forall (fun kx => snd kx <> JUndefined) o ->
  Forall (fun kx => snd kx <> JUndefined) (obj_replace k x o).
Proof.
  intros Hx. induction 1 as [|[k' x'] o Hh Ho IH]; simpl; [constructor|].
  destruct (String.eqb k k'); constructor; auto.
Qed.

Lemma defined_values_insert i k x o :
  x <> JUndefined -> Forall (fun kx => snd kx <> JUndefined) o ->
  Forall (fun kx => snd kx <> JUndefined) (obj_insert_index i k x o).
Proof.
  intros Hx. induction 1 as [|[k' x'] o Hh Ho IH]; simpl;
    [repeat constructor; assumption|].
  destruct (array_index k') as [j|]; [destruct (i <? j)%N|];
    repeat constructor; auto.
Qed.

Lemma defined_values_set k x o :
  x <> JUndefined -> Forall (fun kx => snd kx <> JUndefined) o ->
  Forall (fun kx => snd kx <> JUndefined) (obj_set k x o).
Proof.
  intros Hx Ho. unfold obj_set.
  destruct (obj_has k o); [now apply defined_values_replace|].
  destruct (array_index k) as [i|]; [now apply defined_values_insert|].
  apply List.Forall_app. split; [assumption|repeat constructor; assumption].
Qed.

Lemma plain_defined_values o :
  plain (JObj o) -> Forall (fun kx => snd kx <> JUndefined) o.
Proof.
  intros Hp. inversion Hp as [| | | | |o' Hk Hv]; subst.
  rewrite List.Forall_forall in *. intros kx Hin. apply plain_defined. auto.
Qed.

Lemma plain_keys_ordered o : plain (JObj o) -> keys_ordered o.
Proof. intros Hp. now inversion Hp. Qed.

(** Setting a member of an object that is in JSON form, then taking the
    JSON form: the member's value is the only thing that changes. *)
Lemma jclean_obj_set k x o :
  plain (JObj o) -> x <> JUndefined ->
  jclean (JObj (obj_set k x o)) = JObj (obj_set k (jclean x) o).
Proof.
  intros Hp Hx.
  rewrite jclean_members.
  - now rewrite obj_set_map_member, (plain_members o Hp).
  - apply keys_ordered_set. now apply plain_keys_ordered.
  - apply defined_values_set; [assumption|]. now apply plain_defined_values.
Qed.

Lemma eclean_plain x : plain x -> eclean x = x.
Proof.
  intros Hp. rewrite eclean_defined by now apply plain_defined.
  now apply plain_jclean.
Qed.

Lemma map_eclean_plain l : Forall plain l -> map eclean l = l.
Proof.
  induction 1 as [|x l Hx Hl IH]; [reflexivity|].
  simpl. now rewrite (eclean_plain x Hx), IH.
Qed.

Lemma plain_elements l : plain (JArr l) -> Forall plain l.
Proof. intros Hp. now inversion Hp. Qed.

Lemma plain_member k o :
  plain (JObj o) -> obj_get k o <> JUndefined -> plain (obj_get k o).
Proof.
  intros Hp. inversion Hp as [| | | | |o' Hk Hv]; subst. clear Hp Hk.
  induction Hv as [|[k' x] o Hx Hv IH]; simpl; [congruence|].
  destruct (String.eqb k k'); auto.
Qed.


(** The JSON form of a value is made of defined values only. *)
Lemma jclean_plain v : v <> JUndefined -> plain (jclean v).
Proof.
  intros Hv.
  destruct (JSON_stringify v) as [s|] eqn:Es;
    [|destruct v; try discriminate Es; congruence].
  exact (JSON_parse_plain s _ (JSON_parse_stringify v s Es)).
Qed.

(** ** Writing and removing rooms in the local store *)

Lemma find_index_none (p : JsVal -> Res bool) (l : list JsVal) k :
  Forall (fun r => p r = Ok false) l -> find_index p l k = Ok None.
Proof.
  intros H; revert k; induction H as [|r l Hr Hl IH]; intros k; simpl;
    [reflexivity|]. now rewrite Hr.
Qed.

Lemma find_index_split (p : JsVal -> Res bool) l1 r l2 k :
  Forall (fun x => p x = Ok false) l1 -> p r = Ok true ->
  find_index p (l1 ++ r :: l2)%list k = Ok (Some (k + List.length l1)%nat).
Proof.
  intros H Hr; revert k; induction H as [|x l Hx Hl IH]; intros k; simpl.
  - rewrite Hr. f_equal. f_equal. lia.
  - rewrite Hx, IH. f_equal. f_equal. lia.
Qed.

Lemma find_first_split (p : JsVal -> Res bool) l1 r l2 :
  Forall (fun x => p x = Ok false) l1 -> p r = Ok true ->
  find_first p (l1 ++ r :: l2)%list = Ok r.
Proof.
  intros H Hr; induction H as [|x l Hx Hl IH]; simpl;
    [now rewrite Hr|now rewrite Hx].
Qed.

Lemma insert_middle (l1 l2 : list JsVal) r y :
  <[List.length l1 := y]> (l1 ++ r :: l2)%list = (l1 ++ y :: l2)%list.
Proof. induction l1 as [|x l1 IH]; simpl; [reflexivity|]. now rewrite IH. Qed.

(** For a room whose identifier is the string [id], the test of
    [saveRoom] is the test of [addMessage]. *)
Lemma same_id_has_id o id r :
  obj_get "id" o = JStr id -> same_id (JObj o) r = has_id id r.
Proof.
  intros Hid. unfold same_id, has_id. simpl get_prop. rewrite Hid.
  now destruct (get_prop r "id").
Qed.

Lemma getLocalRooms_result_run w v :
  result getLocalRooms w = Ok v -> v <> JArr [] -> getLocalRooms w = (w, Ok v).
Proof.
  intros Hr Hne. unfold result in Hr.
  destruct (getLocalRooms_cases w)
    as [[Hg _]|[(s & v' & _ & _ & _ & Hg)|(s & _ & _ & _ & Hg)]];
    rewrite Hg in Hr; simpl in Hr; injection Hr as <-; congruence.
Qed.

Lemma getLocalRooms_run_reads w :
  result getLocalRooms (run getLocalRooms w) = result getLocalRooms w
  /\ isCloudEnabled (run getLocalRooms w) = isCloudEnabled w
  /\ events (run getLocalRooms w) = events w.
Proof.
  destruct (getLocalRooms_storage w) as (Hst & _ & Hce & _).
  split; [apply getLocalRooms_same_store; exact Hst|split; [exact Hce|]].
  unfold run.
  destruct (getLocalRooms_cases w)
    as [[Hg _]|[(s & v' & _ & _ & _ & Hg)|(s & _ & _ & _ & Hg)]];
    now rewrite Hg.
Qed.

(** The local store after a successful [saveRoom]. *)
Lemma saveRoom_local_reads w o id l :
  isCloudEnabled w = false -> result getLocalRooms w = Ok (JArr l) ->
  obj_get "id" o = JStr id ->
  forall l',
    (Forall (fun r => has_id id r = Ok false) l /\ l' = (l ++ [JObj o])%list)
    \/ (exists l1 r l2, l = (l1 ++ r :: l2)%list
                        /\ Forall (fun x => has_id id x = Ok false) l1
                        /\ has_id id r = Ok true
                        /\ l' = (l1 ++ JObj o :: l2)%list) ->
    saveRoom (JObj o) w = (local_write l' (run getLocalRooms w), Ok tt).
Proof.
  intros Hc Hl Hid l' Hcase.
  rewrite (saveRoom_local w (JObj o) (JArr l) Hc Hl). simpl receiver. cbv iota.
  destruct Hcase as [[Hall ->] | (l1 & r & l2 & -> & Hall & Hr & ->)].
  - rewrite find_index_none; [reflexivity|].
    eapply List.Forall_impl; [|exact Hall]. intros r Hr.
    now rewrite (same_id_has_id o id r Hid).
  - rewrite (find_index_split _ l1 r l2 0).
    + simpl. now rewrite insert_middle.
    + eapply List.Forall_impl; [|exact Hall]. intros x Hx.
      now rewrite (same_id_has_id o id x Hid).
    + now rewrite (same_id_has_id o id r Hid).
Qed.

Lemma getLocalRooms_list_plain w l :
  result getLocalRooms w = Ok (JArr l) -> Forall plain l.
Proof.
  intros Hl. destruct (getLocalRooms_plain w) as (v & Hv & Hp).
  rewrite Hl in Hv. injection Hv as <-. now apply plain_elements.
Qed.

Lemma Forall_app_l {A} (P : A -> Prop) l1 l2 :
  Forall P (l1 ++ l2)%list -> Forall P l1.
Proof. intros H. now apply List.Forall_app in H. Qed.

Lemma Forall_app_r {A} (P : A -> Prop) l1 l2 :
  Forall P (l1 ++ l2)%list -> Forall P l2.
Proof. intros H. now apply List.Forall_app in H. Qed.

(** X7. [saveRoom] in local mode is an upsert by identifier: for a room
    whose identifier is a string, when no stored room has that identifier
    the room is added at the end, and otherwise it takes the place of
    the first stored room with that identifier; every other room stays
    where it was.  The room is stored in its JSON form, both window
    events are dispatched, and the remote rooms are not touched. *)
Theorem saveRoom_local_upsert (w : World) (o : Props) (id : string)
    (l : list JsVal) :
  isCloudEnabled w = false ->
  result getLocalRooms w = Ok (JArr l) ->
  obj_get "id" o = JStr id ->
  let w' := run (saveRoom (JObj o)) w in
  (Forall (fun r => has_id id r = Ok false) l ->
   result (saveRoom (JObj o)) w = Ok tt
   /\ result getLocalRooms w' = Ok (JArr (l ++ [jclean (JObj o)])%list)
   /\ events w' = "storage-local" :: "storage" :: events w)
  /\ (forall l1 r l2,
        l = (l1 ++ r :: l2)%list ->
        Forall (fun x => has_id id x = Ok false) l1 ->
        has_id id r = Ok true ->
        result (saveRoom (JObj o)) w = Ok tt
        /\ result getLocalRooms w' = Ok (JArr (l1 ++ jclean (JObj o) :: l2)%list)
        /\ events w' = "storage-local" :: "storage" :: events w)
  /\ remote_rooms w' = remote_rooms w.
Proof.
  intros Hc Hl Hid w'. subst w'.
  pose proof (getLocalRooms_list_plain w l Hl) as Hpl.
  destruct (getLocalRooms_run_reads w) as (_ & _ & Hev).
  split; [|split].
  - intros Hall.
    pose proof (saveRoom_local_reads w o id l Hc Hl Hid _
                  (or_introl (conj Hall eq_refl))) as Hs.
    unfold run at 1 2, result. rewrite Hs. cbn [fst snd].
    split; [reflexivity|]. rewrite local_write_reads_clean. cbn [snd].
    split; [|simpl; now rewrite Hev].
    rewrite map_app, (map_eclean_plain l Hpl). reflexivity.
  - intros l1 r l2 -> Hall Hr.
    pose proof (saveRoom_local_reads w o id _ Hc Hl Hid (l1 ++ JObj o :: l2)%list
                  (or_intror (ex_intro _ l1 (ex_intro _ r (ex_intro _ l2
                     (conj eq_refl (conj Hall (conj Hr eq_refl)))))))) as Hs.
    unfold run at 1 2, result. rewrite Hs. cbn [fst snd].
    split; [reflexivity|]. rewrite local_write_reads_clean. cbn [snd].
    split; [|simpl; now rewrite Hev].
    rewrite map_app. simpl map.
    rewrite (map_eclean_plain l1 (Forall_app_l _ _ _ Hpl)).
    apply Forall_app_r in Hpl. apply List.Forall_cons_iff in Hpl as [_ Hp2].
    now rewrite (map_eclean_plain l2 Hp2).
  - destruct (getLocalRooms_plain w) as (v & Hv & _).
    rewrite Hl in Hv. injection Hv as <-.
    pose proof (saveRoom_local w (JObj o) (JArr l) Hc Hl) as Hs.
    simpl receiver in Hs. cbv iota in Hs. unfold run at 1. rewrite Hs.
    destruct (find_index (same_id (JObj o)) l 0) as [idx|e]; cbn [fst];
      [simpl|]; apply getLocalRooms_storage.
Qed.

Lemma saveRoom_local_upsert_witness :
  result (saveRoom sample_room) one_room_world = Ok tt
  /\ result getLocalRooms (run (saveRoom sample_room) one_room_world)
     = Ok (JArr [sample_room])
  /\ events (run (saveRoom sample_room) one_room_world)
     = ["storage-local"; "storage"].
Proof.
  destruct (saveRoom_local_upsert one_room_world
              [("id", JStr "r1"); ("title", JStr "Imported");
               ("messages", JArr [sample_message]); ("memos", JArr [])]
              "r1" [JObj [("id", JStr "r1")]] eq_refl eq_refl eq_refl)
    as (_ & H & _).
  exact (H [] (JObj [("id", JStr "r1")]) [] eq_refl (List.Forall_nil _) eq_refl).
Defined.

(** The rooms [deleteRoom] keeps. *)
Lemma filter_res_other_id roomId l :
  Forall (fun r => r <> JNull /\ r <> JUndefined) l ->
  filter_res (other_id roomId) l
  = Ok (List.filter (fun r => negb (String.eqb (id_text r) roomId)) l).
Proof.
  induction 1 as [|r l [Hn Hu] Hl IH]; simpl; [reflexivity|].
  rewrite IH. unfold other_id, id_text.
  destruct (get_prop r "id") as [rid|e] eqn:Eg;
    [reflexivity|destruct r; simpl in Eg; congruence].
Qed.

Lemma plain_not_undefined l :
  Forall plain l -> Forall (fun r => r <> JNull) l ->
  Forall (fun r => r <> JNull /\ r <> JUndefined) l.
Proof.
  intros Hp Hn. rewrite List.Forall_forall in *. intros r Hr.
  split; [auto|apply plain_defined; auto].
Qed.



(** ** Creating and deleting, appending and removing *)

Lemma other_id_has_id roomId r :
  other_id roomId r = Ok true -> has_id roomId r = Ok false.
Proof.
  unfold other_id, has_id. destruct (get_prop r "id") as [rid|e]; [|discriminate].
  intros [= H]. f_equal. destruct rid; try reflexivity. simpl in *.
  now destruct (String.eqb s roomId).
Qed.

Lemma other_id_defined roomId r :
  other_id roomId r = Ok true -> r <> JNull /\ r <> JUndefined.
Proof. unfold other_id. destruct r; simpl; intros H; split; congruence. Qed.

Lemma other_id_text roomId r :
  other_id roomId r = Ok true -> negb (String.eqb (id_text r) roomId) = true.
Proof.
  unfold other_id, id_text. destruct (get_prop r "id"); [|discriminate].
  now intros [= ->].
Qed.

Lemma filter_all {A} (f : A -> bool) l :
  Forall (fun x => f x = true) l -> List.filter f l = l.
Proof. induction 1 as [|x l Hx Hl IH]; simpl; [reflexivity|]. now rewrite Hx, IH. Qed.

Lemma newRoom_id admin env title password :
  exists o, newRoom admin env title password = JObj o
            /\ obj_get "id" o = JStr (uniqueId env)
            /\ id_text (jclean (JObj o)) = uniqueId env.
Proof.
  unfold newRoom. eexists. split; [reflexivity|]. split; [reflexivity|].
  destruct password; reflexivity.
Qed.



(** ** Appending to a stored room *)

Local Open Scope list_scope.

(** The local branch of [addMessage] and [addMemo] on a stored room
    whose field is an array. *)
Lemma local_append_found field roomId item w l1 o l2 items :
  isCloudEnabled w = false ->
  result getLocalRooms w = Ok (JArr (l1 ++ JObj o :: l2)%list) ->
  Forall (fun r => has_id roomId r = Ok false) l1 ->
  obj_get "id" o = JStr roomId ->
  obj_get field o = JArr items ->
  field <> "id" ->
  local_append field roomId item w
  = (local_write (l1 ++ JObj (obj_set field (JArr (items ++ [item])%list) o) :: l2)%list w,
     Ok tt).
Proof.
  intros Hc Hl Hall Hid Hf Hne.
  assert (Hg : getLocalRooms w = (w, Ok (JArr (l1 ++ JObj o :: l2)%list)))
    by (apply getLocalRooms_result_run; [exact Hl|now destruct l1]).
  assert (Hfound : has_id roomId (JObj o) = Ok true)
    by (unfold has_id; simpl; rewrite Hid; simpl; now rewrite String.eqb_refl).
  unfold local_append.
  rewrite (bind_ok _ _ _ _ _ Hg). unfold bind, lift. cbn [receiver].
  rewrite (find_first_split _ l1 (JObj o) l2 Hall Hfound).
  cbn [truthy get_prop]. rewrite Hf. cbn [Array_push receiver set_prop].
  set (o' := obj_set field (JArr (items ++ [item])) o).
  assert (Hid' : obj_get "id" o' = JStr roomId)
    by (subst o'; rewrite obj_get_set_other by congruence; exact Hid).
  unfold detach.
  rewrite (saveRoom_local_reads w o' roomId _ Hc Hl Hid' (l1 ++ JObj o' :: l2)%list).
  - unfold run. now rewrite Hg.
  - right. exists l1, (JObj o), l2. auto.
Qed.

(** What the store reads after the room at one place was replaced by a
    version with a new array in one field. *)
Lemma local_write_field_reads w l1 o l2 field items :
  Forall plain l1 -> plain (JObj o) -> Forall plain l2 ->
  result getLocalRooms
    (local_write (l1 ++ JObj (obj_set field (JArr items) o) :: l2) w)
  = Ok (JArr (l1 ++ JObj (obj_set field (JArr (map eclean items)) o) :: l2)).
Proof.
  intros H1 Ho H2. unfold result. rewrite local_write_reads_clean. cbn [snd].
  rewrite map_app. cbn [map].
  rewrite (map_eclean_plain l1 H1), (map_eclean_plain l2 H2).
  change (eclean (JObj (obj_set field (JArr items) o)))
    with (jclean (JObj (obj_set field (JArr items) o))).
  now rewrite (jclean_obj_set field (JArr items) o Ho) by discriminate.
Qed.

Lemma plain_split l1 r l2 :
  Forall plain (l1 ++ r :: l2) -> Forall plain l1 /\ plain r /\ Forall plain l2.
Proof.
  intros H. apply List.Forall_app in H as [H1 H2].
  apply List.Forall_cons_iff in H2 as [Hr H2]. auto.
Qed.

Lemma plain_field_items field o items :
  plain (JObj o) -> obj_get field o = JArr items -> Forall plain items.
Proof.
  intros Hp Hf. apply plain_elements. rewrite <- Hf.
  apply plain_member; [assumption|]. rewrite Hf. discriminate.
Qed.

Lemma local_append_appends field roomId item w l1 o l2 items :
  isCloudEnabled w = false ->
  result getLocalRooms w = Ok (JArr (l1 ++ JObj o :: l2)%list) ->
  Forall (fun r => has_id roomId r = Ok false) l1 ->
  obj_get "id" o = JStr roomId ->
  obj_get field o = JArr items ->
  field <> "id" ->
  let w' := run (local_append field roomId item) w in
  result (local_append field roomId item) w = Ok tt
  /\ result getLocalRooms w'
     = Ok (JArr (l1 ++ JObj (obj_set field (JArr (items ++ [eclean item])) o)
                    :: l2))
  /\ events w' = "storage-local" :: "storage" :: events w
  /\ unhandled w' = unhandled w
  /\ remote_rooms w' = remote_rooms w.
Proof.
  intros Hc Hl Hall Hid Hf Hne w'. subst w'.
  pose proof (local_append_found field roomId item w l1 o l2 items
                Hc Hl Hall Hid Hf Hne) as Hrun.
  destruct (plain_split _ _ _ (getLocalRooms_list_plain w _ Hl))
    as (H1 & Ho & H2).
  unfold run, result at 1. rewrite Hrun. cbn [fst snd].
  split; [reflexivity|].
  rewrite (local_write_field_reads w l1 o l2 field _ H1 Ho H2).
  rewrite map_app, (map_eclean_plain items (plain_field_items field o items Ho Hf)).
  repeat split.
Qed.

(** X10. In local mode, [addMessage] on a stored room whose messages are
    an array puts the message, in its JSON form, at the end of that
    array and leaves everything else as it was: the other rooms, the
    other fields of the room and the order of the earlier messages.
    [addMemo] does the same with the memos.  Both window events are
    dispatched. *)
Theorem local_append_keeps_rest (w : World) (roomId : string) (item : JsVal)
    (l1 l2 : list JsVal) (o : Props) :
  isCloudEnabled w = false ->
  result getLocalRooms w = Ok (JArr (l1 ++ JObj o :: l2)%list) ->
  Forall (fun r => has_id roomId r = Ok false) l1 ->
  obj_get "id" o = JStr roomId ->
  (forall ms,
     obj_get "messages" o = JArr ms ->
     let w' := run (addMessage roomId item) w in
     result (addMessage roomId item) w = Ok tt
     /\ result getLocalRooms w'
        = Ok (JArr (l1 ++ JObj (obj_set "messages"
                                  (JArr (ms ++ [eclean item])) o) :: l2))
     /\ events w' = "storage-local" :: "storage" :: events w)
  /\ (forall mm,
        obj_get "memos" o = JArr mm ->
        let w' := run (addMemo roomId item) w in
        result (addMemo roomId item) w = Ok tt
        /\ result getLocalRooms w'
           = Ok (JArr (l1 ++ JObj (obj_set "memos"
                                     (JArr (mm ++ [eclean item])) o) :: l2))
        /\ events w' = "storage-local" :: "storage" :: events w).
Proof.
  intros Hc Hl Hall Hid. split.
  - intros ms Hms w'. subst w'.
    destruct (local_append_appends "messages" roomId item w l1 o l2 ms
                Hc Hl Hall Hid Hms) as (Hr & Hg & He & _); [discriminate|].
    unfold addMessage, run, result in *. rewrite Hc. auto.
  - intros mm Hmm w'. subst w'.
    destruct (local_append_appends "memos" roomId item w l1 o l2 mm
                Hc Hl Hall Hid Hmm) as (Hr & Hg & He & _); [discriminate|].
    unfold addMemo, run, result in *. rewrite Hc. auto.
Qed.

Lemma local_append_keeps_rest_witness :
  result (addMessage "r1" other_message) sample_room_world = Ok tt
  /\ result getLocalRooms (run (addMessage "r1" other_message) sample_room_world)
     = Ok (JArr [JObj [("id", JStr "r1"); ("title", JStr "Imported");
                       ("messages", JArr [sample_message; other_message]);
                       ("memos", JArr [])]])
  /\ events (run (addMessage "r1" other_message) sample_room_world)
     = ["storage-local"; "storage"].
Proof.
  destruct (local_append_keeps_rest sample_room_world "r1" other_message [] []
              sample_room_props eq_refl eq_refl (List.Forall_nil _) eq_refl)
    as [H _].
  exact (H [sample_message] eq_refl).
Defined.

(** X11. In local mode, [addMessage] on a stored room whose messages are
    not an array (missing, or a key-indexed mapping as an imported file
    may carry) throws a TypeError to its caller and changes nothing;
    [addMemo] does so when the memos are not an array. *)
Theorem local_append_needs_array (w : World) (roomId : string) (item : JsVal)
    (l1 l2 : list JsVal) (o : Props) :
  isCloudEnabled w = false ->
  result getLocalRooms w = Ok (JArr (l1 ++ JObj o :: l2)) ->
  Forall (fun r => has_id roomId r = Ok false) l1 ->
  obj_get "id" o = JStr roomId ->
  (Array_isArray (obj_get "messages" o) = false ->
   exists msg, addMessage roomId item w = (w, Throw (TypeError msg)))
  /\ (Array_isArray (obj_get "memos" o) = false ->
      exists msg, addMemo roomId item w = (w, Throw (TypeError msg))).
Proof.
  intros Hc Hl Hall Hid.
  assert (Hg : getLocalRooms w = (w, Ok (JArr (l1 ++ JObj o :: l2))))
    by (apply getLocalRooms_result_run; [exact Hl|now destruct l1]).
  assert (Hfound : has_id roomId (JObj o) = Ok true)
    by (unfold has_id; simpl; rewrite Hid; simpl; now rewrite String.eqb_refl).
  assert (Hgen : forall field,
             Array_isArray (obj_get field o) = false ->
             exists msg, local_append field roomId item w
                         = (w, Throw (TypeError msg))).
  { intros field Hna. unfold local_append.
    rewrite (bind_ok _ _ _ _ _ Hg). unfold bind, lift. cbn [receiver].
    rewrite (find_first_split _ l1 (JObj o) l2 Hall Hfound).
    cbn [truthy get_prop]. unfold Array_push.
    destruct (obj_get field o); try discriminate; simpl; eauto. }
  unfold addMessage, addMemo. rewrite Hc. split; apply Hgen.
Qed.

Lemma local_append_needs_array_witness :
  exists msg,
    addMessage "r1" sample_message
      (world_with_text (stringify_array [mapped_room]))
    = (world_with_text (stringify_array [mapped_room]), Throw (TypeError msg)).
Proof.
  destruct (local_append_needs_array
              (world_with_text (stringify_array [mapped_room]))
              "r1" sample_message [] []
              [("id", JStr "r1"); ("title", JStr "Imported");
               ("messages", JObj [("m1", sample_message)]);
               ("memos", JArr [])]
              eq_refl eq_refl (List.Forall_nil _) eq_refl) as [H _].
  exact (H eq_refl).
Defined.

(** ** Appending to a room of the remote backend *)

Lemma cloud_append_run field roomId item w o :
  remote_fault w = None -> remote_rooms w !! roomId = Some (JObj o) ->
  detach (remote_transaction roomId (append_to field item)) w
  = (with_remote_rooms
       (<[roomId := JObj (appended field item o)]> (remote_rooms w)) w, Ok tt).
Proof.
  intros Hf Hr. unfold detach, remote_transaction, child_value.
  now rewrite Hf, Hr, append_to_object.
Qed.

Lemma appended_field field item o :
  obj_get field (appended field item o)
  = JArr (field_items field o ++ [item]).
Proof. unfold appended. apply obj_get_set_same. Qed.

Lemma appended_other field item o k :
  k <> field -> obj_get k (appended field item o) = obj_get k o.
Proof.
  intros Hne. unfold appended. rewrite obj_get_set_other by assumption.
  destruct (truthy (obj_get field o)); [reflexivity|].
  now apply obj_get_set_other.
Qed.

(** X12. In cloud mode, on a backend that takes requests, [addMessage]
    on an existing room replaces the room by a version whose messages
    are an array: the earlier messages in their order (the values, when
    they were kept as a key-indexed mapping; none, when the field was
    missing) followed by the new message.  Every other field and every
    other room is kept, and local storage is not touched.  [addMemo]
    does the same with the memos. *)
Theorem cloud_append_keeps_rest (w : World) (roomId : string) (item : JsVal)
    (o : Props) :
  isCloudEnabled w = true ->
  remote_fault w = None ->
  remote_rooms w !! roomId = Some (JObj o) ->
  (let w' := run (addMessage roomId item) w in
   result (addMessage roomId item) w = Ok tt
   /\ (exists o',
         remote_rooms w' = <[roomId := JObj o']> (remote_rooms w)
         /\ obj_get "messages" o' = JArr (field_items "messages" o ++ [item])
         /\ forall k, k <> "messages" -> obj_get k o' = obj_get k o)
   /\ localStorage w' = localStorage w
   /\ unhandled w' = unhandled w)
  /\ (let w' := run (addMemo roomId item) w in
      result (addMemo roomId item) w = Ok tt
      /\ (exists o',
            remote_rooms w' = <[roomId := JObj o']> (remote_rooms w)
            /\ obj_get "memos" o' = JArr (field_items "memos" o ++ [item])
            /\ forall k, k <> "memos" -> obj_get k o' = obj_get k o)
      /\ localStorage w' = localStorage w
      /\ unhandled w' = unhandled w).
Proof.
  intros Hc Hf Hr. unfold addMessage, addMemo, run, result. rewrite Hc.
  rewrite !(fun field => cloud_append_run field roomId item w o Hf Hr).
  cbn [fst snd].
  split; (split; [reflexivity|]); (split; [|split; reflexivity]).
  - exists (appended "messages" item o). split; [reflexivity|].
    split; [apply appended_field|intros k Hk; now apply appended_other].
  - exists (appended "memos" item o). split; [reflexivity|].
    split; [apply appended_field|intros k Hk; now apply appended_other].
Qed.

Lemma cloud_append_keeps_rest_witness :
  result (addMessage "r1" other_message)
    (with_remote_rooms {["r1" := mapped_room]} empty_cloud) = Ok tt
  /\ (exists o',
        remote_rooms (run (addMessage "r1" other_message)
                        (with_remote_rooms {["r1" := mapped_room]} empty_cloud))
        = <["r1" := JObj o']> {["r1" := mapped_room]}
        /\ obj_get "messages" o' = JArr [sample_message; other_message]
        /\ forall k, k <> "messages" ->
                     obj_get k o'
                     = obj_get k [("id", JStr "r1"); ("title", JStr "Imported");
                                  ("messages", JObj [("m1", sample_message)]);
                                  ("memos", JArr [])])
  /\ localStorage (run (addMessage "r1" other_message)
                     (with_remote_rooms {["r1" := mapped_room]} empty_cloud))
     = ∅
  /\ unhandled (run (addMessage "r1" other_message)
                  (with_remote_rooms {["r1" := mapped_room]} empty_cloud))
     = [].
Proof.
  exact (proj1 (cloud_append_keeps_rest
                  (with_remote_rooms {["r1" := mapped_room]} empty_cloud)
                  "r1" other_message
                  [("id", JStr "r1"); ("title", JStr "Imported");
                   ("messages", JObj [("m1", sample_message)]);
                   ("memos", JArr [])]
                  eq_refl eq_refl (lookup_singleton_eq _ _))).
Defined.

(** ** Removing a memo *)

Lemma filter_res_other_memo memoId mm :
  Forall (fun m => m <> JNull /\ m <> JUndefined) mm ->
  filter_res (other_memo memoId) mm = Ok (List.filter (memo_kept memoId) mm).
Proof.
  induction 1 as [|m mm [Hn Hu] Hl IH]; simpl; [reflexivity|].
  rewrite IH. unfold other_memo, memo_kept.
  destruct (get_prop m "id") as [mid|e] eqn:Eg;
    [reflexivity|destruct m; simpl in Eg; congruence].
Qed.


Lemma obj_get_has k o : obj_get k o <> JUndefined -> obj_has k o = true.
Proof.
  induction o as [|[k' x] o IH]; simpl; [congruence|].
  destruct (String.eqb k k'); auto.
Qed.

Lemma obj_has_replace k k' x o : obj_has k (obj_replace k' x o) = obj_has k o.
Proof.
  induction o as [|[k0 x0] o IH]; simpl; [reflexivity|].
  destruct (String.eqb k' k0); simpl; [reflexivity|]. now rewrite IH.
Qed.

Lemma obj_replace_replace k x y o :
  obj_replace k x (obj_replace k y o) = obj_replace k x o.
Proof.
  induction o as [|[k0 x0] o IH]; simpl; [reflexivity|].
  destruct (String.eqb k k0) eqn:Ek; simpl; rewrite Ek; [reflexivity|].
  now rewrite IH.
Qed.

Lemma obj_replace_get k o : obj_replace k (obj_get k o) o = o.
Proof.
  induction o as [|[k0 x0] o IH]; simpl; [reflexivity|].
  destruct (String.eqb_spec k k0) as [->|Hne]; [reflexivity|]. now rewrite IH.
Qed.

(** Setting an existing member twice is setting it once, and setting it
    to the value it has changes nothing. *)
Lemma obj_set_set k x y o :
  obj_has k o = true -> obj_set k x (obj_set k y o) = obj_set k x o.
Proof.
  intros Hh. unfold obj_set. rewrite Hh, obj_has_replace, Hh.
  apply obj_replace_replace.
Qed.

Lemma obj_set_get k o : obj_has k o = true -> obj_set k (obj_get k o) o = o.
Proof. intros Hh. unfold obj_set. rewrite Hh. apply obj_replace_get. Qed.

(** The local branch of [deleteMemo] on a stored room whose memos are an
    array without null entries. *)
Lemma deleteMemo_local_found roomId memoId w l1 o l2 mm :
  isCloudEnabled w = false ->
  result getLocalRooms w = Ok (JArr (l1 ++ JObj o :: l2)) ->
  Forall (fun r => has_id roomId r = Ok false) l1 ->
  obj_get "id" o = JStr roomId ->
  obj_get "memos" o = JArr mm ->
  Forall (fun m => m <> JNull) mm ->
  deleteMemo roomId memoId w
  = (local_write
       (l1 ++ JObj (obj_set "memos"
                      (JArr (List.filter (memo_kept memoId) mm)) o) :: l2) w,
     Ok tt).
Proof.
  intros Hc Hl Hall Hid Hmm Hnn.
  assert (Hg : getLocalRooms w = (w, Ok (JArr (l1 ++ JObj o :: l2))))
    by (apply getLocalRooms_result_run; [exact Hl|now destruct l1]).
  assert (Hfound : has_id roomId (JObj o) = Ok true)
    by (unfold has_id; simpl; rewrite Hid; simpl; now rewrite String.eqb_refl).
  destruct (plain_split _ _ _ (getLocalRooms_list_plain w _ Hl))
    as (_ & Ho & _).
  pose proof (plain_field_items "memos" o mm Ho Hmm) as Hpm.
  unfold deleteMemo. rewrite Hc.
  rewrite (bind_ok _ _ _ _ _ Hg). unfold bind, lift. cbn [receiver].
  rewrite (find_first_split _ l1 (JObj o) l2 Hall Hfound).
  cbn [truthy get_prop]. rewrite Hmm. cbn [receiver].
  rewrite (filter_res_other_memo memoId mm (plain_not_undefined mm Hpm Hnn)).
  cbn [set_prop].
  set (o' := obj_set "memos" (JArr (List.filter (memo_kept memoId) mm)) o).
  assert (Hid' : obj_get "id" o' = JStr roomId)
    by (subst o'; rewrite obj_get_set_other by discriminate; exact Hid).
  unfold detach.
  rewrite (saveRoom_local_reads w o' roomId _ Hc Hl Hid' (l1 ++ JObj o' :: l2)).
  - unfold run. now rewrite Hg.
  - right. exists l1, (JObj o), l2. auto.
Qed.

Lemma plain_filter_list f l : Forall plain l -> Forall plain (List.filter f l).
Proof.
  intros H. apply plain_elements. apply plain_filter. now constructor.
Qed.

(** X13. In local mode, [deleteMemo] on a stored room whose memos are an
    array without null entries keeps exactly the memos whose identifier
    is not the given string, in their order, and leaves the other rooms
    and the other fields of the room as they were; a second call with
    the same identifier changes nothing more. *)
Theorem deleteMemo_local_removes (w : World) (roomId memoId : string)
    (l1 l2 : list JsVal) (o : Props) (mm : list JsVal) :
  isCloudEnabled w = false ->
  result getLocalRooms w = Ok (JArr (l1 ++ JObj o :: l2)) ->
  Forall (fun r => has_id roomId r = Ok false) l1 ->
  obj_get "id" o = JStr roomId ->
  obj_get "memos" o = JArr mm ->
  Forall (fun m => m <> JNull) mm ->
  let w' := run (deleteMemo roomId memoId) w in
  let kept := List.filter (memo_kept memoId) mm in
  result (deleteMemo roomId memoId) w = Ok tt
  /\ result getLocalRooms w'
     = Ok (JArr (l1 ++ JObj (obj_set "memos" (JArr kept) o) :: l2))
  /\ Forall (fun m => memo_kept memoId m = true) kept
  /\ events w' = "storage-local" :: "storage" :: events w
  /\ result getLocalRooms (run (deleteMemo roomId memoId) w')
     = result getLocalRooms w'.
Proof.
  intros Hc Hl Hall Hid Hmm Hnn w' kept. subst w'.
  pose proof (deleteMemo_local_found roomId memoId w l1 o l2 mm
                Hc Hl Hall Hid Hmm Hnn) as Hrun.
  destruct (plain_split _ _ _ (getLocalRooms_list_plain w _ Hl))
    as (H1 & Ho & H2).
  pose proof (plain_field_items "memos" o mm Ho Hmm) as Hpm.
  fold kept in Hrun.
  assert (Hr : run (deleteMemo roomId memoId) w
               = local_write (l1 ++ JObj (obj_set "memos" (JArr kept) o) :: l2) w)
    by (unfold run; now rewrite Hrun).
  assert (Hread : result getLocalRooms (run (deleteMemo roomId memoId) w)
                  = Ok (JArr (l1 ++ JObj (obj_set "memos" (JArr kept) o) :: l2))).
  { rewrite Hr, (local_write_field_reads w l1 o l2 "memos" _ H1 Ho H2).
    now rewrite (map_eclean_plain kept (plain_filter_list _ mm Hpm)). }
  split; [unfold result; now rewrite Hrun|].
  split; [exact Hread|].
  split; [subst kept; rewrite List.Forall_forall; intros m Hm;
          now apply List.filter_In in Hm|].
  split; [now rewrite Hr|].
  assert (Hc' : isCloudEnabled (run (deleteMemo roomId memoId) w) = false)
    by (rewrite Hr; exact Hc).
  assert (Hkk : List.filter (memo_kept memoId) kept = kept).
  { subst kept. apply filter_all. rewrite List.Forall_forall. intros m Hm.
    now apply List.filter_In in Hm. }
  pose proof (deleteMemo_local_found roomId memoId _ l1
                (obj_set "memos" (JArr kept) o) l2 kept Hc' Hread Hall) as Hrun2.
  rewrite obj_get_set_other, obj_get_set_same in Hrun2 by discriminate.
  specialize (Hrun2 Hid eq_refl).
  rewrite Hkk in Hrun2.
  assert (Hnn' : Forall (fun m => m <> JNull) kept).
  { subst kept. rewrite List.Forall_forall in *. intros m Hm.
    apply List.filter_In in Hm. apply Hnn, Hm. }
  specialize (Hrun2 Hnn').
  unfold run at 1. rewrite Hrun2. cbn [fst].
  assert (Hoo : plain (JObj (obj_set "memos" (JArr kept) o))).
  { apply plain_obj_set; [|exact Ho]. constructor.
    now apply plain_filter_list. }
  rewrite (local_write_field_reads _ l1 _ l2 "memos" _ H1 Hoo H2).
  rewrite (map_eclean_plain kept (plain_filter_list _ mm Hpm)).
  rewrite Hread. rewrite obj_set_set; [reflexivity|].
  apply obj_get_has. rewrite Hmm. discriminate.
Qed.

Lemma deleteMemo_local_removes_witness :
  result (deleteMemo "r1" "memo1") memo_room_world = Ok tt
  /\ result getLocalRooms (run (deleteMemo "r1" "memo1") memo_room_world)
     = Ok (JArr [JObj [("id", JStr "r1"); ("title", JStr "Imported");
                       ("messages", JArr []);
                       ("memos", JArr [other_memo_value])]])
  /\ Forall (fun m => memo_kept "memo1" m = true) [other_memo_value]
  /\ events (run (deleteMemo "r1" "memo1") memo_room_world)
     = ["storage-local"; "storage"]
  /\ result getLocalRooms
       (run (deleteMemo "r1" "memo1")
          (run (deleteMemo "r1" "memo1") memo_room_world))
     = result getLocalRooms (run (deleteMemo "r1" "memo1") memo_room_world).
Proof.
  apply (deleteMemo_local_removes memo_room_world "r1" "memo1" [] []
           memo_room_props [sample_memo; other_memo_value]
           eq_refl eq_refl (List.Forall_nil _) eq_refl eq_refl).
  repeat constructor; discriminate.
Defined.

Lemma cloud_remove_run roomId memoId w o :
  remote_fault w = None -> remote_rooms w !! roomId = Some (JObj o) ->
  Forall (fun m => m <> JNull /\ m <> JUndefined) (field_items "memos" o) ->
  detach (remote_transaction roomId (remove_memo memoId)) w
  = (with_remote_rooms
       (<[roomId :=
            JObj (if truthy (obj_get "memos" o)
                  then obj_set "memos"
                         (JArr (List.filter (memo_kept memoId)
                                  (field_items "memos" o))) o
                  else o)]> (remote_rooms w)) w, Ok tt).
Proof.
  intros Hf Hr Hall. unfold detach, remote_transaction, child_value.
  rewrite Hf, Hr. unfold remove_memo. cbn [truthy get_prop].
  unfold field_items in Hall. cbv zeta in Hall.
  destruct (truthy (obj_get "memos" o)) eqn:Et; cbn [negb]; [|reflexivity].
  destruct (as_array_truthy _ Et) as (l & Hl). rewrite Hl in *.
  rewrite (filter_res_other_memo memoId l Hall). cbn [set_prop].
  unfold field_items. rewrite Et, Hl. reflexivity.
Qed.

Lemma field_items_set field items o :
  field_items field (obj_set field (JArr items) o) = items.
Proof. unfold field_items. now rewrite obj_get_set_same. Qed.

(** X14. In cloud mode, on a backend that takes requests, [deleteMemo]
    on an existing room whose memos hold no null entry keeps exactly the
    memos whose identifier is not the given string, in their order;
    every other field of the room, every other room and local storage
    are left as they were. *)
Theorem deleteMemo_cloud_removes (w : World) (roomId memoId : string)
    (o : Props) :
  isCloudEnabled w = true ->
  remote_fault w = None ->
  remote_rooms w !! roomId = Some (JObj o) ->
  Forall (fun m => m <> JNull /\ m <> JUndefined) (field_items "memos" o) ->
  let w' := run (deleteMemo roomId memoId) w in
  result (deleteMemo roomId memoId) w = Ok tt
  /\ (exists o',
        remote_rooms w' = <[roomId := JObj o']> (remote_rooms w)
        /\ field_items "memos" o'
           = List.filter (memo_kept memoId) (field_items "memos" o)
        /\ forall k, k <> "memos" -> obj_get k o' = obj_get k o)
  /\ localStorage w' = localStorage w
  /\ unhandled w' = unhandled w.
Proof.
  intros Hc Hf Hr Hall w'. subst w'. unfold deleteMemo, run, result.
  rewrite Hc, (cloud_remove_run roomId memoId w o Hf Hr Hall). cbn [fst snd].
  split; [reflexivity|]. split; [|split; reflexivity].
  eexists. split; [reflexivity|].
  destruct (truthy (obj_get "memos" o)) eqn:Et.
  - split; [apply field_items_set|].
    intros k Hk. now apply obj_get_set_other.
  - split; [|reflexivity]. unfold field_items. now rewrite Et.
Qed.

Lemma deleteMemo_cloud_removes_witness :
  result (deleteMemo "r1" "memo1")
    (with_remote_rooms {["r1" := JObj memo_room_props]} empty_cloud) = Ok tt
  /\ (exists o',
        remote_rooms (run (deleteMemo "r1" "memo1")
                        (with_remote_rooms {["r1" := JObj memo_room_props]}
                           empty_cloud))
        = <["r1" := JObj o']> {["r1" := JObj memo_room_props]}
        /\ field_items "memos" o' = [other_memo_value]
        /\ forall k, k <> "memos" -> obj_get k o' = obj_get k memo_room_props)
  /\ localStorage (run (deleteMemo "r1" "memo1")
                     (with_remote_rooms {["r1" := JObj memo_room_props]}
                        empty_cloud)) = ∅
  /\ unhandled (run (deleteMemo "r1" "memo1")
                  (with_remote_rooms {["r1" := JObj memo_room_props]}
                     empty_cloud)) = [].
Proof.
  assert (H : Forall (fun m => m <> JNull /\ m <> JUndefined)
                (field_items "memos" memo_room_props))
    by (repeat constructor; discriminate).
  exact (deleteMemo_cloud_removes
           (with_remote_rooms {["r1" := JObj memo_room_props]} empty_cloud)
           "r1" "memo1" memo_room_props eq_refl eq_refl
           (lookup_singleton_eq _ _) H).
Defined.

(** ** Adding a memo and removing it again *)

Lemma memo_kept_own memoId m :
  obj_get "id" m = JStr memoId -> memo_kept memoId (JObj m) = false.
Proof.
  intros Hid. unfold memo_kept. simpl. rewrite Hid. simpl.
  now rewrite String.eqb_refl.
Qed.

Lemma filter_kept_snoc memoId mm m :
  Forall (fun x => memo_kept memoId x = true) mm ->
  obj_get "id" m = JStr memoId ->
  List.filter (memo_kept memoId) (mm ++ [JObj m]) = mm.
Proof.
  intros Hall Hid. rewrite List.filter_app. cbn [List.filter].
  rewrite (memo_kept_own memoId m Hid), app_nil_r. now apply filter_all.
Qed.

(** X15. Adding a memo and then deleting it by its identifier gives
    back the room collection as it was, in either mode, when the room's
    memos are an array none of whose entries has that identifier; in
    between, the room is found with the memo at the end of its memos. *)
Theorem addMemo_then_deleteMemo (w : World) (roomId memoId : string)
    (o m : Props) (mm : list JsVal) :
  room_found roomId o w ->
  obj_get "memos" o = JArr mm ->
  Forall (fun x => x <> JNull /\ x <> JUndefined) mm ->
  Forall (fun x => memo_kept memoId x = true) mm ->
  obj_get "id" m = JStr memoId ->
  plain (JObj m) ->
  let w1 := run (addMemo roomId (JObj m)) w in
  let w2 := run (deleteMemo roomId memoId) w1 in
  result (addMemo roomId (JObj m)) w = Ok tt
  /\ room_found roomId (obj_set "memos" (JArr (mm ++ [JObj m])) o) w1
  /\ result (deleteMemo roomId memoId) w1 = Ok tt
  /\ rooms_view w2 = rooms_view w.
Proof.
  intros Hfound Hmm Hdef Hkept Hid Hpm w1 w2. subst w1 w2.
  assert (Hhas : obj_has "memos" o = true)
    by (apply obj_get_has; rewrite Hmm; discriminate).
  unfold room_found in Hfound. unfold rooms_view.
  destruct (isCloudEnabled w) eqn:Ec.
  - destruct Hfound as [Hf Hr].
    assert (Hadd : addMemo roomId (JObj m) w
                   = (with_remote_rooms
                        (<[roomId := JObj (appended "memos" (JObj m) o)]>
                           (remote_rooms w)) w, Ok tt))
      by (unfold addMemo; rewrite Ec; now apply cloud_append_run).
    set (w1 := with_remote_rooms _ w) in Hadd.
    assert (Hr1 : run (addMemo roomId (JObj m)) w = w1)
      by (unfold run; now rewrite Hadd).
    assert (Hres1 : result (addMemo roomId (JObj m)) w = Ok tt)
      by (unfold result; now rewrite Hadd).
    rewrite Hr1, Hres1.
    assert (Happ : appended "memos" (JObj m) o
                   = obj_set "memos" (JArr (mm ++ [JObj m])) o).
    { unfold appended, field_items. rewrite Hmm. reflexivity. }
    assert (Hdel : deleteMemo roomId memoId w1
                   = (with_remote_rooms (remote_rooms w) w1, Ok tt)).
    { unfold deleteMemo. change (isCloudEnabled w1) with (isCloudEnabled w).
      rewrite Ec.
      rewrite (cloud_remove_run roomId memoId w1
                 (appended "memos" (JObj m) o)).
      - rewrite Happ, field_items_set, obj_get_set_same.
        cbn [truthy]. rewrite (filter_kept_snoc memoId mm m Hkept Hid).
        rewrite obj_set_set by exact Hhas.
        rewrite <- Hmm, obj_set_get by exact Hhas.
        subst w1. simpl remote_rooms. rewrite insert_insert_eq.
        now rewrite insert_id.
      - exact Hf.
      - subst w1. simpl. apply lookup_insert_eq.
      - rewrite Happ, field_items_set. apply List.Forall_app. split;
          [exact Hdef|repeat constructor; discriminate]. }
    assert (Hr2 : run (deleteMemo roomId memoId) w1
                  = with_remote_rooms (remote_rooms w) w1)
      by (unfold run; now rewrite Hdel).
    assert (Hres2 : result (deleteMemo roomId memoId) w1 = Ok tt)
      by (unfold result; now rewrite Hdel).
    rewrite Hr2, Hres2. unfold room_found. subst w1. simpl. rewrite Ec.
    split; [reflexivity|]. split; [|split; reflexivity].
    split; [exact Hf|]. rewrite <- Happ. apply lookup_insert_eq.
  - destruct Hfound as (l1 & l2 & Hl & Hall & Hrid).
    destruct (plain_split _ _ _ (getLocalRooms_list_plain w _ Hl))
      as (H1 & Ho & H2).
    pose proof (plain_field_items "memos" o mm Ho Hmm) as Hpmm.
    assert (Hadd : addMemo roomId (JObj m) w
                   = (local_write
                        (l1 ++ JObj (obj_set "memos" (JArr (mm ++ [JObj m])) o)
                            :: l2) w, Ok tt)).
    { unfold addMemo. rewrite Ec.
      apply local_append_found; auto; discriminate. }
    set (o1 := obj_set "memos" (JArr (mm ++ [JObj m])) o) in *.
    set (w1 := local_write (l1 ++ JObj o1 :: l2) w) in *.
    assert (Hr1 : run (addMemo roomId (JObj m)) w = w1)
      by (unfold run; now rewrite Hadd).
    assert (Hres1 : result (addMemo roomId (JObj m)) w = Ok tt)
      by (unfold result; now rewrite Hadd).
    rewrite Hr1, Hres1.
    assert (Hc1 : isCloudEnabled w1 = false) by exact Ec.
    assert (Hl1 : result getLocalRooms w1 = Ok (JArr (l1 ++ JObj o1 :: l2))).
    { subst w1 o1. rewrite (local_write_field_reads w l1 o l2 "memos" _ H1 Ho H2).
      rewrite map_app, (map_eclean_plain mm Hpmm). cbn [map].
      now rewrite (eclean_plain (JObj m) Hpm). }
    assert (Hid1 : obj_get "id" o1 = JStr roomId)
      by (subst o1; rewrite obj_get_set_other by discriminate; exact Hrid).
    assert (Hmm1 : obj_get "memos" o1 = JArr (mm ++ [JObj m]))
      by (subst o1; apply obj_get_set_same).
    assert (Hnn1 : Forall (fun x => x <> JNull) (mm ++ [JObj m])).
    { apply List.Forall_app. split.
      - eapply List.Forall_impl; [|exact Hdef]. now intros x [Hx _].
      - repeat constructor; discriminate. }
    pose proof (deleteMemo_local_found roomId memoId w1 l1 o1 l2 _
                  Hc1 Hl1 Hall Hid1 Hmm1 Hnn1) as Hdel.
    rewrite (filter_kept_snoc memoId mm m Hkept Hid) in Hdel.
    assert (Hback : obj_set "memos" (JArr mm) o1 = o).
    { subst o1. rewrite obj_set_set by exact Hhas.
      rewrite <- Hmm. now apply obj_set_get. }
    rewrite Hback in Hdel.
    assert (Hr2 : run (deleteMemo roomId memoId) w1
                  = local_write (l1 ++ JObj o :: l2) w1)
      by (unfold run; now rewrite Hdel).
    assert (Hres2 : result (deleteMemo roomId memoId) w1 = Ok tt)
      by (unfold result; now rewrite Hdel).
    rewrite Hr2, Hres2. unfold room_found. rewrite Hc1.
    change (isCloudEnabled (local_write (l1 ++ JObj o :: l2) w1))
      with (isCloudEnabled w1). rewrite Hc1.
    split; [reflexivity|]. split; [|split; [reflexivity|]].
    + exists l1, l2. auto.
    + unfold result at 1. rewrite local_write_reads; [now rewrite Hl|].
      constructor. apply List.Forall_app. split; [exact H1|].
      constructor; assumption.
Qed.

Lemma addMemo_then_deleteMemo_witness :
  result (addMemo "r1" sample_memo) sample_room_world = Ok tt
  /\ room_found "r1"
       (obj_set "memos" (JArr ([] ++ [sample_memo])) sample_room_props)
       (run (addMemo "r1" sample_memo) sample_room_world)
  /\ result (deleteMemo "r1" "memo1")
       (run (addMemo "r1" sample_memo) sample_room_world) = Ok tt
  /\ rooms_view (run (deleteMemo "r1" "memo1")
                   (run (addMemo "r1" sample_memo) sample_room_world))
     = rooms_view sample_room_world.
Proof.
  assert (Hf : room_found "r1" sample_room_props sample_room_world)
    by (exists [], []; repeat split; constructor).
  assert (Hp : plain sample_memo).
  { apply (JSON_parse_plain (string_of_list_ascii (json_text sample_memo))).
    reflexivity. }
  exact (addMemo_then_deleteMemo sample_room_world "r1" "memo1"
           sample_room_props
           [("id", JStr "memo1"); ("content", JStr "buy milk")] []
           Hf eq_refl (List.Forall_nil _) (List.Forall_nil _) eq_refl Hp).
Defined.

(** ** The backend that is not active is left alone *)

Lemma framed_ret {A} mode (a : A) : framed mode (ret a).
Proof. intros w Hc. destruct mode; simpl; auto. Qed.

Lemma framed_throw {A} mode e : framed mode (@throw A e).
Proof. intros w Hc. destruct mode; simpl; auto. Qed.

Lemma framed_lift {A} mode (r : Res A) : framed mode (lift r).
Proof. intros w Hc. destruct mode; simpl; auto. Qed.

Lemma framed_bind {A B} mode (m : M A) (k : A -> M B) :
  framed mode m -> (forall a, framed mode (k a)) -> framed mode (bind m k).
Proof.
  intros Hm Hk w Hc. specialize (Hm w Hc). unfold run, bind in *.
  destruct (m w) as [w1 [a|e]]; cbn [fst] in *; [|exact Hm].
  destruct Hm as [Hc1 Hm]. specialize (Hk a w1 Hc1). unfold run in Hk.
  destruct (k a w1) as [w2 r]; cbn [fst] in *.
  destruct Hk as [Hc2 Hk]. split; [exact Hc2|].
  destruct mode; [destruct Hm, Hk; split|]; congruence.
Qed.

Lemma framed_try_catch {A} mode (m : M A) (h : JsError -> M A) :
  framed mode m -> (forall e, framed mode (h e)) -> framed mode (try_catch m h).
Proof.
  intros Hm Hh w Hc. specialize (Hm w Hc). unfold run, try_catch in *.
  destruct (m w) as [w1 [a|e]]; cbn [fst] in *; [exact Hm|].
  destruct Hm as [Hc1 Hm]. specialize (Hh e w1 Hc1). unfold run in Hh.
  destruct (h e w1) as [w2 r]; cbn [fst] in *.
  destruct Hh as [Hc2 Hh]. split; [exact Hc2|].
  destruct mode; [destruct Hm, Hh; split|]; congruence.
Qed.

Lemma framed_detach {A} mode (m : M A) : framed mode m -> framed mode (detach m).
Proof.
  intros Hm w Hc. specialize (Hm w Hc). unfold run, detach in *.
  destruct (m w) as [w1 [a|e]]; cbn [fst] in *; exact Hm.
Qed.

Lemma framed_branch {A} (cloud local : M A) :
  framed true cloud -> framed false local ->
  forall mode,
    framed mode (fun w => if isCloudEnabled w then cloud w else local w).
Proof.
  intros Hcl Hlo mode w Hc. unfold run. rewrite Hc.
  destruct mode; [apply (Hcl w Hc)|apply (Hlo w Hc)].
Qed.

Lemma framed_console_error mode line : framed mode (console_error line).
Proof. intros w Hc. destruct mode; simpl; auto. Qed.

Lemma framed_getItem mode key : framed mode (getItem key).
Proof. intros w Hc. destruct mode; simpl; auto. Qed.

Lemma framed_setItem key value : framed false (setItem key value).
Proof. intros w Hc. simpl; auto. Qed.

Lemma framed_dispatchEvent name : framed false (dispatchEvent name).
Proof. intros w Hc. simpl; auto. Qed.

Lemma framed_remote_set key v : framed true (remote_set key v).
Proof.
  intros w Hc. unfold run, remote_set.
  destruct (remote_fault w); [auto|]. destruct v; simpl; auto.
Qed.

Lemma framed_remote_remove key : framed true (remote_remove key).
Proof.
  intros w Hc. unfold run, remote_remove. destruct (remote_fault w); simpl; auto.
Qed.

Lemma framed_remote_transaction key update :
  framed true (remote_transaction key update).
Proof.
  intros w Hc. unfold run, remote_transaction.
  destruct (remote_fault w); [auto|].
  destruct (update (child_value key w)) as [v|e]; [|auto].
  destruct v; simpl; auto.
Qed.

Ltac framing :=
  repeat first
    [ apply framed_ret | apply framed_throw | apply framed_lift
    | apply framed_console_error | apply framed_getItem
    | apply framed_setItem | apply framed_dispatchEvent
    | apply framed_remote_set | apply framed_remote_remove
    | apply framed_remote_transaction
    | apply framed_detach
    | apply framed_bind; [|intros ?]
    | apply framed_try_catch; [|intros ?]
    | match goal with
      | |- framed _ (if ?c then _ else _) => destruct c
      | |- framed _ (match ?x with _ => _ end) => destruct x
      end ].


Lemma framed_saveRoom mode room : framed mode (saveRoom room).
Proof.
  unfold saveRoom. apply framed_branch.
  - framing.
  - unfold notifyLocalChanges. framing.
Qed.

Lemma framed_deleteRoom mode roomId : framed mode (deleteRoom roomId).
Proof.
  unfold deleteRoom. apply framed_branch.
  - framing.
  - unfold notifyLocalChanges. framing.
Qed.

Lemma framed_local_append field roomId item :
  framed false (local_append field roomId item).
Proof.
  unfold local_append. framing; apply framed_saveRoom.
Qed.

Lemma framed_addMessage mode roomId item : framed mode (addMessage roomId item).
Proof.
  unfold addMessage. apply framed_branch;
    [framing|apply framed_local_append].
Qed.

Lemma framed_addMemo mode roomId item : framed mode (addMemo roomId item).
Proof.
  unfold addMemo. apply framed_branch;
    [framing|apply framed_local_append].
Qed.

Lemma framed_deleteMemo mode roomId memoId :
  framed mode (deleteMemo roomId memoId).
Proof.
  unfold deleteMemo. apply framed_branch; [framing|].
  framing; apply framed_saveRoom.
Qed.

Lemma framed_importRoom mode roomData : framed mode (importRoom roomData).
Proof. unfold importRoom. framing; apply framed_saveRoom. Qed.

Lemma framed_createRoom mode admin env title password :
  framed mode (createRoom admin env title password).
Proof. unfold createRoom. framing. apply framed_saveRoom. Qed.

(** X16. No operation of the service touches the backend that is not
    active, and none changes the mode: in local mode [saveRoom],
    [deleteRoom], [createRoom], [addMessage], [addMemo], [deleteMemo]
    and [importRoom] leave the remote rooms as they were; in cloud mode
    they leave local storage as it was and dispatch no window event. *)
Theorem inactive_backend_untouched (mode : bool) (admin : JsVal)
    (env : Entropy) (title : string) (password : option string)
    (room item : JsVal) (roomId memoId : string) :
  framed mode (saveRoom room)
  /\ framed mode (deleteRoom roomId)
  /\ framed mode (createRoom admin env title password)
  /\ framed mode (addMessage roomId item)
  /\ framed mode (addMemo roomId item)
  /\ framed mode (deleteMemo roomId memoId)
  /\ framed mode (importRoom room).
Proof.
  repeat apply conj.
  - apply framed_saveRoom.
  - apply framed_deleteRoom.
  - apply framed_createRoom.
  - apply framed_addMessage.
  - apply framed_addMemo.
  - apply framed_deleteMemo.
  - apply framed_importRoom.
Qed.

(** ** What the subscriber is handed *)

(** X17. The local subscription parses the stored text without a guard:
    on a stored text that is not JSON, subscribing, and every later
    storage event, throw a SyntaxError to the caller and the subscriber
    is not called, where [getLocalRooms] answers the empty list. *)
Theorem local_subscription_unguarded (w : World) (s : string) :
  isCloudEnabled w = false ->
  localStorage w !! ROOMS_KEY = Some s ->
  s <> "" ->
  is_JSON s = false ->
  (exists msg, subscribeToRooms w = (w, Throw (SyntaxError msg)))
  /\ (exists msg, deliver StorageEvent w = (w, Throw (SyntaxError msg)))
  /\ result getLocalRooms w = Ok (JArr []).
Proof.
  intros Hc Hs Hne Hp. apply not_JSON_refused in Hp.
  assert (Hd : deliver StorageEvent w
               = (w, Throw (SyntaxError "Unexpected token in JSON"))).
  { unfold deliver. rewrite Hc. unfold bind, loadLocal, getItem, bind.
    rewrite Hs. destruct (String.eqb_spec s ""); [contradiction|].
    simpl. unfold lift, JSON_parse_js. now rewrite Hp. }
  split; [|split].
  - unfold subscribeToRooms. rewrite Hc. eauto.
  - eauto.
  - destruct (getLocalRooms_cases w)
      as [[Hg _]|[(s' & v & Hs' & _ & Hv & _)|(s' & _ & _ & _ & Hg)]].
    + unfold result. now rewrite Hg.
    + rewrite Hs in Hs'. injection Hs' as <-. congruence.
    + unfold result. now rewrite Hg.
Qed.

Lemma local_subscription_unguarded_witness :
  (exists msg, subscribeToRooms (world_with_text "{not json")
               = (world_with_text "{not json", Throw (SyntaxError msg)))
  /\ (exists msg, deliver StorageEvent (world_with_text "{not json")
                  = (world_with_text "{not json", Throw (SyntaxError msg)))
  /\ result getLocalRooms (world_with_text "{not json") = Ok (JArr []).
Proof.
  apply (local_subscription_unguarded (world_with_text "{not json") "{not json"
           eq_refl eq_refl); [discriminate|reflexivity].
Defined.

(** *** The remote snapshot *)

Lemma snapshot_get_other (kvs : list (string * JsVal)) :
  forall acc k,
    ~ List.In k (map fst kvs) ->
    obj_get k (fold_left (fun o kv => obj_set (fst kv) (snd kv) o) kvs acc)
    = obj_get k acc.
Proof.
  induction kvs as [|[k' v'] kvs IH]; intros acc k Hni; simpl; [reflexivity|].
  simpl in Hni. rewrite IH by tauto.
  apply obj_get_set_other. intros ->. tauto.
Qed.

Lemma snapshot_get (kvs : list (string * JsVal)) :
  forall acc k v,
    List.NoDup (map fst kvs) -> List.In (k, v) kvs ->
    obj_get k (fold_left (fun o kv => obj_set (fst kv) (snd kv) o) kvs acc) = v.
Proof.
  induction kvs as [|[k' v'] kvs IH]; intros acc k v Hnd Hin; simpl;
    [contradiction|].
  simpl in Hnd. apply List.NoDup_cons_iff in Hnd as [Hni Hnd].
  destruct Hin as [[= -> ->]|Hin].
  - rewrite snapshot_get_other by assumption. apply obj_get_set_same.
  - now apply IH.
Qed.


Lemma obj_get_In k o v : obj_get k o = v -> v <> JUndefined -> List.In v (map snd o).
Proof.
  induction o as [|[k' x] o IH]; simpl; [congruence|].
  destruct (String.eqb k k'); auto.
Qed.


Lemma values_replace (P : JsVal -> Prop) k x o :
  P x -> Forall (fun kx => P (snd kx)) o ->
  Forall (fun kx => P (snd kx)) (obj_replace k x o).
Proof.
  intros Hx. induction 1 as [|[k' x'] o Hh Ho IH]; simpl; [constructor|].
  destruct (String.eqb k k'); constructor; auto.
Qed.

Lemma values_insert (P : JsVal -> Prop) i k x o :
  P x -> Forall (fun kx => P (snd kx)) o ->
  Forall (fun kx => P (snd kx)) (obj_insert_index i k x o).
Proof.
  intros Hx. induction 1 as [|[k' x'] o Hh Ho IH]; simpl;
    [repeat constructor; assumption|].
  destruct (array_index k') as [j|]; [destruct (i <? j)%N|];
    repeat constructor; auto.
Qed.

Lemma values_set (P : JsVal -> Prop) k x o :
  P x -> Forall (fun kx => P (snd kx)) o ->
  Forall (fun kx => P (snd kx)) (obj_set k x o).
Proof.
  intros Hx Ho. unfold obj_set.
  destruct (obj_has k o); [now apply values_replace|].
  destruct (array_index k) as [i|]; [now apply values_insert|].
  apply List.Forall_app. split; [assumption|repeat constructor; assumption].
Qed.

Lemma snapshot_values (P : JsVal -> Prop) (kvs : list (string * JsVal)) :
  forall acc,
    Forall (fun kx => P (snd kx)) acc -> Forall (fun kx => P (snd kx)) kvs ->
    Forall (fun kx => P (snd kx))
      (fold_left (fun o kv => obj_set (fst kv) (snd kv) o) kvs acc).
Proof.
  induction kvs as [|[k v] kvs IH]; intros acc Ha Hk; simpl; [exact Ha|].
  apply List.Forall_cons_iff in Hk as [Hv Hk]. apply IH; [|exact Hk].
  now apply values_set.
Qed.

(** The snapshot of a remote node that has the child [v]: an object one
    of whose values is [v], all of whose values are children. *)
Lemma rooms_snapshot_child w key v :
  remote_rooms w !! key = Some v -> v <> JUndefined ->
  remote_children_defined w ->
  exists props,
    rooms_snapshot w = JObj props
    /\ List.In v (map snd props)
    /\ Forall (fun x => x <> JNull /\ x <> JUndefined) (map snd props).
Proof.
  intros Hk Hv Hwf. unfold rooms_snapshot.
  assert (Hin : List.In (key, v) (map_to_list (remote_rooms w)))
    by (apply list_elem_of_In, elem_of_map_to_list; exact Hk).
  assert (Hnd : List.NoDup (map fst (map_to_list (remote_rooms w))))
    by (apply NoDup_ListNoDup, NoDup_fst_map_to_list).
  assert (Hall : Forall (fun kx : string * JsVal =>
                           snd kx <> JNull /\ snd kx <> JUndefined)
                   (map_to_list (remote_rooms w))).
  { rewrite List.Forall_forall. intros [k x] Hx. simpl.
    apply list_elem_of_In, elem_of_map_to_list in Hx. exact (Hwf k x Hx). }
  destruct (map_to_list (remote_rooms w)) as [|kv kvs] eqn:El; [contradiction|].
  rewrite <- El in *. clear El kv kvs.
  eexists. split; [reflexivity|]. split.
  - apply (obj_get_In key); [|exact Hv]. exact (snapshot_get _ [] key v Hnd Hin).
  - rewrite List.Forall_map.
    apply (snapshot_values (fun x => x <> JNull /\ x <> JUndefined));
      [constructor|exact Hall].
Qed.

Lemma map_res_In {A B} (f : A -> Res B) l l' x y :
  map_res f l = Ok l' -> List.In x l -> f x = Ok y -> List.In y l'.
Proof.
  revert l'; induction l as [|a l IH]; simpl; intros l' H Hin Hy; [contradiction|].
  destruct (f a) as [b|e] eqn:Ea; [|discriminate].
  destruct (map_res f l) as [r|e]; [|discriminate].
  injection H as <-. destruct Hin as [->|Hin].
  - left. congruence.
  - right. eauto.
Qed.

(** A record whose messages and memos are arrays is handed over as it
    is. *)
Lemma reshape_fixed o :
  Array_isArray (obj_get "messages" o) = true ->
  Array_isArray (obj_get "memos" o) = true ->
  reshape (JObj o) = Ok (JObj o).
Proof.
  intros Hm Hn. unfold reshape, values_or_empty. simpl get_prop.
  destruct (obj_get "messages" o) as [| | | | |ms|] eqn:Ems; try discriminate.
  destruct (obj_get "memos" o) as [| | | | |mm|] eqn:Emm; try discriminate.
  simpl. f_equal. f_equal.
  assert (H1 : obj_set "messages" (JArr ms) o = o).
  { rewrite <- Ems. apply obj_set_get, obj_get_has. rewrite Ems. discriminate. }
  rewrite H1. rewrite <- Emm.
  apply obj_set_get, obj_get_has. rewrite Emm. discriminate.
Qed.

Lemma sequences_fixed r : sequences r -> reshape r = Ok r.
Proof.
  intros (o & ms & mm & -> & Hm & Hn).
  apply reshape_fixed; [now rewrite Hm|now rewrite Hn].
Qed.

Lemma map_res_fixed (f : JsVal -> Res JsVal) l :
  Forall (fun x => f x = Ok x) l -> map_res f l = Ok l.
Proof. induction 1 as [|x l Hx Hl IH]; simpl; [reflexivity|]. now rewrite Hx, IH. Qed.

(** X18. What the cloud listener hands over is a fixed point of the
    listener: a collection that went through it is not changed by going
    through it again, and a record whose messages and memos are already
    arrays is handed over as it is. *)
Theorem onRoomsValue_idempotent (data delivered : JsVal) :
  onRoomsValue data = Ok delivered ->
  onRoomsValue delivered = Ok delivered
  /\ (forall o, Array_isArray (obj_get "messages" o) = true ->
                Array_isArray (obj_get "memos" o) = true ->
                reshape (JObj o) = Ok (JObj o)).
Proof.
  intros Hd. split; [|apply reshape_fixed].
  unfold onRoomsValue in Hd.
  destruct (truthy data); [|injection Hd as <-; reflexivity].
  destruct (Object_values data) as [children|e]; [|discriminate].
  destruct (map_res reshape children) as [l|e] eqn:El; [|discriminate].
  injection Hd as <-. unfold onRoomsValue. simpl.
  rewrite map_res_fixed; [reflexivity|].
  pose proof (map_res_all reshape sequences children l reshape_sequences El) as Hs.
  eapply List.Forall_impl; [|exact Hs]. apply sequences_fixed.
Qed.

Lemma onRoomsValue_idempotent_witness :
  exists delivered,
    onRoomsValue (JObj [("r1", mapped_room)]) = Ok delivered
    /\ onRoomsValue delivered = Ok delivered.
Proof.
  eexists. split; [reflexivity|].
  exact (proj1 (onRoomsValue_idempotent (JObj [("r1", mapped_room)]) _ eq_refl)).
Defined.

Lemma jclean_object o : exists o', jclean (JObj o) = JObj o'.
Proof. eexists. apply jclean_obj. Qed.

(** X19. In cloud mode a saved room is in the next collection the
    subscriber receives: after a successful [saveRoom] on a backend all
    of whose children are defined, subscribing delivers a list that
    contains the reshaped JSON form of the room, with every field other
    than messages and memos as saved; a room that is in JSON form with
    array messages and memos is delivered as it is. *)
Theorem cloud_save_then_delivered (w : World) (o : Props) :
  isCloudEnabled w = true ->
  remote_fault w = None ->
  remote_children_defined w ->
  let w' := run (saveRoom (JObj o)) w in
  exists l r,
    result (saveRoom (JObj o)) w = Ok tt
    /\ result subscribeToRooms w' = Ok (Some (JArr l))
    /\ reshape (jclean (JObj o)) = Ok r
    /\ List.In r l
    /\ sequences r
    /\ (forall k, k <> "messages" -> k <> "memos" ->
                  get_prop r k = get_prop (jclean (JObj o)) k)
    /\ (plain (JObj o) ->
        Array_isArray (obj_get "messages" o) = true ->
        Array_isArray (obj_get "memos" o) = true ->
        r = JObj o).
Proof.
  intros Hc Hf Hwf w'. subst w'.
  pose proof (saveRoom_cloud_ok w o Hc Hf) as Hs.
  set (key := room_key (obj_get "id" o)) in *.
  set (w1 := with_remote_rooms (<[key := jclean (JObj o)]> (remote_rooms w)) w) in *.
  assert (Hr1 : run (saveRoom (JObj o)) w = w1) by (unfold run; now rewrite Hs).
  assert (Hres : result (saveRoom (JObj o)) w = Ok tt)
    by (unfold result; now rewrite Hs).
  rewrite Hr1, Hres.
  destruct (jclean_object o) as (o' & Ho').
  assert (Hwf1 : remote_children_defined w1).
  { intros k v. subst w1. unfold with_remote_rooms. cbn [remote_rooms].
    destruct (String.eqb_spec k key) as [->|Hne].
    - rewrite lookup_insert_eq, Ho'. intros [= <-]. split; discriminate.
    - rewrite lookup_insert_ne by congruence. apply Hwf. }
  destruct (rooms_snapshot_child w1 key (jclean (JObj o)))
    as (props & Hsnap & Hin & Hall);
    [subst w1; unfold with_remote_rooms; cbn [remote_rooms];
     apply lookup_insert_eq|rewrite Ho'; discriminate
    |exact Hwf1|].
  destruct (reshape_total (jclean (JObj o))) as (r & Hr);
    [rewrite Ho'; discriminate|rewrite Ho'; discriminate|].
  destruct (map_res_total reshape (map snd props)) as (l & Hl).
  { eapply List.Forall_impl; [|exact Hall].
    intros x [Hn Hu]. now apply reshape_total. }
  exists l, r. split; [reflexivity|]. split.
  { unfold result, subscribeToRooms, deliver.
    change (isCloudEnabled w1) with (isCloudEnabled w). rewrite Hc.
    unfold bind, lift, onRoomsValue. rewrite Hsnap. simpl. now rewrite Hl. }
  split; [exact Hr|]. split; [exact (map_res_In _ _ _ _ _ Hl Hin Hr)|].
  split; [exact (reshape_sequences _ _ Hr)|]. split.
  - intros k Hk1 Hk2. rewrite Ho' in *. unfold reshape in Hr.
    destruct (values_or_empty (JObj o') "messages") as [ms|e]; [|discriminate].
    destruct (values_or_empty (JObj o') "memos") as [mm|e]; [|discriminate].
    injection Hr as <-. simpl.
    now rewrite !obj_get_set_other by assumption.
  - intros Hp Hm Hn. rewrite (plain_jclean _ Hp) in Hr.
    rewrite (reshape_fixed o Hm Hn) in Hr. congruence.
Qed.

Lemma cloud_save_then_delivered_witness :
  exists l r,
    result (saveRoom sample_room) empty_cloud = Ok tt
    /\ result subscribeToRooms (run (saveRoom sample_room) empty_cloud)
       = Ok (Some (JArr l))
    /\ reshape (jclean sample_room) = Ok r
    /\ List.In r l
    /\ sequences r
    /\ (forall k, k <> "messages" -> k <> "memos" ->
                  get_prop r k = get_prop (jclean sample_room) k)
    /\ (plain sample_room ->
        Array_isArray (obj_get "messages" sample_room_props) = true ->
        Array_isArray (obj_get "memos" sample_room_props) = true ->
        r = sample_room).
Proof.
  assert (H : remote_children_defined empty_cloud)
    by (intros k v Hk; discriminate Hk).
  exact (cloud_save_then_delivered empty_cloud sample_room_props
           eq_refl eq_refl H).
Defined.

(** ** What is written to the remote backend *)

Lemma plain_has_no_undefined v : plain v -> has_undefined v = false.
Proof.
  induction v as [| |b|n|s|l IH|o IH] using JsVal_nested_ind;
    intros Hp; try reflexivity.
  - inversion Hp.
  - inversion Hp as [| | | |l' Hl|]; subst. simpl.
    induction l as [|x l IHl]; [reflexivity|].
    apply List.Forall_cons_iff in IH as [Hx IH].
    apply List.Forall_cons_iff in Hl as [Hpx Hl].
    simpl. rewrite (Hx Hpx). apply IHl; [exact IH|now constructor|exact Hl].
  - inversion Hp as [| | | | |o' Hk Hv]; subst. simpl. clear Hp Hk.
    induction o as [|[k x] o IHo]; [reflexivity|].
    apply List.Forall_cons_iff in IH as [Hx IH].
    apply List.Forall_cons_iff in Hv as [Hpx Hv].
    simpl in *. rewrite (Hx Hpx). now apply IHo.
Qed.

(** X20. What [saveRoom] hands to the remote backend is the room in its
    JSON form, in which undefined occurs nowhere; for a room that is
    already in JSON form it is the room itself.  Saving the same room
    again changes nothing. *)
Theorem saveRoom_cloud_sanitizes (w : World) (o : Props) :
  isCloudEnabled w = true ->
  remote_fault w = None ->
  let w' := run (saveRoom (JObj o)) w in
  remote_rooms w'
  = <[room_key (obj_get "id" o) := jclean (JObj o)]> (remote_rooms w)
  /\ has_undefined (jclean (JObj o)) = false
  /\ (plain (JObj o) -> jclean (JObj o) = JObj o)
  /\ run (saveRoom (JObj o)) w' = w'.
Proof.
  intros Hc Hf w'. subst w'.
  pose proof (saveRoom_cloud_ok w o Hc Hf) as Hs.
  set (w1 := with_remote_rooms _ w) in Hs.
  assert (Hr1 : run (saveRoom (JObj o)) w = w1) by (unfold run; now rewrite Hs).
  rewrite Hr1. split; [reflexivity|]. split.
  { apply plain_has_no_undefined, jclean_plain. discriminate. }
  split; [apply plain_jclean|].
  unfold run. rewrite (saveRoom_cloud_ok w1 o Hc Hf). cbn [fst].
  subst w1. unfold with_remote_rooms. cbn [remote_rooms localStorage
    isCloudEnabled remote_fault console events alerts unhandled].
  now rewrite insert_insert_eq.
Qed.

Lemma saveRoom_cloud_sanitizes_witness :
  remote_rooms (run (saveRoom (JObj sparse_room)) empty_cloud)
  = <["r1" := jclean (JObj sparse_room)]> ∅
  /\ has_undefined (jclean (JObj sparse_room)) = false
  /\ (plain (JObj sparse_room) -> jclean (JObj sparse_room) = JObj sparse_room)
  /\ run (saveRoom (JObj sparse_room))
       (run (saveRoom (JObj sparse_room)) empty_cloud)
     = run (saveRoom (JObj sparse_room)) empty_cloud.
Proof.
  exact (saveRoom_cloud_sanitizes empty_cloud sparse_room eq_refl eq_refl).
Defined.

(** ** Loading a room file *)

Lemma import_guard_object v :
  import_guard v = true ->
  exists o, v = JObj o /\ truthy (obj_get "id" o) = true
            /\ truthy (obj_get "title" o) = true.
Proof.
  unfold import_guard. destruct v as [| |b|n|s|l|o]; simpl;
    try discriminate; try (destruct b; discriminate);
    try (destruct (n =? 0); discriminate);
    try (destruct (String.eqb s ""); discriminate).
  intros H. apply andb_prop in H as [H1 H2]. eauto.
Qed.

Lemma import_guard_refused v :
  import_guard v = false ->
  truthy v = false
  \/ (exists id, get_prop v "id" = Ok id /\ truthy id = false)
  \/ (exists title, get_prop v "title" = Ok title /\ truthy title = false).
Proof.
  unfold import_guard. destruct (truthy v) eqn:Et; [|auto]. simpl.
  destruct (get_prop v "id") as [id|e] eqn:Ei;
    [|destruct v; simpl in *; discriminate].
  destruct (truthy id) eqn:Eti; [|eauto]. simpl.
  destruct (get_prop v "title") as [title|e] eqn:Ett;
    [|destruct v; simpl in *; discriminate].
  intros H. eauto 6.
Qed.

Lemma importRoom_accepts o w :
  truthy (obj_get "id" o) = true -> truthy (obj_get "title" o) = true ->
  importRoom (JObj o) w = (run (detach (saveRoom (JObj o))) w, Ok true).
Proof.
  intros Hid Ht. unfold importRoom, try_catch, bind, lift, ret. simpl.
  rewrite Hid, Ht. simpl. unfold run, detach.
  destruct (saveRoom (JObj o) w) as [w' [[]|e]]; reflexivity.
Qed.

Lemma detach_alerts {A} (m : M A) w :
  alerts (run (detach m) w) = alerts (run m w).
Proof. unfold run, detach. destruct (m w) as [w' [a|e]]; reflexivity. Qed.

(** X21. Loading a room file never throws and shows exactly one alert,
    one of three: the read-error alert when the text is not JSON; for a
    text that the reader reads, the invalid-file alert when the value
    read, its identifier or its title is falsy, and the success alert
    otherwise.  In the first two cases neither store is changed. *)
Theorem handleFileLoaded_one_alert (text : string) (w : World) :
  let w' := run (handleFileLoaded text) w in
  let unchanged :=
    localStorage w' = localStorage w /\ remote_rooms w' = remote_rooms w
    /\ unhandled w' = unhandled w in
  result (handleFileLoaded text) w = Ok tt
  /\ (exists shown,
        alerts w' = shown :: alerts w
        /\ List.In shown
             [import_error_alert; import_invalid_alert; import_ok_alert])
  /\ (is_JSON text = false ->
      alerts w' = import_error_alert :: alerts w /\ unchanged)
  /\ (forall v,
        JSON_parse text = Some v -> exact v = true ->
        alerts w'
        = (if import_guard v then import_ok_alert else import_invalid_alert)
            :: alerts w
        /\ (import_guard v = false -> unchanged)).
Proof.
  intros w' unchanged. subst unchanged w'.
  unfold run, result, handleFileLoaded.
  unfold try_catch, bind at 1, lift, JSON_parse_js.
  destruct (JSON_parse text) as [v|] eqn:Ep.
  - assert (Hj : is_JSON text = true) by eauto using JSON_parse_is_JSON.
    destruct (import_guard v) eqn:Eg.
    + destruct (import_guard_object v Eg) as (o & -> & Hid & Ht).
      unfold bind. rewrite (importRoom_accepts o w Hid Ht). cbn [fst snd alert].
      assert (Ha : alerts (with_alerts
                             (import_ok_alert
                                :: alerts (run (detach (saveRoom (JObj o))) w))
                             (run (detach (saveRoom (JObj o))) w))
                   = import_ok_alert :: alerts w)
        by (simpl; now rewrite detach_alerts, saveRoom_alerts).
      split; [reflexivity|]. split; [|split].
      * exists import_ok_alert. split; [exact Ha|simpl; auto].
      * congruence.
      * intros v' [= <-] _. rewrite Eg. split; [exact Ha|discriminate].
    + unfold bind.
      rewrite (importRoom_refuses v w (import_guard_refused v Eg)).
      cbn [fst snd alert]. split; [reflexivity|]. split; [|split].
      * exists import_invalid_alert. split; [reflexivity|simpl; auto].
      * congruence.
      * intros v' [= <-] _. rewrite Eg. repeat split.
  - simpl. split; [reflexivity|]. split; [|split].
    + exists import_error_alert. split; [reflexivity|simpl; auto].
    + intros _. repeat split.
    + intros v [=].
Qed.

Lemma handleFileLoaded_one_alert_witness :
  alerts (run (handleFileLoaded "{not json") empty_local)
  = [import_error_alert]
  /\ alerts (run (handleFileLoaded
                    (string_of_list_ascii (json_text sample_room)))
               empty_local)
     = [import_ok_alert]
  /\ alerts (run (handleFileLoaded "{}") empty_local)
     = [import_invalid_alert].
Proof.
  destruct (handleFileLoaded_one_alert "{not json" empty_local)
    as (_ & _ & Hbad & _).
  destruct (handleFileLoaded_one_alert
              (string_of_list_ascii (json_text sample_room)) empty_local)
    as (_ & _ & _ & Hgood).
  destruct (handleFileLoaded_one_alert "{}" empty_local)
    as (_ & _ & _ & Hempty).
  split; [exact (proj1 (Hbad eq_refl))|]. split.
  - exact (proj1 (Hgood sample_room eq_refl eq_refl)).
  - exact (proj1 (Hempty (JObj []) eq_refl eq_refl)).
Defined.

(** ** The reply generator *)

Lemma generateAIResponse_cases env history context s :
  Gemini.generateAIResponse env history context s
  = if negb (truthy (Gemini.API_KEY env)) then
      (Gemini.mkState (Gemini.sent s)
         ("API Key is missing for Gemini" :: Gemini.lines s),
       Ok (JStr Gemini.missing_key_reply))
    else
      match Gemini.conversation history with
      | Throw _ =>
          (Gemini.mkState (Gemini.sent s)
             ("Gemini API Error:" :: Gemini.lines s),
           Ok (JStr Gemini.error_reply))
      | Ok conv =>
          let p := Gemini.prompt context conv in
          match Gemini.generateContent env p with
          | Throw _ =>
              (Gemini.mkState (p :: Gemini.sent s)
                 ("Gemini API Error:" :: Gemini.lines s),
               Ok (JStr Gemini.error_reply))
          | Ok response =>
              match get_prop response "text" with
              | Throw _ =>
                  (Gemini.mkState (p :: Gemini.sent s)
                     ("Gemini API Error:" :: Gemini.lines s),
                   Ok (JStr Gemini.error_reply))
              | Ok text =>
                  (Gemini.mkState (p :: Gemini.sent s) (Gemini.lines s),
                   Ok (if truthy text then text
                       else JStr Gemini.no_text_reply))
              end
          end
      end.
Proof.
  unfold Gemini.generateAIResponse, ecatch, ebind, elift, eret,
    Gemini.request, Gemini.log.
  destruct (negb (truthy (Gemini.API_KEY env))); [reflexivity|].
  destruct (Gemini.conversation history) as [conv|e]; [|reflexivity].
  cbv zeta.
  destruct (Gemini.generateContent env (Gemini.prompt context conv))
    as [response|e]; [|reflexivity].
  destruct (get_prop response "text"); reflexivity.
Qed.

(** X22. [generateAIResponse] never throws and always answers with a
    truthy value: the text of the model's response when there is one,
    and otherwise one of three fixed messages.  Without an API key no
    request is made; in any case at most one request is made, and it
    carries the prompt built from the room title and the conversation
    lines. *)
Theorem generateAIResponse_always_replies (env : Gemini.Env) (history : JsVal)
    (context : string) (s : Gemini.State) :
  let out := Gemini.generateAIResponse env history context s in
  exists reply,
    snd out = Ok reply
    /\ truthy reply = true
    /\ (truthy (Gemini.API_KEY env) = false ->
        reply = JStr Gemini.missing_key_reply
        /\ Gemini.sent (fst out) = Gemini.sent s)
    /\ (Gemini.sent (fst out) = Gemini.sent s
        \/ exists conv,
             Gemini.conversation history = Ok conv
             /\ Gemini.sent (fst out)
                = Gemini.prompt context conv :: Gemini.sent s)
    /\ (reply = JStr Gemini.missing_key_reply
        \/ reply = JStr Gemini.error_reply
        \/ reply = JStr Gemini.no_text_reply
        \/ exists p response,
             Gemini.generateContent env p = Ok response
             /\ get_prop response "text" = Ok reply)
    /\ (forall conv response text,
          truthy (Gemini.API_KEY env) = true ->
          Gemini.conversation history = Ok conv ->
          Gemini.generateContent env (Gemini.prompt context conv) = Ok response ->
          get_prop response "text" = Ok text -> truthy text = true ->
          reply = text /\ Gemini.lines (fst out) = Gemini.lines s).
Proof.
  intros out. subst out. rewrite generateAIResponse_cases.
  destruct (truthy (Gemini.API_KEY env)) eqn:Ek; cbn [negb].
  2:{ exists (JStr Gemini.missing_key_reply). cbn [fst snd Gemini.sent].
      split; [reflexivity|]. split; [reflexivity|]. split; [auto|].
      split; [auto|]. split; [auto|]. intros; discriminate. }
  destruct (Gemini.conversation history) as [conv|e] eqn:Ec.
  2:{ exists (JStr Gemini.error_reply). cbn [fst snd Gemini.sent].
      split; [reflexivity|]. split; [reflexivity|].
      split; [intros; discriminate|]. split; [auto|]. split; [auto|].
      intros; congruence. }
  cbv zeta.
  destruct (Gemini.generateContent env (Gemini.prompt context conv))
    as [response|e] eqn:Eg.
  2:{ exists (JStr Gemini.error_reply). cbn [fst snd Gemini.sent].
      split; [reflexivity|]. split; [reflexivity|].
      split; [intros; discriminate|].
      split; [right; exists conv; split; reflexivity|]. split; [auto|].
      intros conv' response' text' _ [= <-] Hg. congruence. }
  destruct (get_prop response "text") as [text|e] eqn:Et.
  2:{ exists (JStr Gemini.error_reply). cbn [fst snd Gemini.sent].
      split; [reflexivity|]. split; [reflexivity|].
      split; [intros; discriminate|].
      split; [right; exists conv; split; reflexivity|]. split; [auto|].
      intros conv' response' text' _ [= <-] Hg Ht _.
      rewrite Eg in Hg. injection Hg as <-. congruence. }
  cbn [fst snd Gemini.sent Gemini.lines].
  destruct (truthy text) eqn:Ett.
  - exists text. split; [reflexivity|]. split; [assumption|].
    split; [intros; discriminate|].
    split; [right; exists conv; split; reflexivity|].
    split; [right; right; right;
            exists (Gemini.prompt context conv), response; auto|].
    intros conv' response' text' _ [= <-] Hg Ht _.
    rewrite Eg in Hg. injection Hg as <-. rewrite Et in Ht.
    injection Ht as <-. auto.
  - exists (JStr Gemini.no_text_reply).
    split; [reflexivity|]. split; [reflexivity|].
    split; [intros; discriminate|].
    split; [right; exists conv; split; reflexivity|]. split; [auto|].
    intros conv' response' text' _ [= <-] Hg Ht Htt.
    rewrite Eg in Hg. injection Hg as <-. rewrite Et in Ht.
    injection Ht as <-. congruence.
Qed.

(** ** The connectivity probe *)

Lemma awaitConnected_resolves l :
  Probe.awaitConnected l = Ok tt <->
  exists before after,
    l = before ++ Probe.Connected (JBool true) :: after
    /\ Forall (fun n => exists value, n = Probe.Connected value
                                      /\ value <> JBool true) before.
Proof.
  split.
  - induction l as [|n l IH]; simpl; [discriminate|].
    destruct n as [value|e]; [|discriminate].
    destruct (strict_eq value (JBool true)) eqn:Es.
    + intros _. exists [], l. split; [|constructor].
      destruct value as [| |[]| | | |]; try discriminate. reflexivity.
    + intros H. destruct (IH H) as (before & after & -> & Hall).
      exists (Probe.Connected value :: before), after.
      split; [reflexivity|]. constructor; [|exact Hall].
      exists value. split; [reflexivity|]. intros ->. discriminate.
  - intros (before & after & -> & Hall).
    induction Hall as [|n before (value & -> & Hne) Hall IH]; simpl;
      [reflexivity|].
    destruct (strict_eq value (JBool true)) eqn:Es; [|exact IH].
    destruct value as [| |[]| | | |]; try discriminate. congruence.
Qed.

Lemma probe_message_shown e :
  (if String.eqb (error_message e) "" then Probe.default_message
   else error_message e) <> "".
Proof.
  destruct (String.eqb_spec (error_message e) ""); [discriminate|assumption].
Qed.

Lemma filter_fresh (name : string) l :
  ~ List.In name l ->
  List.filter (fun a => negb (String.eqb a name)) l = l.
Proof.
  induction l as [|a l IH]; simpl; [reflexivity|]. intros Hni.
  destruct (String.eqb_spec a name) as [->|Hne]; [tauto|].
  simpl. rewrite IH; tauto.
Qed.

(** X23. [testFirebaseConnection] resolves exactly when the client takes
    the configuration and the value true reaches the listener before any
    cancellation and before the five seconds are over (earlier values
    that are not true are ignored); every failure, whatever it was,
    reaches the caller as an Error with a non-empty message.  Whatever
    the outcome, a test app that was created is deleted again, and a
    failure of that cleanup does not change the outcome. *)
Theorem testFirebaseConnection_outcome (env : Probe.Env) (s : Probe.State) :
  let out := Probe.testFirebaseConnection env s in
  let appName := "test-app-" +:+ Z_string (Probe.date_now env) in
  (snd out = Ok tt <->
   Probe.initializeApp_error env = None
   /\ Probe.getDatabase_error env = None
   /\ exists before after,
        Probe.notices env = before ++ Probe.Connected (JBool true) :: after
        /\ Forall (fun n => exists value, n = Probe.Connected value
                                          /\ value <> JBool true) before)
  /\ (forall e, snd out = Throw e -> exists msg, e = Error msg /\ msg <> "")
  /\ (Probe.deleteApp_error env = None -> ~ List.In appName (Probe.apps s) ->
      Probe.apps (fst out) = Probe.apps s)
  /\ (Probe.initializeApp_error env <> None ->
      Probe.apps (fst out) = Probe.apps s)
  /\ snd out
     = snd (Probe.testFirebaseConnection
              (Probe.mkEnv (Probe.date_now env) (Probe.initializeApp_error env)
                 (Probe.getDatabase_error env) (Probe.notices env) None) s).
Proof.
  intros out appName. subst out.
  rewrite <- awaitConnected_resolves.
  unfold Probe.testFirebaseConnection, efinally, ecatch, ebind, elift, ethrow,
    Probe.initializeApp, Probe.getDatabase, Probe.deleteApp, Probe.log.
  cbn [Probe.initializeApp_error Probe.getDatabase_error Probe.notices
       Probe.deleteApp_error Probe.date_now].
  fold appName.
  destruct (Probe.initializeApp_error env) as [e1|] eqn:E1.
  { cbn [Probe.testApp fst snd Probe.apps].
    repeat match goal with |- _ /\ _ => split end.
    - split; [discriminate|intros [H _]; discriminate].
    - intros e [= <-]. eexists. split; [reflexivity|apply probe_message_shown].
    - reflexivity.
    - reflexivity.
    - reflexivity. }
  destruct (Probe.getDatabase_error env) as [e2|] eqn:E2.
  { cbn [Probe.testApp fst snd Probe.apps].
    destruct (Probe.deleteApp_error env) as [e3|] eqn:E3;
      cbn [Probe.testApp fst snd Probe.apps];
      repeat match goal with |- _ /\ _ => split end;
      try reflexivity; try congruence;
      try (split; [discriminate|intros (_ & H & _); discriminate]);
      try (intros e [= <-]; eexists; split;
           [reflexivity|apply probe_message_shown]).
    intros _ Hni. simpl. rewrite String.eqb_refl. simpl.
    now apply filter_fresh. }
  destruct (Probe.awaitConnected (Probe.notices env)) as [[]|e4] eqn:E4;
    cbn [Probe.testApp fst snd Probe.apps];
    destruct (Probe.deleteApp_error env) as [e3|] eqn:E3;
    cbn [Probe.testApp fst snd Probe.apps];
    repeat match goal with |- _ /\ _ => split end;
    try reflexivity; try congruence;
    try (split; [discriminate|intros (_ & _ & H); discriminate]);
    try (split; [auto|reflexivity]);
    try (intros e [= <-]; eexists; split;
         [reflexivity|apply probe_message_shown]);
    try discriminate;
    try (intros _ Hni; simpl; rewrite String.eqb_refl; simpl;
         now apply filter_fresh).
Qed.

(** ** What the credential dialog refuses *)

(** X24. The refusals of [handleSave], each leaving everything as it
    was, asking nothing and probing nothing unless said: a text that
    does not evaluate and is not JSON is reported as unreadable; a value that
    is falsy or not an object as not a configuration object; a
    configuration without an API key or a project identifier with the
    names of the missing ones, API key first; and a complete
    configuration whose probe fails with the failure's message, that
    configuration being the one probed. *)
Theorem handleSave_refusals (configJson : string) (env : SetupEnv) (w : World) :
  (eval_result env = None -> is_JSON configJson = false ->
   handleSave configJson env w = (w, refused unreadable_config_error []))
  /\ (forall config,
        parseConfig configJson env = Ok config ->
        truthy config = false \/ typeof_object config = false ->
        handleSave configJson env w = (w, refused not_an_object_error []))
  /\ (forall o,
        parseConfig configJson env = Ok (JObj o) ->
        truthy (obj_get "apiKey" o) = false
        \/ truthy (obj_get "projectId" o) = false ->
        handleSave configJson env w
        = (w, refused
                (missing_fields_error
                   ((if truthy (obj_get "apiKey" o) then [] else ["apiKey"])
                      ++ (if truthy (obj_get "projectId" o) then []
                          else ["projectId"]))) []))
  /\ (forall o msg,
        parseConfig configJson env = Ok (JObj o) ->
        truthy (obj_get "apiKey" o) = true ->
        truthy (obj_get "projectId" o) = true ->
        truthy (obj_get "databaseURL" o) = true ->
        probe_failure env = Some msg ->
        handleSave configJson env w
        = (w, refused (probe_failed_error msg) [JObj o])).
Proof.
  repeat match goal with |- _ /\ _ => split end.
  - intros He Hp. apply not_JSON_refused in Hp.
    unfold handleSave, parseConfig. rewrite He, Hp. reflexivity.
  - intros config Hc Hbad. unfold handleSave. rewrite Hc.
    destruct Hbad as [-> | ->]; [reflexivity|].
    now rewrite orb_true_r.
  - intros o Hc Hmiss. unfold handleSave. rewrite Hc. simpl.
    unfold missingFields.
    destruct (truthy (obj_get "apiKey" o)) eqn:Ea;
      destruct (truthy (obj_get "projectId" o)) eqn:Ep; simpl;
      try reflexivity.
    destruct Hmiss; discriminate.
  - intros o msg Hc Ha Hp Hu Hf. unfold handleSave. rewrite Hc. simpl.
    unfold missingFields. rewrite Ha, Hp, Hu, Hf. simpl.
    unfold reportError, refused, probe_failed_error. simpl. reflexivity.
Qed.

Lemma handleSave_refusals_witness :
  handleSave "{not json" no_evaluation empty_local
  = (empty_local, refused unreadable_config_error [])
  /\ handleSave "{}" no_evaluation empty_local
     = (empty_local,
        refused (missing_fields_error ["apiKey"; "projectId"]) []).
Proof.
  destruct (handleSave_refusals "{not json" no_evaluation empty_local)
    as (Hbad & _).
  destruct (handleSave_refusals "{}" no_evaluation empty_local)
    as (_ & _ & Hmiss & _).
  split; [exact (Hbad eq_refl eq_refl)|].
  exact (Hmiss [] eq_refl (or_introl eq_refl)).
Defined.

(** ** The application shell *)

Lemma title_matches_titled toLowerCase term r b :
  App.title_matches toLowerCase term r = Ok b -> titled r.
Proof.
  unfold App.title_matches, titled.
  destruct r as [| |b0|n|s|l|o]; simpl; try discriminate.
  destruct (obj_get "title" o) eqn:Et; try discriminate. eauto.
Qed.

Lemma filter_res_each (p : JsVal -> Res bool) l l' :
  filter_res p l = Ok l' -> Forall (fun r => exists b, p r = Ok b) l.
Proof.
  revert l'; induction l as [|x l IH]; simpl; intros l' H; [constructor|].
  destruct (p x) as [b|e] eqn:Ex; [|discriminate].
  destruct (filter_res p l) as [r|e]; [|discriminate]. eauto.
Qed.

Lemma filter_res_kept (p : JsVal -> Res bool) l l' x :
  filter_res p l = Ok l' -> List.In x l' -> p x = Ok true.
Proof.
  revert l'; induction l as [|y l IH]; simpl; intros l' H Hin.
  - injection H as <-. contradiction.
  - destruct (p y) as [b|e] eqn:Ey; [|discriminate].
    destruct (filter_res p l) as [r|e]; [|discriminate].
    injection H as <-. destruct b; [destruct Hin as [<-|Hin]|]; eauto.
Qed.

Lemma titled_truthy r : titled r -> truthy r = true.
Proof. now intros (o & t & -> & _). Qed.

Lemma find_first_found (p : JsVal -> Res bool) l r :
  find_first p l = Ok r -> truthy r = true -> List.In r l /\ p r = Ok true.
Proof.
  induction l as [|x l IH]; simpl; intros H Ht.
  - injection H as <-. discriminate.
  - destruct (p x) as [[]|e] eqn:Ex; [|destruct (IH H Ht); auto|discriminate].
    injection H as <-. auto.
Qed.

(** The session kept by one event. *)
Lemma app_step_session toLowerCase admin participant s s' :
  app_step toLowerCase admin participant s s' ->
  truthy (App.currentRoom s) = truthy (App.currentUser s) ->
  truthy (App.currentRoom s') = truthy (App.currentUser s').
Proof.
  intros Hstep Hinv. destruct Hstep; try exact Hinv; try reflexivity.
  - (* delivery *)
    unfold App.onRoomsDelivered in H.
    destruct (receiver "sort" updatedRooms) as [l|e]; [|discriminate].
    destruct (App.sort_newest_first l) as [[sorted|e]|]; try discriminate.
    destruct (truthy (App.currentRoom s)) eqn:Ec.
    + destruct (find_first _ sorted) as [found|e]; [|discriminate].
      destruct (truthy found) eqn:Ef; injection H as <-; simpl; congruence.
    + injection H as <-. simpl. congruence.
  - (* creation *)
    unfold result, App.onCreateRoom, bind in H.
    destruct (handleCreateRoom admin env title password w) as [w1 [[room|]|e]]
      eqn:Eh; simpl in H; try discriminate; injection H as <-; [|exact Hinv].
    simpl. unfold handleCreateRoom, try_catch, bind in Eh.
    destruct (createRoom admin env title password w) as [w2 [r|e]] eqn:Ecr.
    + injection Eh as _ <-.
      unfold createRoom, bind in Ecr.
      destruct (saveRoom _ w) as [w3 [[]|e]]; [|discriminate].
      injection Ecr as _ <-. reflexivity.
    + simpl in Eh. discriminate.
  - (* confirmed deletion *)
    unfold result, App.onConfirmDelete in H.
    destruct (truthy (App.roomToDelete s)).
    + unfold bind in H.
      destruct (handleConfirmDelete _ w) as [w1 [[]|e]]; simpl in H;
        [|discriminate]. injection H as <-. exact Hinv.
    + injection H as <-. exact Hinv.
  - (* a room card *)
    unfold App.handleJoinRoom. destruct (App.isAdminMode s); [|exact Hinv].
    simpl. apply titled_truthy.
    eapply title_matches_titled. eapply filter_res_kept; eassumption.
  - (* confirmed join *)
    unfold App.confirmJoin.
    destruct (truthy (App.joinModalRoom s)) eqn:Ej; [|exact Hinv].
    simpl. exact Ej.
  - (* confirmed disconnection *)
    unfold result, App.confirmDisconnect, bind in H.
    rewrite clearFirebaseConfig_store in H. simpl in H.
    injection H as <- _. exact Hinv.
Qed.

(** X25. In every state the shell can reach, the user is in a room
    exactly when there is a session: the current room and the current
    user are set together and cleared together, so the chat view is
    shown exactly when a room is set. *)
Theorem session_invariant (toLowerCase : string -> string)
    (admin participant : JsVal) (s : App.State) :
  reachable toLowerCase admin participant s ->
  truthy (App.currentRoom s) = truthy (App.currentUser s)
  /\ App.in_chat s = truthy (App.currentRoom s).
Proof.
  intros Hr.
  assert (Hinv : truthy (App.currentRoom s) = truthy (App.currentUser s)).
  { induction Hr as [|s s' Hr IH Hstep]; [reflexivity|].
    eapply app_step_session; eassumption. }
  split; [exact Hinv|]. unfold App.in_chat. rewrite <- Hinv.
  now destruct (truthy (App.currentRoom s)).
Qed.

Lemma session_invariant_witness :
  truthy (App.currentRoom
            (App.with_currentRoom
               (newRoom (JStr "ADMIN") sample_entropy "General" None)
               (App.with_currentUser (App.session "AI Bot" (JStr "ADMIN"))
                  (App.with_showCreateModal false App.initial))))
  = truthy (App.currentUser
              (App.with_currentRoom
                 (newRoom (JStr "ADMIN") sample_entropy "General" None)
                 (App.with_currentUser (App.session "AI Bot" (JStr "ADMIN"))
                    (App.with_showCreateModal false App.initial))))
  /\ App.in_chat
       (App.with_currentRoom
          (newRoom (JStr "ADMIN") sample_entropy "General" None)
          (App.with_currentUser (App.session "AI Bot" (JStr "ADMIN"))
             (App.with_showCreateModal false App.initial)))
     = true.
Proof.
  exact (session_invariant (fun t => t) (JStr "ADMIN") (JStr "PARTICIPANT") _
           (reach_step _ _ _ _ _ (reach_initial _ _ _)
              (step_create _ _ _ sample_entropy "General" None empty_local
                 App.initial _ eq_refl))).
Defined.

(** *** The delivered rooms, newest first *)

Lemma insert_newest_perm x l : Permutation (App.insert_newest x l) (x :: l).
Proof.
  induction l as [|y l IH]; simpl; [reflexivity|].
  destruct (App.stamp x <? App.stamp y); [|reflexivity].
  rewrite IH. apply perm_swap.
Qed.

Lemma sort_perm l : Permutation (fold_right App.insert_newest [] l) l.
Proof.
  induction l as [|x l IH]; simpl; [reflexivity|].
  rewrite insert_newest_perm. now constructor.
Qed.

Lemma insert_newest_sorted x l :
  newest_first l -> newest_first (App.insert_newest x l).
Proof.
  unfold newest_first. induction 1 as [|y l Hs IH Hy]; simpl.
  - repeat constructor.
  - destruct (App.stamp x <? App.stamp y) eqn:E.
    + constructor; [exact IH|].
      apply Z.ltb_lt in E.
      apply (Permutation_Forall (Permutation_sym (insert_newest_perm x l))).
      constructor; [lia|exact Hy].
    + apply Z.ltb_ge in E. constructor; [now constructor|].
      constructor; [exact E|].
      eapply List.Forall_impl; [|exact Hy]. simpl. intros a Ha. lia.
Qed.

Lemma sort_sorted l : newest_first (fold_right App.insert_newest [] l).
Proof.
  induction l as [|x l IH]; simpl; [constructor|].
  now apply insert_newest_sorted.
Qed.

Lemma insert_newest_created_at n x l :
  created_at n (App.insert_newest x l) = created_at n (x :: l).
Proof.
  unfold created_at. induction l as [|y l IH]; simpl; [reflexivity|].
  destruct (App.stamp x <? App.stamp y) eqn:E; [|reflexivity].
  apply Z.ltb_lt in E. simpl. rewrite IH. simpl.
  destruct (App.stamp x =? n) eqn:Ex; [|reflexivity].
  apply Z.eqb_eq in Ex.
  destruct (App.stamp y =? n) eqn:Ey; [|reflexivity].
  apply Z.eqb_eq in Ey. lia.
Qed.

Lemma sort_created_at n l :
  created_at n (fold_right App.insert_newest [] l) = created_at n l.
Proof.
  induction l as [|x l IH]; simpl; [reflexivity|].
  rewrite insert_newest_created_at. unfold created_at in *. simpl.
  now rewrite IH.
Qed.

(** What [sort_newest_first] answers, when it answers with a list. *)
Lemma sort_newest_first_ok l sorted :
  App.sort_newest_first l = Some (Ok sorted) ->
  Permutation l sorted /\ newest_first sorted
  /\ forall n, created_at n sorted = created_at n l.
Proof.
  unfold App.sort_newest_first.
  destruct l as [|x [|y l]].
  - intros [= <-]. repeat split; constructor.
  - intros [= <-]. repeat split; repeat constructor.
  - destruct (existsb App.is_undefined (x :: y :: l)); [discriminate|].
    destruct (existsb App.is_null (x :: y :: l)); [discriminate|].
    destruct (forallb App.has_createdAt (x :: y :: l)); [|discriminate].
    intros [= <-]. split; [symmetry; exact (sort_perm (x :: y :: l))|].
    split; [exact (sort_sorted (x :: y :: l))
           |intros n; exact (sort_created_at n (x :: y :: l))].
Qed.

Lemma strict_eq_eq a b : strict_eq a b = true -> a = b.
Proof.
  destruct a, b; simpl; try discriminate; intros H; try reflexivity.
  - now apply Bool.eqb_prop in H as ->.
  - now apply Z.eqb_eq in H as ->.
  - now apply String.eqb_eq in H as ->.
Qed.



(** *** The lobby *)

Lemma title_matches_total toLowerCase term r :
  titled r -> exists b, App.title_matches toLowerCase term r = Ok b.
Proof.
  intros (o & t & -> & Ht). unfold App.title_matches. simpl. rewrite Ht. eauto.
Qed.

Lemma filter_res_total (p : JsVal -> Res bool) l :
  Forall (fun r => exists b, p r = Ok b) l -> exists l', filter_res p l = Ok l'.
Proof.
  induction 1 as [|x l [b Hx] Hl [l' IH]]; simpl; [eauto|].
  rewrite Hx, IH. eauto.
Qed.

Lemma filter_res_throws (p : JsVal -> Res bool) l :
  (exists e, filter_res p l = Throw e) \/ (exists l', filter_res p l = Ok l').
Proof. destruct (filter_res p l); eauto. Qed.

Lemma filteredRooms_titled toLowerCase s shown :
  App.filteredRooms toLowerCase s = Ok shown -> Forall titled (App.rooms s).
Proof.
  intros H. apply filter_res_each in H.
  eapply List.Forall_impl; [|exact H].
  intros r [b Hb]. eapply title_matches_titled; exact Hb.
Qed.

Lemma filteredRooms_throws toLowerCase s r :
  List.In r (App.rooms s) -> ~ titled r ->
  exists e, App.filteredRooms toLowerCase s = Throw e.
Proof.
  intros Hin Hnt.
  destruct (filter_res_throws (App.title_matches toLowerCase (App.searchTerm s))
              (App.rooms s)) as [He|[shown Hs]]; [exact He|].
  exfalso. apply Hnt.
  pose proof (filteredRooms_titled toLowerCase s shown Hs) as Hall.
  rewrite List.Forall_forall in Hall. auto.
Qed.

Lemma onRoomsDelivered_rooms updatedRooms s s' :
  App.onRoomsDelivered updatedRooms s = Some (Ok s') ->
  exists l, updatedRooms = JArr l /\ Permutation l (App.rooms s').
Proof.
  unfold App.onRoomsDelivered. intros H.
  destruct (receiver "sort" updatedRooms) as [l|e] eqn:Er; [|discriminate].
  apply receiver_array in Er. subst updatedRooms.
  destruct (App.sort_newest_first l) as [[sorted|e]|] eqn:Es; try discriminate.
  destruct (sort_newest_first_ok l sorted Es) as (Hp & _).
  exists l. split; [reflexivity|].
  destruct (truthy (App.currentRoom s)).
  - destruct (find_first _ sorted) as [found|e]; [|discriminate].
    destruct (truthy found); injection H as <-; exact Hp.
  - injection H as <-. exact Hp.
Qed.

(** X27. The lobby can be rendered exactly when every room of the
    collection is a record with a string title: then the rooms shown
    are rooms of the collection, each with a title, and otherwise
    computing them throws, whatever the search term. *)
Theorem lobby_needs_titles (toLowerCase : string -> string) (s : App.State) :
  ((exists shown, App.filteredRooms toLowerCase s = Ok shown)
   <-> Forall titled (App.rooms s))
  /\ (forall shown r,
        App.filteredRooms toLowerCase s = Ok shown -> List.In r shown ->
        List.In r (App.rooms s) /\ titled r)
  /\ (forall r,
        List.In r (App.rooms s) -> ~ titled r ->
        exists e, App.filteredRooms toLowerCase s = Throw e).
Proof.
  split; [split|split].
  - intros [shown H]. eapply filteredRooms_titled; exact H.
  - intros Hall. apply filter_res_total.
    eapply List.Forall_impl; [|exact Hall].
    intros r. apply title_matches_total.
  - intros shown r H Hin. split.
    + eapply filter_res_subset; eassumption.
    + eapply title_matches_titled. eapply filter_res_kept; eassumption.
  - intros r. apply filteredRooms_throws.
Qed.

Lemma subscribe_reads_local w l :
  isCloudEnabled w = false -> result getLocalRooms w = Ok (JArr l) -> l <> [] ->
  result subscribeToRooms w = Ok (Some (JArr l)).
Proof.
  intros Hc Hl Hne. unfold result in *.
  destruct (getLocalRooms_cases w)
    as [[Hg _]|[(s & v & Hs & _ & Hv & Hg)|(s & _ & _ & _ & Hg)]];
    rewrite Hg in Hl; simpl in Hl; injection Hl as Hl; try congruence.
  subst v. unfold subscribeToRooms, deliver. rewrite Hc. unfold bind.
  now rewrite (loadLocal_parsed w s (JArr l) Hs Hv).
Qed.

(** X28. A room file whose title is truthy but not a string is accepted
    by [importRoom]; in local mode, on a store that takes the write, the
    room is then part of what the subscriber is handed, and once that
    collection is shown the lobby cannot be rendered any more. *)
Theorem imported_title_breaks_lobby (toLowerCase : string -> string)
    (w : World) (o : Props) :
  isCloudEnabled w = false ->
  store_accepts w ->
  plain (JObj o) ->
  truthy (obj_get "id" o) = true ->
  truthy (obj_get "title" o) = true ->
  (forall title, obj_get "title" o <> JStr title) ->
  let w' := run (importRoom (JObj o)) w in
  result (importRoom (JObj o)) w = Ok true
  /\ exists l,
       result subscribeToRooms w' = Ok (Some (JArr l))
       /\ List.In (JObj o) l
       /\ forall s s',
            App.onRoomsDelivered (JArr l) s = Some (Ok s') ->
            exists e, App.filteredRooms toLowerCase s' = Throw e.
Proof.
  intros Hc Hacc Hp Hid Ht Hns w'. subst w'.
  destruct (saveRoom_outcome w o) as [[Hok Hst]|[e He]];
    [|rewrite (saveRoom_accepted w o Hacc) in He; discriminate].
  assert (Hdet : run (detach (saveRoom (JObj o))) w = run (saveRoom (JObj o)) w).
  { unfold run, detach. unfold result in Hok.
    destruct (saveRoom (JObj o) w) as [w1 [[]|e]]; [reflexivity|discriminate]. }
  assert (Hres : result (importRoom (JObj o)) w = Ok true)
    by (unfold result; now rewrite (importRoom_accepts o w Hid Ht)).
  assert (Hrun : run (importRoom (JObj o)) w = run (saveRoom (JObj o)) w)
    by (unfold run at 1; now rewrite (importRoom_accepts o w Hid Ht)).
  rewrite Hres, Hrun. split; [reflexivity|].
  pose proof (framed_saveRoom false (JObj o) w Hc) as [Hc1 _].
  unfold stored_under in Hst. rewrite Hc1, (plain_jclean _ Hp) in Hst.
  destruct Hst as (l & Hl & Hin).
  exists l. split; [|split; [exact Hin|]].
  - apply subscribe_reads_local; [exact Hc1|exact Hl|].
    intros ->. contradiction.
  - intros s s' Hd.
    destruct (onRoomsDelivered_rooms _ _ _ Hd) as (l' & [= <-] & Hperm).
    apply (filteredRooms_throws toLowerCase s' (JObj o)).
    + eapply Permutation_in; eassumption.
    + intros (o' & t & [= <-] & Hti). exact (Hns t Hti).
Qed.

Lemma imported_title_breaks_lobby_witness :
  result (importRoom (JObj numbered_title_room)) empty_local = Ok true
  /\ exists l,
       result subscribeToRooms
         (run (importRoom (JObj numbered_title_room)) empty_local)
       = Ok (Some (JArr l))
       /\ List.In (JObj numbered_title_room) l
       /\ forall s s',
            App.onRoomsDelivered (JArr l) s = Some (Ok s') ->
            exists e, App.filteredRooms (fun t => t) s' = Throw e.
Proof.
  assert (Ha : store_accepts empty_local)
    by (exists []; split; [reflexivity|constructor]).
  assert (Hp : plain (JObj numbered_title_room))
    by (apply (JSON_parse_plain
                 (string_of_list_ascii (json_text (JObj numbered_title_room))));
        reflexivity).
  assert (Ht : forall title, obj_get "title" numbered_title_room <> JStr title)
    by (intros title; discriminate).
  exact (imported_title_breaks_lobby (fun t => t) empty_local
           numbered_title_room eq_refl Ha Hp eq_refl eq_refl Ht).
Defined.
(** ** The export link *)

Lemma first_match_some ps cs r :
  App.first_match ps cs = Some r ->
  exists p, List.In p ps /\ strip_prefix p cs = Some r.
Proof.
  induction ps as [|p ps IH]; simpl; [discriminate|].
  destruct (strip_prefix p cs) as [x|] eqn:E.
  - intros [= <-]. exists p. split; [now left|exact E].
  - intros H. destruct (IH H) as (q & Hq & Hs). exists q. split; [now right|exact Hs].
Qed.

Lemma first_match_none ps cs p :
  App.first_match ps cs = None -> List.In p ps -> strip_prefix p cs = None.
Proof.
  induction ps as [|q ps IH]; simpl; [contradiction|].
  destruct (strip_prefix q cs) eqn:E; [discriminate|].
  intros H [->|Hin]; [exact E|now apply IH].
Qed.

Lemma strip_prefix_split p cs r :
  strip_prefix p cs = Some r -> cs = p ++ r.
Proof.
  revert cs; induction p as [|a p IH]; intros [|c cs] H; simpl in *;
    try discriminate; try (now injection H as <-).
  destruct (Ascii.eqb a c) eqn:E; [|discriminate].
  apply Ascii.eqb_eq in E as ->. now rewrite (IH _ H).
Qed.

Lemma space_patterns_shape p :
  List.In p App.space_patterns ->
  exists a p', p = a :: p' /\ Forall (fun c => c <> "_"%char) p.
Proof.
  assert (H : Forall (fun p => exists a p', p = a :: p'
                                /\ Forall (fun c => c <> "_"%char) p)
                App.space_patterns).
  { repeat (constructor; [eexists _, _; split;
                          [reflexivity|repeat constructor; discriminate]|]).
    constructor. }
  intros Hin. exact (proj1 (List.Forall_forall _ _) H p Hin).
Qed.


Lemma underscore_runs_cons c r b :
  App.underscore_runs (c :: r) 0 b
  = match App.strip_space (c :: r) with
    | Some rest =>
        (if b then [] else ["_"%char])
          ++ App.underscore_runs r (List.length r - List.length rest) true
    | None => c :: App.underscore_runs r 0 false
    end.
Proof. reflexivity. Qed.

Lemma underscore_runs_skip cs k b :
  App.underscore_runs cs k b = App.underscore_runs (skipn k cs) 0 b.
Proof.
  revert k; induction cs as [|c r IH]; intros [|k]; try reflexivity.
  simpl skipn. rewrite <- IH. reflexivity.
Qed.

(** After a white-space character the run continues with the text that
    follows it. *)
Lemma underscore_runs_space c r rest b :
  App.strip_space (c :: r) = Some rest ->
  App.underscore_runs (c :: r) 0 b
  = (if b then [] else ["_"%char]) ++ App.underscore_runs rest 0 true
    /\ (List.length rest < List.length (c :: r))%nat.
Proof.
  intros E. rewrite underscore_runs_cons, E.
  destruct (first_match_some _ _ _ E) as (p & Hp & Hs).
  destruct (space_patterns_shape p Hp) as (a & p' & -> & _).
  apply strip_prefix_split in Hs. injection Hs as -> ->.
  rewrite underscore_runs_skip, length_app.
  replace (List.length p' + List.length rest - List.length rest)%nat
    with (List.length p') by lia.
  rewrite skipn_app, skipn_all, Nat.sub_diag. simpl. split; [reflexivity|].
  rewrite length_app. lia.
Qed.

Lemma underscore_runs_other c r b :
  App.strip_space (c :: r) = None ->
  App.underscore_runs (c :: r) 0 b = c :: App.underscore_runs r 0 false.
Proof. intros E. now rewrite underscore_runs_cons, E. Qed.

Lemma strip_space_underscore cs : App.strip_space ("_"%char :: cs) = None.
Proof.
  destruct (App.strip_space ("_"%char :: cs)) as [r|] eqn:E; [|reflexivity].
  destruct (first_match_some _ _ _ E) as (p & Hp & Hs).
  destruct (space_patterns_shape p Hp) as (a & p' & -> & Hu).
  simpl in Hs. destruct (Ascii.eqb a "_") eqn:Ea; [|discriminate].
  apply Ascii.eqb_eq in Ea. inversion Hu; contradiction.
Qed.

(** A pattern without underscore that the result starts with is one the
    title starts with, at a place where no white space starts. *)
Lemma underscore_runs_prefix p cs x :
  Forall (fun c => c <> "_"%char) p ->
  strip_prefix p (App.underscore_runs cs 0 false) = Some x ->
  exists y, strip_prefix p cs = Some y
            /\ (p <> [] -> App.strip_space cs = None).
Proof.
  intros Hu. revert cs x.
  induction Hu as [|a p Ha Hu IH]; intros cs x H.
  - exists cs. split; [reflexivity|congruence].
  - destruct cs as [|c r]; [discriminate|].
    destruct (App.strip_space (c :: r)) as [rest|] eqn:E.
    + destruct (underscore_runs_space c r rest false E) as [Hr _].
      rewrite Hr in H. simpl in H.
      destruct (Ascii.eqb a "_") eqn:Ea; [|discriminate].
      apply Ascii.eqb_eq in Ea. contradiction.
    + rewrite (underscore_runs_other c r false E) in H. simpl in H. simpl.
      destruct (Ascii.eqb a c); [|discriminate].
      destruct (IH r x H) as (y & Hy & _). exists y. split; [exact Hy|auto].
Qed.

Lemma underscore_runs_head cs :
  App.strip_space (App.underscore_runs cs 0 false) = None.
Proof.
  destruct (App.strip_space (App.underscore_runs cs 0 false)) as [x|] eqn:E;
    [|reflexivity].
  destruct (first_match_some _ _ _ E) as (p & Hp & Hs).
  destruct (space_patterns_shape p Hp) as (a & p' & -> & Hu).
  destruct (underscore_runs_prefix _ _ _ Hu Hs) as (y & Hy & Hn).
  rewrite (first_match_none _ _ _ (Hn ltac:(discriminate)) Hp) in Hy.
  discriminate.
Qed.

Lemma spaceless_nil : spaceless [].
Proof.
  intros pre suf H. symmetry in H. apply app_eq_nil in H as [_ ->]. reflexivity.
Qed.

Lemma spaceless_cons a cs :
  App.strip_space (a :: cs) = None -> spaceless cs -> spaceless (a :: cs).
Proof.
  intros Ha Hcs [|b pre] suf H; simpl in H.
  - now subst suf.
  - injection H as _ H. exact (Hcs pre suf H).
Qed.

Lemma spaceless_tail a cs : spaceless (a :: cs) -> spaceless cs.
Proof. intros H pre suf E. apply (H (a :: pre) suf). simpl. now rewrite E. Qed.

Lemma underscore_runs_spaceless cs b :
  spaceless (App.underscore_runs cs 0 b).
Proof.
  remember (List.length cs) as n eqn:Hn.
  assert (Hle : (List.length cs <= n)%nat) by lia. clear Hn.
  revert cs b Hle. induction n as [|n IH]; intros [|c r] b Hle;
    try apply spaceless_nil; [simpl in Hle; lia|].
  destruct (App.strip_space (c :: r)) as [rest|] eqn:E.
  - destruct (underscore_runs_space c r rest b E) as [-> Hlt].
    assert (Hrest : spaceless (App.underscore_runs rest 0 true))
      by (apply IH; simpl in *; lia).
    destruct b; [exact Hrest|].
    apply spaceless_cons; [apply strip_space_underscore|exact Hrest].
  - pose proof (underscore_runs_head (c :: r)) as Hh.
    rewrite (underscore_runs_other c r b E).
    rewrite (underscore_runs_other c r false E) in Hh.
    apply spaceless_cons; [exact Hh|]. apply IH. simpl in Hle. lia.
Qed.

Lemma underscore_runs_fixed cs :
  spaceless cs -> App.underscore_runs cs 0 false = cs.
Proof.
  induction cs as [|c r IH]; intros H; [reflexivity|].
  rewrite (underscore_runs_other c r false (H [] (c :: r) eq_refl)).
  now rewrite (IH (spaceless_tail _ _ H)).
Qed.

Lemma percent_url_safe c : forallb url_safe (App.percent c) = true.
Proof. destruct c as [[] [] [] [] [] [] [] []]; reflexivity. Qed.

Lemma encoded_url_safe cs :
  forallb url_safe (flat_map App.percent cs) = true.
Proof.
  induction cs as [|c cs IH]; [reflexivity|].
  simpl. now rewrite forallb_app, percent_url_safe, IH.
Qed.

Lemma HEX_inj n m :
  (n < 16)%N -> (m < 16)%N -> App.HEX n = App.HEX m -> n = m.
Proof.
  intros Hn Hm.
  destruct n as [|p]; [|do 4 (try destruct p as [p|p|])]; try lia;
    (destruct m as [|q]; [|do 4 (try destruct q as [q|q|])]; try lia);
    intros H; try reflexivity; vm_compute in H; discriminate.
Qed.

Lemma percent_inj a b X Y :
  App.percent a ++ X = App.percent b ++ Y -> a = b /\ X = Y.
Proof.
  unfold App.percent.
  destruct (App.unreserved a) eqn:Ea, (App.unreserved b) eqn:Eb; simpl.
  - intros [= -> ->]. now split.
  - intros [= -> _]. discriminate.
  - intros [= <- _]. discriminate.
  - intros [= H2 H3 H4]. split; [|exact H4].
    pose proof (N_ascii_bounded a) as Ba. pose proof (N_ascii_bounded b) as Bb.
    assert (Hd : (N_of_ascii a / 16 = N_of_ascii b / 16)%N)
      by (apply HEX_inj; [apply N.Div0.div_lt_upper_bound; lia
                         |apply N.Div0.div_lt_upper_bound; lia|exact H2]).
    assert (Hm : (N_of_ascii a mod 16 = N_of_ascii b mod 16)%N)
      by (apply HEX_inj; [apply N.mod_lt; lia|apply N.mod_lt; lia|exact H3]).
    assert (Hab : N_of_ascii a = N_of_ascii b).
    { rewrite (N.div_mod (N_of_ascii a) 16), (N.div_mod (N_of_ascii b) 16) by lia.
      now rewrite Hd, Hm. }
    apply (f_equal ascii_of_N) in Hab. now rewrite !ascii_N_embedding in Hab.
Qed.

Lemma encoded_inj cs cs' :
  flat_map App.percent cs = flat_map App.percent cs' -> cs = cs'.
Proof.
  revert cs'; induction cs as [|c cs IH]; intros [|c' cs'] H;
    try reflexivity; simpl in H.
  - unfold App.percent in H. destruct (App.unreserved c'); discriminate.
  - unfold App.percent in H. destruct (App.unreserved c); discriminate.
  - apply percent_inj in H as [-> H]. now rewrite (IH _ H).
Qed.

(** X29. For a room whose title is a text, [handleExportRoom] offers a
    download whose file name is the title with every run of white space
    replaced by one underscore, so no white space is left in it and a
    title without white space is kept as it is, followed by
    [_data.json]; the address is the JSON text of the room, escaped so
    that only unreserved characters and percent escapes occur, and two
    rooms with different JSON texts get different addresses.  For a room
    whose title is not a text the handler throws. *)
Theorem handleExportRoom_link (o : Props) :
  (forall title, obj_get "title" o = JStr title ->
     exists name,
       App.handleExportRoom (JObj o)
       = Ok (export_prefix
               +:+ App.encodeURIComponent
                     (string_of_list_ascii (json_text (JObj o))),
             name +:+ "_data.json")
       /\ name = App.underscored title
       /\ spaceless (chars name)
       /\ (spaceless (chars title) -> name = title))
  /\ ((forall title, obj_get "title" o <> JStr title) ->
      exists e, App.handleExportRoom (JObj o) = Throw e)
  /\ (forall text,
        forallb url_safe (chars (App.encodeURIComponent text)) = true)
  /\ (forall text text',
        App.encodeURIComponent text = App.encodeURIComponent text' ->
        text = text').
Proof.
  repeat match goal with |- _ /\ _ => split end.
  - intros title Ht. exists (App.underscored title).
    unfold App.handleExportRoom, get_prop. rewrite Ht.
    repeat match goal with |- _ /\ _ => split end; try reflexivity.
    + unfold App.underscored, chars.
      rewrite list_ascii_of_string_of_list_ascii.
      apply underscore_runs_spaceless.
    + intros Hs. unfold App.underscored.
      rewrite (underscore_runs_fixed _ Hs). unfold chars.
      apply string_of_list_ascii_of_string.
  - intros Hn. unfold App.handleExportRoom, get_prop.
    destruct (obj_get "title" o) eqn:E; try (eexists; reflexivity).
    exfalso. exact (Hn _ eq_refl).
  - intros text. unfold App.encodeURIComponent, chars.
    rewrite list_ascii_of_string_of_list_ascii. apply encoded_url_safe.
  - intros text text' H. unfold App.encodeURIComponent in H.
    apply (f_equal list_ascii_of_string) in H.
    rewrite !list_ascii_of_string_of_list_ascii in H.
    apply chars_inj. now apply encoded_inj.
Qed.
